(** * Forward-error-correction codecs of error-codes-explorer

    A shallow embedding of the four codecs of the repository (Hamming,
    Reed-Solomon over GF(2^8), LDPC belief propagation, polar successive
    cancellation) and the properties their specification states.

    JavaScript numbers that hold integers are modelled as [Z]; arrays as
    lists; a [Set<number>] as a [gset nat]; thrown [Error]s as a sum type. *)

From Stdlib Require Import ZArith QArith Qabs Lqa List Lia Bool Zify ZifyNat Ring Eqdep_dec.
From stdpp Require Import base list gmap sorting.
Import ListNotations.

Local Open Scope Z_scope.

(** ** Array reads

    [a[i]] on a JavaScript array yields [undefined] outside [0, length).
    In this program such a value only ever flows into [^], [gfMul] or a
    [=== 0] test, where it acts as [0] ([undefined ^ x = x], and [gfMul]
    with an [undefined] operand yields [0] or [undefined]).  [rd] therefore
    returns [0] out of range. *)
Definition rd (l : list Z) (i : Z) : Z :=
  if i <? 0 then 0 else nth (Z.to_nat i) l 0.

(** [a[i] = v] for [0 <= i < a.length]; the program never writes elsewhere
    in the arrays modelled with [wr]. *)
Definition wr (l : list Z) (i : Z) (v : Z) : list Z :=
  if i <? 0 then l else <[Z.to_nat i := v]> l.

(** ** Bit words *)
Definition bit (b : Z) : Prop := b = 0 \/ b = 1.

(** A word of [n] bits. *)
Definition bits (n : nat) (w : list Z) : Prop :=
  length w = n /\ Forall bit w.

(** ** Bitwise operators

    [&], [|], [<<] and [>>] act on the 32-bit two's-complement value of
    their operands (ToInt32). *)
Definition toInt32 (n : Z) : Z := (n + 2 ^ 31) mod 2 ^ 32 - 2 ^ 31.

(** * GF(2^8) arithmetic (reed-solomon.ts, lines 4-46) *)
Module GF.

Definition GF_POLY : Z := 0x11d.
Definition GF_SIZE : Z := 256.

(** A slot of [new Array(n)] that has not been assigned yet. *)
Definition hole : Z := -2.

(** First loop of [initGF]: [k] iterations remain, [i] is the loop counter. *)
Fixpoint initGF_orbit (k : nat) (i x : Z) (gfExp gfLog : list Z)
  : list Z * list Z :=
  match k with
  | O => (gfExp, gfLog)
  | S k' =>
      let gfExp := wr gfExp i x in
      let gfLog := wr gfLog x i in
      let x := Z.shiftl x 1 in
      let x := if x >=? GF_SIZE then Z.land (Z.lxor x GF_POLY) 0xff else x in
      initGF_orbit k' (i + 1) x gfExp gfLog
  end.

(** Second loop of [initGF]: [gfExp[i] = gfExp[i - 255]] for [255 <= i < 512]. *)
Fixpoint initGF_dup (k : nat) (i : Z) (gfExp : list Z) : list Z :=
  match k with
  | O => gfExp
  | S k' => initGF_dup k' (i + 1) (wr gfExp i (rd gfExp (i - 255)))
  end.

Definition initGF : list Z * list Z :=
  let '(gfExp, gfLog) :=
    initGF_orbit 255 0 1 (replicate 512 hole) (replicate 256 hole) in
  let gfExp := initGF_dup (512 - 255) 255 gfExp in
  let gfLog := wr gfLog 0 (-1) in
  (gfExp, gfLog).

Definition gfExp : list Z := Eval vm_compute in fst initGF.
Definition gfLog : list Z := Eval vm_compute in snd initGF.

Definition gfMul (a b : Z) : Z :=
  if (a =? 0) || (b =? 0) then 0
  else rd gfExp (rd gfLog a + rd gfLog b).

(** [gfDiv] throws on a zero divisor: [None].  JavaScript's [%] truncates:
    [Z.rem]. *)
Definition gfDiv (a b : Z) : option Z :=
  if b =? 0 then None
  else if a =? 0 then Some 0
  else Some (rd gfExp (Z.rem (rd gfLog a - rd gfLog b + 255) 255)).

Definition gfPow (x power : Z) : Z :=
  rd gfExp (Z.rem (rd gfLog x * power) 255).

Definition gfInverse (x : Z) : Z :=
  rd gfExp (255 - rd gfLog x).

(** The bytes [0 .. 255] in order. *)
Definition bytes : list Z := map Z.of_nat (seq 0 256).

Definition byte (a : Z) : Prop := 0 <= a <= 255.

End GF.

(** * Reed-Solomon codec over GF(2^8) (reed-solomon.ts)

    A polynomial is the array of its coefficients, highest degree first. *)
Module RS.
Import GF.

(** The values taken by a loop counter [for (let i = 0; i < n; i++)]. *)
Definition indices (n : nat) : list Z := map Z.of_nat (seq 0 n).

Definition len (l : list Z) : Z := Z.of_nat (length l).

(** The two [Error]s the decoder throws, and the one of [gfDiv]:
    'Too many errors to correct', 'Could not find error positions',
    'Division by zero in GF'. *)
Inductive RSError :=
| TooManyErrors
| LocatorMismatch
| DivisionByZero.

(** [polyMul]; the arrays passed are never both empty. *)
Definition polyMul (p q : list Z) : list Z :=
  fold_left
    (fun result i =>
       fold_left
         (fun result j =>
            wr result (i + j) (Z.lxor (rd result (i + j)) (gfMul (rd p i) (rd q j))))
         (indices (length q)) result)
    (indices (length p))
    (replicate (length p + length q - 1) 0).

(** [polyEval]: Horner's rule from [p[0]] over [p[1], p[2], ...]. *)
Definition polyEval (p : list Z) (x : Z) : Z :=
  fold_left (fun result c => Z.lxor (gfMul result x) c) (tl p) (rd p 0).

Definition rsGeneratorPoly (nsym : nat) : list Z :=
  fold_left (fun g i => polyMul g [1; rd gfExp i]) (indices nsym) [1].

(** The division loop of [rsEncode] on the buffer [msgOut]. *)
Definition rsEncode_divide (gen : list Z) (msgLength : nat) (msgOut : list Z) : list Z :=
  fold_left
    (fun msgOut i =>
       let coef := rd msgOut i in
       if coef =? 0 then msgOut
       else
         fold_left
           (fun msgOut j =>
              wr msgOut (i + j) (Z.lxor (rd msgOut (i + j)) (gfMul (rd gen j) coef)))
           (map Z.of_nat (seq 1 (length gen - 1))) msgOut)
    (indices msgLength) msgOut.

Definition rsEncode (msg : list Z) (nsym : nat) : list Z :=
  let gen := rsGeneratorPoly nsym in
  let msgOut := msg ++ replicate nsym 0 in
  let msgOut := rsEncode_divide gen (length msg) msgOut in
  msg ++ map (fun i => rd msgOut (len msg + i)) (indices nsym).

Definition rsCalcSyndromes (msg : list Z) (nsym : nat) : list Z :=
  0 :: map (fun i => polyEval msg (rd gfExp i)) (indices nsym).

(** [synd.slice(1).every(s => s === 0)] *)
Definition rsCheckSyndromes (synd : list Z) : bool :=
  forallb (fun s => s =? 0) (drop 1 synd).

(** One round of the Berlekamp-Massey loop on [(errLoc, oldLoc)]. *)
Definition rsFindErrorLocator_step (synd : list Z) (st : list Z * list Z) (i : Z)
  : list Z * list Z :=
  let '(errLoc, oldLoc) := st in
  let syndShift := 0 in
  let K := i + syndShift + 1 in
  let delta :=
    fold_left
      (fun delta j => Z.lxor delta (gfMul (rd errLoc (len errLoc - 1 - j)) (rd synd (K - j))))
      (map Z.of_nat (seq 1 (length errLoc - 1))) (rd synd K) in
  let oldLoc := oldLoc ++ [0] in
  if delta =? 0 then (errLoc, oldLoc)
  else
    let '(errLoc, oldLoc) :=
      if len oldLoc >? len errLoc then
        let newLoc := map (fun c => gfMul c delta) oldLoc in
        let oldLoc := map (fun c => gfMul c (gfInverse delta)) errLoc in
        (newLoc, oldLoc)
      else (errLoc, oldLoc) in
    let errLoc :=
      fold_left
        (fun errLoc j =>
           wr errLoc (len errLoc - 1 - j)
              (Z.lxor (rd errLoc (len errLoc - 1 - j))
                      (gfMul delta (rd oldLoc (len oldLoc - 1 - j)))))
        (indices (length oldLoc)) errLoc in
    (errLoc, oldLoc).

(** [while (errLoc.length > 0 && errLoc[0] === 0) errLoc.shift()] *)
Fixpoint stripLeadingZeros (errLoc : list Z) : list Z :=
  match errLoc with
  | c :: rest => if c =? 0 then stripLeadingZeros rest else errLoc
  | [] => []
  end.

(** The locator the loop yields once its leading zeros are removed. *)
Definition berlekampMassey (synd : list Z) (nsym : nat) : list Z :=
  let '(errLoc, _) :=
    fold_left (rsFindErrorLocator_step synd) (indices nsym) ([1], [1]) in
  stripLeadingZeros errLoc.

Definition rsFindErrorLocator (synd : list Z) (nsym : nat) : RSError + list Z :=
  let errLoc := berlekampMassey synd nsym in
  let errs := len errLoc - 1 in
  if errs * 2 >? Z.of_nat nsym then inl TooManyErrors
  else inr errLoc.

(** The Chien search loop of [rsFindErrors]. *)
Definition chienSearch (errLoc : list Z) (msgLen : nat) : list Z :=
  fold_left
    (fun errPos i =>
       if polyEval errLoc (rd gfExp (255 - i)) =? 0
       then errPos ++ [Z.of_nat msgLen - 1 - i]
       else errPos)
    (indices msgLen) [].

Definition rsFindErrors (errLoc : list Z) (msgLen : nat) : RSError + list Z :=
  let errs := len errLoc - 1 in
  let errPos := chienSearch errLoc msgLen in
  if negb (len errPos =? errs) then inl LocatorMismatch
  else inr errPos.

(** [errLocPrime] for position [i]: the product over the other positions. *)
Definition errLocPrimeOf (errPos : list Z) (msgLen : nat) (i : Z) (XiInv : Z) : Z :=
  fold_left
    (fun errLocPrime j =>
       if negb (j =? i) then
         let Xj := rd gfExp (Z.of_nat msgLen - 1 - rd errPos j) in
         gfMul errLocPrime (Z.lxor 1 (gfMul XiInv Xj))
       else errLocPrime)
    (indices (length errPos)) 1.

Definition rsFindErrorMagnitudes (synd errLoc errPos : list Z) (msgLen : nat)
  : RSError + list Z :=
  let nsym := (length synd - 1)%nat in
  let syndPoly := map (fun i => rd synd i) (map (fun k => Z.of_nat nsym - Z.of_nat k) (seq 0 nsym)) in
  let omega := polyMul syndPoly errLoc in
  let omega := if len omega >? Z.of_nat nsym
               then drop (length omega - nsym) omega else omega in
  fold_left
    (fun acc i =>
       match acc with
       | inl e => inl e
       | inr errMag =>
           let Xi := rd gfExp (Z.of_nat msgLen - 1 - rd errPos i) in
           let XiInv := gfInverse Xi in
           let omegaVal := polyEval omega XiInv in
           let errLocPrime := errLocPrimeOf errPos msgLen i XiInv in
           if errLocPrime =? 0 then inr errMag
           else
             match gfDiv omegaVal errLocPrime with
             | Some q => inr (wr errMag (rd errPos i) q)
             | None => inl DivisionByZero
             end
       end)
    (indices (length errPos)) (inr (replicate msgLen 0)).

(** The messages of a correction result: 'Нет данных',
    'Ошибок не обнаружено', 'Исправлено N ошибок', or the text of the
    error caught. *)
Inductive Message :=
| NoData
| NoErrorsDetected
| CorrectedErrors (count : Z)
| Failure (e : RSError).

Record CorrectionResult := {
  success : bool;
  corrected : list Z;
  errorPositions : list Z;
  errorMagnitudes : list Z;
  message : Message;
}.

(** [messageBytes] from the character codes of the input. *)
Definition messageBytes (charCodes : list Z) : list Z :=
  map (fun c => Z.land c 0xff) charCodes.

Definition encoded (msg : list Z) (nsym : nat) : list Z :=
  match msg with
  | [] => []
  | _ => rsEncode msg nsym
  end.

(** [received]: [errors] lists the members of the [Set] of positions in
    insertion order. *)
Definition received (enc : list Z) (errors : list Z) : list Z :=
  fold_left
    (fun enc pos =>
       if pos <? len enc then wr enc pos (Z.land (Z.lxor (rd enc pos) 0xff) 0xff) else enc)
    errors enc.

Definition syndromes (recv : list Z) (nsym : nat) : list Z :=
  match recv with
  | [] => []
  | _ => rsCalcSyndromes recv nsym
  end.

(** The [try] block of [correctionResult]. *)
Definition correct (recv synd : list Z) (nsym : nat) : RSError + CorrectionResult :=
  match rsFindErrorLocator synd nsym with
  | inl e => inl e
  | inr errLoc =>
      match rsFindErrors errLoc (length recv) with
      | inl e => inl e
      | inr errPos =>
          match rsFindErrorMagnitudes synd errLoc errPos (length recv) with
          | inl e => inl e
          | inr errMag =>
              let corrected :=
                fold_left (fun corrected pos =>
                             wr corrected pos (Z.lxor (rd corrected pos) (rd errMag pos)))
                          errPos recv in
              inr {| success := true;
                     corrected := corrected;
                     errorPositions := errPos;
                     errorMagnitudes := errMag;
                     message := CorrectedErrors (len errPos) |}
          end
      end
  end.

Definition correctionResult (recv : list Z) (nsym : nat) : CorrectionResult :=
  let synd := syndromes recv nsym in
  match recv with
  | [] =>
      {| success := false; corrected := []; errorPositions := [];
         errorMagnitudes := []; message := NoData |}
  | _ =>
      if rsCheckSyndromes synd then
        {| success := true; corrected := recv; errorPositions := [];
           errorMagnitudes := []; message := NoErrorsDetected |}
      else
        match correct recv synd nsym with
        | inr res => res
        | inl e =>
            {| success := false; corrected := recv; errorPositions := [];
               errorMagnitudes := []; message := Failure e |}
        end
  end.

(** [Math.floor(nSymbols / 2)] *)
Definition maxErrors (nsym : nat) : nat := (nsym / 2)%nat.

(** [hasErrors] *)
Definition hasErrors (synd : list Z) : bool :=
  (len synd >? 1) && negb (rsCheckSyndromes synd).

(** [decodedMessage]: the UTF-16 code units of the string built with
    [String.fromCharCode]; [None] stands for '(ошибка декодирования)'. *)
Definition decodedMessage (result : CorrectionResult) (msgLen : nat) : option (list Z) :=
  if negb (success result) then None
  else Some (map (fun b => b mod 65536) (take msgLen (corrected result))).

(** [toggleError] on the members of the [Set] in insertion order. *)
Definition toggleError (nSymbols : nat) (errorPositions : list Z) (pos : Z) : list Z :=
  if bool_decide (pos ∈ errorPositions)
  then List.filter (fun p => negb (p =? pos)) errorPositions
  else if len errorPositions <? Z.of_nat (maxErrors nSymbols)
       then errorPositions ++ [pos]
       else errorPositions.

(** [clearErrors] *)
Definition clearErrors : list Z := [].

End RS.

(** * Hamming(7,4) and extended Hamming(8,4) (hamming.ts) *)
Module Hamming.

(** The three messages [corrected] can report:
    'Ошибок не обнаружено', 'Ошибка в позиции N — исправлена!' and
    'Синдром указывает за пределы слова'. *)
Inductive Message :=
| NoErrorsDetected
| ErrorFixedAt (posLabel : Z)
| SyndromeOutsideWord.

Record Syndrome := { s1 : Z; s2 : Z; s4 : Z; value : Z }.

Record Corrected := { word : list Z; errorAt : Z; message : Message }.

(** [encoded]: [d] is [dataBits], [ext] is [useExtended]. *)
Definition encoded (d : list Z) (ext : bool) : list Z :=
  let p1 := Z.lxor (Z.lxor (rd d 0) (rd d 1)) (rd d 3) in
  let p2 := Z.lxor (Z.lxor (rd d 0) (rd d 2)) (rd d 3) in
  let p4 := Z.lxor (Z.lxor (rd d 1) (rd d 2)) (rd d 3) in
  let codeword := [p1; p2; rd d 0; p4; rd d 1; rd d 2; rd d 3] in
  if ext then
    let p0 := fold_left (fun a b => Z.lxor a b) codeword 0 in
    p0 :: codeword
  else codeword.

(** [received]: [errPos] is [errorPosition] ([None] for [null]). *)
Definition received (enc : list Z) (errPos : option Z) : list Z :=
  match errPos with
  | Some e =>
      if (e >=? 0) && (e <? Z.of_nat (length enc))
      then wr enc e (Z.lxor (rd enc e) 1)
      else enc
  | None => enc
  end.

Definition syndrome (r : list Z) (ext : bool) : Syndrome :=
  let word := if ext then drop 1 r else r in
  let s1 := Z.lxor (Z.lxor (Z.lxor (rd word 0) (rd word 2)) (rd word 4)) (rd word 6) in
  let s2 := Z.lxor (Z.lxor (Z.lxor (rd word 1) (rd word 2)) (rd word 5)) (rd word 6) in
  let s4 := Z.lxor (Z.lxor (Z.lxor (rd word 3) (rd word 4)) (rd word 5)) (rd word 6) in
  {| s1 := s1; s2 := s2; s4 := s4; value := s1 * 1 + s2 * 2 + s4 * 4 |}.

Definition corrected (r : list Z) (ext : bool) : Corrected :=
  let syn := syndrome r ext in
  if value syn =? 0 then
    {| word := r; errorAt := -1; message := NoErrorsDetected |}
  else
    let errorIdx := if ext then value syn else value syn - 1 in
    if (errorIdx >=? 0) && (errorIdx <? Z.of_nat (length r)) then
      {| word := wr r errorIdx (Z.lxor (rd r errorIdx) 1);
         errorAt := errorIdx;
         message := ErrorFixedAt (value syn) |}
    else
      {| word := r; errorAt := -1; message := SyndromeOutsideWord |}.

(** [parityCheckMatrix] *)
Definition parityCheckMatrix : list (list Z) := [
  [1; 0; 1; 0; 1; 0; 1];
  [0; 1; 1; 0; 0; 1; 1];
  [0; 0; 0; 1; 1; 1; 1]
].

(** [isInParityGroup] *)
Definition isInParityGroup (position group : Z) : bool :=
  negb (Z.land (toInt32 position) (toInt32 group) =? 0).

(** [isPowerOfTwo] *)
Definition isPowerOfTwo (n : Z) : bool :=
  (n >? 0) && (Z.land (toInt32 n) (toInt32 (n - 1)) =? 0).

End Hamming.

(** * LDPC belief propagation (ldpc.ts)

    The decoder computes on JavaScript numbers (IEEE doubles).  Its control
    flow uses only the operations below, so the model is stated over an
    interface of them; [num_nan] is what an [undefined] array slot becomes
    in arithmetic. *)
Class Number (F : Type) := {
  num_zero : F;
  num_one : F;
  num_neg_one : F;
  num_inf : F;
  num_nan : F;
  num_add : F -> F -> F;
  num_sub : F -> F -> F;
  num_mul : F -> F -> F;
  num_min : F -> F -> F;
  num_abs : F -> F;
  num_opp : F -> F;
  num_ltb : F -> F -> bool;
  num_geb : F -> F -> bool;
}.

(** A number that is not below zero: [x < 0] is false.  [NaN] is one. *)
Definition notneg {F : Type} `{Number F} (x : F) : Prop :=
  num_ltb x num_zero = false.

(** Facts about the operations that the fixed-point argument uses; each
    holds of IEEE doubles with JavaScript's [Math.min] and [Math.abs]. *)
Class NumberLaws (F : Type) `{Number F} : Prop := {
  geb_zero : num_geb num_zero num_zero = true;
  notneg_one : notneg num_one;
  notneg_inf : notneg num_inf;
  notneg_abs : forall a, notneg (num_abs a);
  notneg_add : forall a b, notneg a -> notneg b -> notneg (num_add a b);
  notneg_mul : forall a b, notneg a -> notneg b -> notneg (num_mul a b);
  notneg_min : forall a b, notneg a -> notneg b -> notneg (num_min a b);
  mul_one_one : num_mul num_one num_one = num_one;
}.

(** ** Exact numbers

    An instance of the interface without rounding: the rationals with the
    two infinities and NaN, combined as IEEE arithmetic combines them. *)
Module Exact.

Inductive num := Fin (q : Q) | PInf | NInf | NaN.

Definition Qltb (a b : Q) : bool := negb (Qle_bool b a).

(** [-1], [0] or [1]; NaN has none. *)
Definition sign (x : num) : option Z :=
  match x with
  | Fin q => Some (if Qltb q 0 then -1 else if Qltb 0 q then 1 else 0)
  | PInf => Some 1
  | NInf => Some (-1)
  | NaN => None
  end.

Definition opp (x : num) : num :=
  match x with
  | Fin q => Fin (- q)
  | PInf => NInf
  | NInf => PInf
  | NaN => NaN
  end.

Definition add (x y : num) : num :=
  match x, y with
  | NaN, _ | _, NaN => NaN
  | Fin a, Fin b => Fin (a + b)
  | PInf, NInf | NInf, PInf => NaN
  | PInf, _ | _, PInf => PInf
  | NInf, _ | _, NInf => NInf
  end.

Definition sub (x y : num) : num := add x (opp y).

Definition mul (x y : num) : num :=
  match x, y with
  | Fin a, Fin b => Fin (a * b)
  | _, _ =>
      match sign x, sign y with
      | Some sx, Some sy =>
          if (sx * sy =? 0)%Z then NaN
          else if (sx * sy >? 0)%Z then PInf else NInf
      | _, _ => NaN
      end
  end.

Definition ltb (x y : num) : bool :=
  match x, y with
  | NaN, _ | _, NaN => false
  | Fin a, Fin b => Qltb a b
  | _, NInf | PInf, _ => false
  | NInf, _ | _, PInf => true
  end.

Definition geb (x y : num) : bool :=
  match x, y with
  | NaN, _ | _, NaN => false
  | _, _ => negb (ltb x y)
  end.

(** [Math.min]: NaN if either argument is. *)
Definition min (x y : num) : num :=
  match x, y with
  | NaN, _ | _, NaN => NaN
  | _, _ => if ltb y x then y else x
  end.

Definition abs (x : num) : num :=
  match x with
  | Fin q => Fin (Qabs q)
  | PInf | NInf => PInf
  | NaN => NaN
  end.

#[global] Instance exact_number : Number num := {|
  num_zero := Fin 0;
  num_one := Fin 1;
  num_neg_one := Fin (-1);
  num_inf := PInf;
  num_nan := NaN;
  num_add := add;
  num_sub := sub;
  num_mul := mul;
  num_min := min;
  num_abs := abs;
  num_opp := opp;
  num_ltb := ltb;
  num_geb := geb;
|}.

End Exact.

Module LDPC.

Definition DEFAULT_H : list (list Z) := [
  [0; 1; 1; 1; 0; 1; 0; 1];
  [0; 1; 1; 0; 1; 0; 1; 1];
  [1; 0; 0; 1; 0; 1; 1; 1];
  [1; 0; 1; 1; 1; 0; 1; 0]
].

Section Decoder.
Context {F : Type} `{Number F}.

(** The min-sum scaling constant: [0.9] in ldpc.ts ([0.75] in the older
    variant of the page). *)
Variable damping : F.

Record BPIteration := {
  iteration : Z;
  checkToVar : list (list F);
  varToCheck : list (list F);
  beliefs : list F;
  decoded : list Z;
  syndromeOk : bool;
}.

Record FinalResult := {
  fr_decoded : list Z;
  converged : bool;
  iterations : Z;
  maxIter : Z;
}.

(** [h[i][j] === v]; a slot outside the matrix is [undefined] and equals
    no number. *)
Definition h_is (h : list (list Z)) (i j : nat) (v : Z) : bool :=
  match h !! i with
  | Some row => match row !! j with Some x => x =? v | None => false end
  | None => false
  end.

(** Reads of number arrays: [a[j]] and [a[i][j]]. *)
Definition rdF (a : list F) (j : nat) : F := nth j a num_nan.
Definition rdF2 (a : list (list F)) (i j : nat) : F := rdF (nth i a []) j.

Definition numCheckNodes (h : list (list Z)) : nat := length h.

(** [h[0]?.length || 0] *)
Definition numVarNodes (h : list (list Z)) : nat :=
  match h with
  | [] => O
  | row :: _ => length row
  end.

(** [channelLLR]; [llr0] is the value of [Math.log((1 - p) / p)]. *)
Definition channelLLR (r : list Z) (llr0 : F) : list F :=
  let llr1 := num_opp llr0 in
  map (fun bit => if bit =? 0 then llr0 else llr1) r.

Definition initVarToCheck (h : list (list Z)) (channelLlr : list F) : list (list F) :=
  map (fun i =>
         map (fun j => if h_is h i j 1 then rdF channelLlr j else num_zero)
             (seq 0 (numVarNodes h)))
      (seq 0 (numCheckNodes h)).

(** The inner loop over [jj]: sign and minimum magnitude of the other
    messages arriving at check [i]. *)
Definition signMin (h : list (list Z)) (v2c : list (list F)) (i j : nat) : F * F :=
  fold_left
    (fun '(sign, minAbs) jj =>
       if (jj =? j)%nat || h_is h i jj 0 then (sign, minAbs)
       else
         let msg := rdF2 v2c i jj in
         (num_mul sign (if num_geb msg num_zero then num_one else num_neg_one),
          num_min minAbs (num_abs msg)))
    (seq 0 (numVarNodes h)) (num_one, num_inf).

Definition checkToVarOf (h : list (list Z)) (v2c : list (list F)) : list (list F) :=
  map (fun i =>
         map (fun j =>
                if h_is h i j 0 then num_zero
                else let '(sign, minAbs) := signMin h v2c i j in
                     num_mul (num_mul sign minAbs) damping)
             (seq 0 (numVarNodes h)))
      (seq 0 (numCheckNodes h)).

Definition beliefsOf (h : list (list Z)) (channelLlr : list F) (c2v : list (list F))
  : list F :=
  map (fun j =>
         fold_left
           (fun totalLlr i =>
              if h_is h i j 1 then num_add totalLlr (rdF2 c2v i j) else totalLlr)
           (seq 0 (numCheckNodes h)) (rdF channelLlr j))
      (seq 0 (numVarNodes h)).

Definition newVarToCheckOf (h : list (list Z)) (bel : list F) (c2v : list (list F))
  : list (list F) :=
  map (fun i =>
         map (fun j =>
                if h_is h i j 0 then num_zero
                else num_sub (rdF bel j) (rdF2 c2v i j))
             (seq 0 (numVarNodes h)))
      (seq 0 (numCheckNodes h)).

Definition hardDecision (bel : list F) : list Z :=
  map (fun b => if num_ltb b num_zero then 1 else 0) bel.

(** XOR of the hard-decision bits connected to check [i]. *)
Definition rowSyndrome (h : list (list Z)) (dec : list Z) (i : nat) : Z :=
  fold_left
    (fun s j => if h_is h i j 1 then Z.lxor s (rd dec (Z.of_nat j)) else s)
    (seq 0 (numVarNodes h)) 0.

(** The syndrome loop, which leaves at the first non-zero row. *)
Definition syndromeCheck (h : list (list Z)) (dec : list Z) : bool :=
  forallb (fun i => rowSyndrome h dec i =? 0) (seq 0 (numCheckNodes h)).

(** Body of the [iter] loop: the record pushed and the next [varToCheck]. *)
Definition bpStep (h : list (list Z)) (channelLlr : list F)
    (v2c : list (list F)) (iter : Z) : BPIteration :=
  let c2v := checkToVarOf h v2c in
  let bel := beliefsOf h channelLlr c2v in
  let newV2c := newVarToCheckOf h bel c2v in
  let dec := hardDecision bel in
  {| iteration := iter + 1;
     checkToVar := c2v;
     varToCheck := newV2c;
     beliefs := bel;
     decoded := dec;
     syndromeOk := syndromeCheck h dec |}.

(** [for (iter = ...; iter < maxIter; iter++)] with [left] rounds to go. *)
Fixpoint bpLoop (h : list (list Z)) (channelLlr : list F)
    (left : nat) (iter : Z) (v2c : list (list F)) (acc : list BPIteration)
  : list BPIteration :=
  match left with
  | O => acc
  | S left' =>
      let it := bpStep h channelLlr v2c iter in
      let acc := acc ++ [it] in
      if syndromeOk it then acc
      else bpLoop h channelLlr left' (iter + 1) (varToCheck it) acc
  end.

Definition bpIterations (h : list (list Z)) (r : list Z) (llr0 : F) (maxIterations : nat)
  : list BPIteration :=
  let channelLlr := channelLLR r llr0 in
  bpLoop h channelLlr maxIterations 0 (initVarToCheck h channelLlr) [].

Definition finalResult (h : list (list Z)) (r : list Z) (llr0 : F) (maxIterations : nat)
  : FinalResult :=
  let iters := bpIterations h r llr0 maxIterations in
  match last iters with
  | None =>
      {| fr_decoded := r; converged := false; iterations := 0;
         maxIter := Z.of_nat maxIterations |}
  | Some lastIt =>
      {| fr_decoded := decoded lastIt; converged := syndromeOk lastIt;
         iterations := Z.of_nat (length iters);
         maxIter := Z.of_nat maxIterations |}
  end.

End Decoder.

Arguments BPIteration F : clear implicits.
Arguments FinalResult : clear implicits.

(** [rowWeights] *)
Definition rowWeights (h : list (list Z)) : list Z :=
  map (fun row => fold_left (fun s v => s + v) row 0) h.

(** [colWeights]; a row shorter than the first one would add [undefined]
    to the sum, the matrices considered have none. *)
Definition colWeights (h : list (list Z)) : list Z :=
  match h with
  | [] => []
  | row0 :: _ =>
      map (fun j => fold_left (fun s row => s + rd row (Z.of_nat j)) h 0)
          (seq 0 (length row0))
  end.

End LDPC.


(** * Polar code with successive-cancellation decoding (polar.ts) *)
Module Polar.

(** [a[i][j]] on a matrix of integers. *)
Definition rdM (a : list (list Z)) (i j : nat) : Z := nth j (nth i a []) 0.

Definition kronecker (a b : list (list Z)) : list (list Z) :=
  let am := length a in
  let an := length (nth 0 a []) in
  let bm := length b in
  let bn := length (nth 0 b []) in
  map (fun i =>
         map (fun j => rdM a (i / bm) (j / bn) * rdM b (i mod bm) (j mod bn))
             (seq 0 (an * bn)))
      (seq 0 (am * bm)).

Definition F2 : list (list Z) := [[1; 0]; [1; 1]].

(** [generateG(n)]: the loop body runs for [i = 1 .. n-1]. *)
Definition generateG (n : nat) : list (list Z) :=
  let G := Nat.iter (n - 1) (fun G => kronecker G F2) F2 in
  map (map (fun v => Z.rem v 2)) G.

(** ** Channel ranking

    [bhattacharyya] and the sort of [channels] compute on doubles.  Their
    only output used by the codec is the order of the channel indices,
    [sorted] below, some arrangement of [0 .. N-1]. *)
Section Ranking.
Variable N : nat.
Variable sorted : list nat.
Variable K : nat.

(** [infoSet = new Set(sorted.slice(0, K).map(c => c.index))] *)
Definition infoSet : gset nat := list_to_set (take K sorted).

(** [channels()[i].type === 'info'] *)
Definition channels : list bool :=
  map (fun i => bool_decide (i ∈ infoSet)) (seq 0 N).

Definition indicesOfType (info : bool) : list nat :=
  filter (fun i => nth i channels false = info) (seq 0 N).

Definition frozenBits : gset nat := list_to_set (indicesOfType false).

(** [.sort((a, b) => a - b)] *)
Definition infoBitIndices : list nat := merge_sort Nat.le (indicesOfType true).

End Ranking.

(** [inputVector]; every index written lies inside [u]. *)
Definition inputVector (N : nat) (infoIndices : list nat) (data : list Z) : list Z :=
  fold_left
    (fun u i => <[nth i infoIndices O := nth i data 0]> u)
    (seq 0 (Nat.min (length infoIndices) (length data)))
    (replicate N 0).

(** [encoded]: x = u * G_N (mod 2) *)
Definition encoded (N : nat) (G : list (list Z)) (u : list Z) : list Z :=
  map (fun j =>
         let sum := fold_left (fun sum i => sum + nth i u 0 * rdM G i j) (seq 0 N) 0 in
         Z.rem sum 2)
      (seq 0 N).

(** The LLRs are sums and minima of [+-2.0]: integers well inside the range
    that doubles hold exactly, modelled in [Z]. *)
Definition reliability : Z := 2.

Definition f (a b : Z) : Z :=
  let sign := (if a >=? 0 then 1 else -1) * (if b >=? 0 then 1 else -1) in
  sign * Z.min (Z.abs a) (Z.abs b).

Definition g (a b u : Z) : Z := b + (1 - 2 * u) * a.

(** The recursive [decode] of [scDecode].  It writes the shared array
    [decoded], threaded here as state, and returns the re-encoded partial
    sums.  [fuel] bounds the recursion depth; an odd [size] other than 1
    makes [new Array(size / 2)] throw, and [size = 0] recurses for ever:
    both are [None].  [llr] holds [size] values in every call that
    [scDecode] makes on a received word of [N] bits; on a shorter word the
    source reads [undefined] and computes [NaN], which this integer model
    does not cover. *)
Fixpoint decode (fuel : nat) (frozenBits : gset nat)
    (llr : list Z) (offset size : nat) (decoded : list Z)
  : option (list Z * list Z) :=
  match fuel with
  | O => None
  | S fuel' =>
      if (size =? 1)%nat then
        let bit := if bool_decide (offset ∈ frozenBits) then 0
                   else if nth 0 llr 0 <? 0 then 1 else 0 in
        Some ([bit], <[offset := bit]> decoded)
      else if negb (Nat.even size) then None
      else
        let half := (size / 2)%nat in
        let fLlr := map (fun i => f (nth i llr 0) (nth (half + i) llr 0)) (seq 0 half) in
        match decode fuel' frozenBits fLlr offset half decoded with
        | None => None
        | Some (upperEnc, decoded) =>
            let gLlr := map (fun i => g (nth i llr 0) (nth (half + i) llr 0)
                                        (nth i upperEnc 0)) (seq 0 half) in
            match decode fuel' frozenBits gLlr (offset + half) half decoded with
            | None => None
            | Some (lowerEnc, decoded) =>
                let combined :=
                  map (fun i => Z.lxor (nth i upperEnc 0) (nth i lowerEnc 0)) (seq 0 half)
                  ++ map (fun i => nth i lowerEnc 0) (seq 0 half) in
                Some (combined, decoded)
            end
        end
  end.

(** [scDecode] on a received word of [N] bits; the recursion is at most
    [log2 N + 1 <= N] deep. *)
Definition scDecode (received : list Z) (frozenBits : gset nat) (N : nat)
  : option (list Z) :=
  let initialLlr := map (fun bit => if bit =? 0 then reliability else - reliability)
                        received in
  match decode N frozenBits initialLlr 0 N (replicate N 0) with
  | Some (_, decoded) => Some decoded
  | None => None
  end.

(** [decodedInfoBits] *)
Definition decodedInfoBits (infoIndices : list nat) (dec : list Z) : list Z :=
  map (fun i => nth i dec 0) infoIndices.

(** [bhattacharyya].  [n] halves until it is 1; when it never is, the
    recursion does not end: [None] for every [fuel].  [two] is the literal
    [2]. *)
Section Bhattacharyya.
Context {F : Type} `{Number F}.
Variable two : F.

Fixpoint bhattacharyya (fuel : nat) (n : Q) (eps : F) : option (list F) :=
  match fuel with
  | O => None
  | S fuel' =>
      if Qeq_bool n 1 then Some [eps]
      else
        match bhattacharyya fuel' (n / 2)%Q eps with
        | None => None
        | Some half =>
            Some (flat_map
                    (fun hi =>
                       [num_min (num_sub (num_mul two hi) (num_mul hi hi)) num_one;
                        num_mul hi hi])
                    half)
        end
  end.

End Bhattacharyya.

(** [bitReverse]: [bits] turns of the loop on [(x, result)]. *)
Fixpoint bitReverse_loop (bits : nat) (x result : Z) : Z :=
  match bits with
  | O => result
  | S bits' =>
      let result := Z.lor (toInt32 (Z.shiftl (toInt32 result) 1)) (Z.land (toInt32 x) 1) in
      let x := Z.shiftr (toInt32 x) 1 in
      bitReverse_loop bits' x result
  end.

Definition bitReverse (x : Z) (bits : nat) : Z := bitReverse_loop bits x 0.

(** [received]: [errorPositions] lists the members of the [Set] in
    insertion order. *)
Definition received (x : list Z) (errorPositions : list Z) : list Z :=
  fold_left
    (fun x pos => if pos <? Z.of_nat (length x) then wr x pos (1 - rd x pos) else x)
    errorPositions x.

(** [decodingSuccess]: [decoded[i] ?? 0] *)
Definition decodingSuccess (original decoded : list Z) : bool :=
  forallb (fun i => nth i original 0 =? nth i decoded 0) (seq 0 (length original)).

End Polar.

(** * Reading lists built by [map], [seq] and [replicate] *)

Lemma nth_map_lt {A B} (f : A -> B) (l : list A) j d d' :
  (j < length l)%nat -> nth j (map f l) d = f (nth j l d').
Proof.
  revert j. induction l as [|a l IH]; intros [|j] Hj; simpl in *; try lia.
  - reflexivity.
  - apply IH. lia.
Qed.

Lemma nth_replicate {A} (x d : A) k j :
  (j < k)%nat -> nth j (replicate k x) d = x.
Proof.
  revert j. induction k as [|k IH]; intros [|j] Hj; simpl; try lia.
  - reflexivity.
  - apply IH. lia.
Qed.

Lemma nth_map_seq {A} (f : nat -> A) k j d :
  (j < k)%nat -> nth j (map f (seq 0 k)) d = f j.
Proof.
  intros Hj. rewrite (nth_map_lt _ _ _ _ 0%nat) by (rewrite length_seq; lia).
  now rewrite seq_nth.
Qed.

Module GFFacts.
Import GF.

Lemma bytes_spec (a : Z) : byte a -> In a bytes.
Proof.
  intros [H0 H1]. unfold bytes. apply in_map_iff.
  exists (Z.to_nat a). split; [lia|]. apply in_seq. lia.
Qed.

(** A property decided on the 256 bytes holds of every byte. *)
Lemma byte_cases (P : Z -> bool) :
  forallb P bytes = true -> forall a, byte a -> P a = true.
Proof.
  intros HP a Ha. rewrite forallb_forall in HP. apply HP, bytes_spec, Ha.
Qed.

Lemma byte_cases2 (P : Z -> Z -> bool) :
  forallb (fun a => forallb (P a) bytes) bytes = true ->
  forall a b, byte a -> byte b -> P a b = true.
Proof.
  intros HP a b Ha Hb.
  apply (byte_cases (P a)); [|exact Hb].
  apply (byte_cases (fun a => forallb (P a) bytes)); assumption.
Qed.

Lemma gfExp_length : length gfExp = 512%nat.
Proof. reflexivity. Qed.

Lemma gfLog_length : length gfLog = 256%nat.
Proof. reflexivity. Qed.

(** [initGF] assigns every slot of both tables. *)
Lemma initGF_total : Forall (fun v => v <> hole) (gfExp ++ gfLog).
Proof.
  apply Forall_forall. intros v Hv.
  assert (H : forallb (fun v => negb (v =? hole)) (gfExp ++ gfLog) = true)
    by (vm_compute; reflexivity).
  rewrite forallb_forall in H. apply list_elem_of_In in Hv. specialize (H v Hv).
  apply negb_true_iff, Z.eqb_neq in H. exact H.
Qed.

(** A property decided on [0 .. n-1] holds of every index in that range. *)
Lemma index_cases (n : nat) (P : Z -> bool) :
  forallb P (map Z.of_nat (seq 0 n)) = true ->
  forall i, 0 <= i < Z.of_nat n -> P i = true.
Proof.
  intros HP i Hi. rewrite forallb_forall in HP. apply HP.
  apply in_map_iff. exists (Z.to_nat i). split; [lia|]. apply in_seq. lia.
Qed.

(** Logarithms of the non-zero bytes lie in [0, 254]. *)
Lemma gfLog_range a : 1 <= a <= 255 -> 0 <= rd gfLog a <= 254.
Proof.
  intros Ha.
  assert (H := index_cases 256
    (fun a => (a =? 0) || ((0 <=? rd gfLog a) && (rd gfLog a <=? 254)))
    ltac:(vm_compute; reflexivity) a ltac:(lia)).
  simpl in H. destruct (Z.eqb_spec a 0); [lia|]. simpl in H. lia.
Qed.

(** Every entry of the antilog table is a non-zero byte. *)
Lemma gfExp_range i : 0 <= i < 512 -> 1 <= rd gfExp i <= 255.
Proof.
  intros Hi.
  assert (H := index_cases 512
    (fun i => (1 <=? rd gfExp i) && (rd gfExp i <=? 255))
    ltac:(vm_compute; reflexivity) i ltac:(lia)).
  simpl in H. lia.
Qed.

(** The upper copy of the antilog table: [gfExp[i + 255] = gfExp[i]]. *)
Lemma gfExp_dup i : 0 <= i < 257 -> rd gfExp (i + 255) = rd gfExp i.
Proof.
  intros Hi.
  assert (H := index_cases 257
    (fun i => rd gfExp (i + 255) =? rd gfExp i)
    ltac:(vm_compute; reflexivity) i ltac:(lia)).
  simpl in H. lia.
Qed.

Lemma gfLog_exp i : 0 <= i < 255 -> rd gfLog (rd gfExp i) = i.
Proof.
  intros Hi.
  assert (H := index_cases 255
    (fun i => rd gfLog (rd gfExp i) =? i)
    ltac:(vm_compute; reflexivity) i ltac:(lia)).
  simpl in H. lia.
Qed.

Lemma gfExp_log a : 1 <= a <= 255 -> rd gfExp (rd gfLog a) = a.
Proof.
  intros Ha.
  assert (H := index_cases 256
    (fun a => (a =? 0) || (rd gfExp (rd gfLog a) =? a))
    ltac:(vm_compute; reflexivity) a ltac:(lia)).
  simpl in H. destruct (Z.eqb_spec a 0); [lia|]. simpl in H. lia.
Qed.

Definition div_mul_ok (a b : Z) : bool :=
  (b =? 0) || match gfDiv (gfMul a b) b with Some c => c =? a | None => false end.

Definition mul_inv_ok (a : Z) : bool :=
  (a =? 0) || (gfMul a (gfInverse a) =? 1).

Lemma div_mul_table : forallb (fun a => forallb (div_mul_ok a) bytes) bytes = true.
Proof. vm_compute. reflexivity. Qed.

Lemma mul_inv_table : forallb mul_inv_ok bytes = true.
Proof. vm_compute. reflexivity. Qed.

(** C4. GF(2^8) field identities: gfDiv(gfMul(a,b), b) = a for every byte a
    and non-zero byte b, and gfMul(a, gfInverse(a)) = 1 for every non-zero
    byte a. *)
Theorem gf_field_identities :
  (forall a b, 0 <= a <= 255 -> 1 <= b <= 255 -> gfDiv (gfMul a b) b = Some a) /\
  (forall a, 1 <= a <= 255 -> gfMul a (gfInverse a) = 1).
Proof.
  split.
  - intros a b Ha Hb.
    assert (H := byte_cases2 div_mul_ok div_mul_table a b Ha ltac:(unfold byte; lia)).
    unfold div_mul_ok in H.
    destruct (Z.eqb_spec b 0) as [->|_]; [lia|]. simpl in H.
    destruct (gfDiv (gfMul a b) b) as [c|]; [|discriminate].
    apply Z.eqb_eq in H. now subst.
  - intros a Ha.
    assert (H := byte_cases mul_inv_ok mul_inv_table a ltac:(unfold byte; lia)).
    unfold mul_inv_ok in H.
    destruct (Z.eqb_spec a 0) as [->|_]; [lia|]. simpl in H.
    now apply Z.eqb_eq in H.
Qed.

Lemma gf_field_identities_witness :
  gfDiv (gfMul 200 57) 57 = Some 200 /\ gfMul 57 (gfInverse 57) = 1.
Proof.
  split.
  - apply (proj1 gf_field_identities 200 57); lia.
  - apply (proj2 gf_field_identities 57); lia.
Defined.

(** C9. For all bytes a, b: gfMul(a,b) is a byte, and when both are
    non-zero the antilog index log(a)+log(b) it reads is at most 508, inside
    the 512-entry table (and both log reads are inside the 256-entry table);
    gfDiv(a,b) with b non-zero returns a byte, reading inside the table. *)
Theorem gf_closure (a b : Z) :
  0 <= a <= 255 -> 0 <= b <= 255 ->
  0 <= gfMul a b <= 255 /\
  (a <> 0 -> b <> 0 ->
     a < Z.of_nat (length gfLog) /\ b < Z.of_nat (length gfLog) /\
     0 <= rd gfLog a + rd gfLog b <= 508 /\
     rd gfLog a + rd gfLog b < Z.of_nat (length gfExp)) /\
  (b <> 0 ->
     (exists c, gfDiv a b = Some c /\ 0 <= c <= 255) /\
     0 <= Z.rem (rd gfLog a - rd gfLog b + 255) 255 < Z.of_nat (length gfExp)).
Proof.
  intros Ha Hb. rewrite gfExp_length, gfLog_length.
  assert (Hidx : a <> 0 -> b <> 0 -> 0 <= rd gfLog a + rd gfLog b <= 508).
  { intros Ha0 Hb0.
    pose proof (gfLog_range a ltac:(lia)). pose proof (gfLog_range b ltac:(lia)). lia. }
  split; [|split].
  - unfold gfMul.
    destruct (Z.eqb_spec a 0); [simpl; lia|]. destruct (Z.eqb_spec b 0); [simpl; lia|].
    simpl. pose proof (gfExp_range (rd gfLog a + rd gfLog b)). lia.
  - intros Ha0 Hb0. specialize (Hidx Ha0 Hb0). lia.
  - intros Hb0. pose proof (gfLog_range b ltac:(lia)) as Hlb.
    assert (Hrem : 0 <= Z.rem (rd gfLog a - rd gfLog b + 255) 255 < 512).
    { destruct (Z.eq_dec a 0) as [->|Ha0].
      - change (rd gfLog 0) with (-1).
        pose proof (Z.rem_bound_pos (-1 - rd gfLog b + 255) 255). lia.
      - pose proof (gfLog_range a ltac:(lia)).
        pose proof (Z.rem_bound_pos (rd gfLog a - rd gfLog b + 255) 255). lia. }
    split; [|lia]. unfold gfDiv.
    destruct (Z.eqb_spec b 0); [lia|].
    destruct (Z.eqb_spec a 0).
    + exists 0. split; [reflexivity|lia].
    + eexists. split; [reflexivity|].
      pose proof (gfExp_range (Z.rem (rd gfLog a - rd gfLog b + 255) 255)). lia.
Qed.

Lemma gf_closure_witness :
  0 <= gfMul 255 255 <= 255 /\
  (255 <> 0 -> 255 <> 0 ->
     255 < Z.of_nat (length gfLog) /\ 255 < Z.of_nat (length gfLog) /\
     0 <= rd gfLog 255 + rd gfLog 255 <= 508 /\
     rd gfLog 255 + rd gfLog 255 < Z.of_nat (length gfExp)) /\
  (255 <> 0 ->
     (exists c, gfDiv 255 255 = Some c /\ 0 <= c <= 255) /\
     0 <= Z.rem (rd gfLog 255 - rd gfLog 255 + 255) 255 < Z.of_nat (length gfExp)).
Proof. apply (gf_closure 255 255); lia. Defined.

End GFFacts.

Module HammingFacts.
Import Hamming.

Lemma bits_cons n b w : bits (S n) (b :: w) <-> bit b /\ bits n w.
Proof.
  unfold bits. simpl. rewrite Forall_cons. intuition lia.
Qed.

(** All words of [n] bits. *)
Fixpoint all_words (n : nat) : list (list Z) :=
  match n with
  | O => [[]]
  | S n' => flat_map (fun w => [0 :: w; 1 :: w]) (all_words n')
  end.

Lemma all_words_spec n w : bits n w -> In w (all_words n).
Proof.
  revert w. induction n as [|n IH]; intros w Hw.
  - destruct Hw as [Hl _]. destruct w; [now left|discriminate].
  - destruct w as [|b w]; [destruct Hw; discriminate|].
    apply bits_cons in Hw. destruct Hw as [Hb Hw].
    simpl. apply in_flat_map. exists w. split; [now apply IH|].
    destruct Hb; subst b; simpl; auto.
Qed.

(** A property decided on all words of [n] bits holds of each of them. *)
Lemma word_cases n (P : list Z -> bool) :
  forallb P (all_words n) = true -> forall w, bits n w -> P w = true.
Proof.
  intros HP w Hw. rewrite forallb_forall in HP. apply HP, all_words_spec, Hw.
Qed.

(** Discharges [bits n w] on a literal word. *)
Ltac literal_bits :=
  split; [reflexivity|];
  repeat (apply List.Forall_cons; [unfold bit; lia|]); apply List.Forall_nil.

Definition wordLength (ext : bool) : Z := if ext then 8 else 7.

Lemma encoded_length d ext : Z.of_nat (length (encoded d ext)) = wordLength ext.
Proof. now destruct ext. Qed.

(** C8 as stated fails: the encoder yields [0,1,1,0,0,1,1] for data
    [1,0,1,1], not [1,1,1,0,0,1,1]. *)
Lemma hamming_scenario_codeword_differs :
  encoded [1; 0; 1; 1] false <> [1; 1; 1; 0; 0; 1; 1].
Proof. vm_compute. discriminate. Qed.

(** C8 (amended). Hamming(7,4) on data [1,0,1,1] encodes to
    [0,1,1,0,0,1,1]; flipping position 5 (1-indexed, array index 4) and
    decoding reports errorAt = 4 and restores the codeword. *)
Theorem hamming_scenario :
  encoded [1; 0; 1; 1] false = [0; 1; 1; 0; 0; 1; 1] /\
  let c := corrected (received (encoded [1; 0; 1; 1] false) (Some 4)) false in
  errorAt c = 4 /\ word c = encoded [1; 0; 1; 1] false.
Proof. vm_compute. auto. Qed.

(** C2 as stated fails: in the extended configuration a flip of the
    overall parity bit (position 0) is not corrected. *)
Lemma hamming_extended_parity_flip_kept :
  word (corrected (received (encoded [0; 0; 0; 0] true) (Some 0)) true)
  <> encoded [0; 0; 0; 0] true.
Proof. vm_compute. discriminate. Qed.

(** What the decoder does with a flip at index [p] of the codeword of [d]. *)
Definition flip_outcome (d : list Z) (ext : bool) (p : Z) : Prop :=
  let r := received (encoded d ext) (Some p) in
  if ext && (p =? 0)
  then corrected r ext = {| word := r; errorAt := -1; message := NoErrorsDetected |}
  else word (corrected r ext) = encoded d ext /\ errorAt (corrected r ext) = p.

Definition message_eqb (m1 m2 : Message) : bool :=
  match m1, m2 with
  | NoErrorsDetected, NoErrorsDetected => true
  | ErrorFixedAt a, ErrorFixedAt b => a =? b
  | SyndromeOutsideWord, SyndromeOutsideWord => true
  | _, _ => false
  end.

Definition word_eqb (u v : list Z) : bool := bool_decide (u = v).

Definition flip_outcome_b (ext : bool) (d : list Z) (p : Z) : bool :=
  let r := received (encoded d ext) (Some p) in
  let c := corrected r ext in
  if ext && (p =? 0)
  then word_eqb (word c) r && (errorAt c =? -1) && message_eqb (message c) NoErrorsDetected
  else word_eqb (word c) (encoded d ext) && (errorAt c =? p).

Lemma flip_outcome_b_sound d ext p :
  flip_outcome_b ext d p = true -> flip_outcome d ext p.
Proof.
  unfold flip_outcome_b, flip_outcome, word_eqb.
  destruct (ext && (p =? 0)).
  - rewrite !andb_true_iff, bool_decide_eq_true, Z.eqb_eq.
    intros [[Hw He] Hm]. destruct (corrected _ _) as [w e m]; simpl in *.
    subst. destruct m; try discriminate. reflexivity.
  - rewrite andb_true_iff, bool_decide_eq_true, Z.eqb_eq. auto.
Qed.

Definition positions (ext : bool) : list Z :=
  map Z.of_nat (seq 0 (Z.to_nat (wordLength ext))).

Lemma positions_spec ext p : 0 <= p < wordLength ext -> In p (positions ext).
Proof.
  intros Hp. unfold positions. apply in_map_iff.
  exists (Z.to_nat p). split; [lia|]. apply in_seq. lia.
Qed.

Lemma flip_outcome_table ext :
  forallb (fun d => forallb (flip_outcome_b ext d) (positions ext)) (all_words 4) = true.
Proof. destruct ext; vm_compute; reflexivity. Qed.

(** C2 (amended). For every 4-bit data word, a single flip at any of the 7
    positions of the (7,4) codeword, or at any of positions 1..7 of the
    extended (8,4) codeword, is corrected back to the original codeword; a
    flip of the overall parity bit at position 0 of the extended codeword
    is reported as no error and the received word is returned as it is. *)
Theorem hamming_single_error_corrected (d : list Z) (ext : bool) (p : Z) :
  bits 4 d ->
  0 <= p < wordLength ext ->
  let r := received (encoded d ext) (Some p) in
  if ext && (p =? 0)
  then corrected r ext = {| word := r; errorAt := -1; message := NoErrorsDetected |}
  else word (corrected r ext) = encoded d ext /\ errorAt (corrected r ext) = p.
Proof.
  intros Hd Hp. apply flip_outcome_b_sound.
  assert (H := word_cases 4 _ (flip_outcome_table ext) d Hd). simpl in H.
  rewrite forallb_forall in H. apply H, positions_spec, Hp.
Qed.

Lemma hamming_single_error_corrected_witness :
  let r := received (encoded [1; 0; 0; 1] true) (Some 6) in
  word (corrected r true) = encoded [1; 0; 0; 1] true /\ errorAt (corrected r true) = 6.
Proof.
  apply (hamming_single_error_corrected [1; 0; 0; 1] true 6).
  - literal_bits.
  - unfold wordLength. lia.
Defined.

Definition syndrome_in_range_b (ext : bool) (r : list Z) : bool :=
  let v := value (syndrome r ext) in
  let c := corrected r ext in
  (0 <=? v) && (v <=? 7) &&
  ((v =? 0) || ((0 <=? errorAt c) && (errorAt c <? Z.of_nat (length r)))) &&
  negb (message_eqb (message c) SyndromeOutsideWord).

Lemma syndrome_in_range_table ext :
  forallb (syndrome_in_range_b ext) (all_words (Z.to_nat (wordLength ext))) = true.
Proof. destruct ext; vm_compute; reflexivity. Qed.

(** C10. For every received word of 7 bits (non-extended) or 8 bits
    (extended) the syndrome value lies in [0,7], a non-zero value maps to a
    flip index inside the word, and decode never returns the
    out-of-range-syndrome diagnostic. *)
Theorem hamming_syndrome_in_range (r : list Z) (ext : bool) :
  bits (Z.to_nat (wordLength ext)) r ->
  0 <= value (syndrome r ext) <= 7 /\
  (value (syndrome r ext) <> 0 ->
     0 <= errorAt (corrected r ext) < Z.of_nat (length r)) /\
  message (corrected r ext) <> SyndromeOutsideWord.
Proof.
  intros Hr.
  assert (H := word_cases _ _ (syndrome_in_range_table ext) r Hr).
  unfold syndrome_in_range_b in H.
  rewrite !andb_true_iff, orb_true_iff, andb_true_iff in H.
  destruct H as [[[H0 H7] He] Hm].
  split; [lia|]. split.
  - intros Hv. destruct He as [He|He]; lia.
  - intros Heq. rewrite Heq in Hm. discriminate.
Qed.

Lemma hamming_syndrome_in_range_witness :
  0 <= value (syndrome [1; 1; 0; 1; 0; 0; 1; 0] true) <= 7 /\
  (value (syndrome [1; 1; 0; 1; 0; 0; 1; 0] true) <> 0 ->
     0 <= errorAt (corrected [1; 1; 0; 1; 0; 0; 1; 0] true) < 8) /\
  message (corrected [1; 1; 0; 1; 0; 0; 1; 0] true) <> SyndromeOutsideWord.
Proof.
  apply (hamming_syndrome_in_range [1; 1; 0; 1; 0; 0; 1; 0] true).
  literal_bits.
Defined.

End HammingFacts.

Module ExactFacts.
Import Exact.

Lemma Qltb_false a b : Qltb a b = false <-> (b <= a)%Q.
Proof. unfold Qltb. rewrite negb_false_iff. apply Qle_bool_iff. Qed.

Lemma Qltb_true a b : Qltb a b = true <-> (a < b)%Q.
Proof.
  unfold Qltb. rewrite negb_true_iff. rewrite <- not_true_iff_false, Qle_bool_iff.
  split; [apply Qnot_le_lt|apply Qlt_not_le].
Qed.

Lemma notneg_Fin q : notneg (Fin q) <-> (0 <= q)%Q.
Proof. apply Qltb_false. Qed.

Lemma notneg_cases x : notneg x -> x = NaN \/ x = PInf \/ exists q, x = Fin q /\ (0 <= q)%Q.
Proof.
  destruct x as [q| | |]; intros Hx; auto.
  - right. right. exists q. split; [reflexivity|]. now apply notneg_Fin.
  - discriminate.
Qed.

#[global] Instance exact_laws : NumberLaws num.
Proof.
  split.
  - reflexivity.
  - reflexivity.
  - reflexivity.
  - intros [q| | |]; try reflexivity. apply notneg_Fin, Qabs_nonneg.
  - intros a b Ha Hb.
    destruct (notneg_cases a Ha) as [->|[->|(qa & -> & Hqa)]];
    destruct (notneg_cases b Hb) as [->|[->|(qb & -> & Hqb)]]; try reflexivity.
    apply notneg_Fin. lra.
  - intros a b Ha Hb.
    destruct (notneg_cases a Ha) as [->|[->|(qa & -> & Hqa)]];
    destruct (notneg_cases b Hb) as [->|[->|(qb & -> & Hqb)]]; try reflexivity.
    + cbn. unfold mul. cbn. destruct (Qltb qb 0) eqn:E1.
      * apply Qltb_true in E1. lra.
      * destruct (Qltb 0 qb); reflexivity.
    + cbn. unfold mul. cbn. destruct (Qltb qa 0) eqn:E1.
      * apply Qltb_true in E1. lra.
      * destruct (Qltb 0 qa); reflexivity.
    + apply notneg_Fin. now apply Qmult_le_0_compat.
  - intros a b Ha Hb.
    destruct (notneg_cases a Ha) as [->|[->|(qa & -> & Hqa)]];
    destruct (notneg_cases b Hb) as [->|[->|(qb & -> & Hqb)]]; try reflexivity.
    + now apply notneg_Fin.
    + now apply notneg_Fin.
    + unfold notneg. cbn. destruct (Qltb qb qa); now apply Qltb_false.
  - reflexivity.
Qed.

End ExactFacts.

Module LDPCFacts.
Import LDPC.

Section Trace.
Context {F : Type} `{Number F}.
Variable damping : F.
Variable h : list (list Z).
Variable channelLlr : list F.

(** [chained iter v2c its]: the records [its] are consecutive loop bodies
    started at counter [iter] with messages [v2c]. *)
Fixpoint chained (iter : Z) (v2c : list (list F)) (its : list (BPIteration F)) : Prop :=
  match its with
  | [] => True
  | it :: rest =>
      it = bpStep damping h channelLlr v2c iter /\
      chained (iter + 1) (varToCheck it) rest
  end.

(** Every record but the last has a failing syndrome check. *)
Fixpoint stops_at_first_ok (its : list (BPIteration F)) : Prop :=
  match its with
  | [] => True
  | [it] => True
  | it :: rest => syndromeOk it = false /\ stops_at_first_ok rest
  end.

Lemma bpLoop_acc left iter v2c acc :
  bpLoop damping h channelLlr left iter v2c acc =
  acc ++ bpLoop damping h channelLlr left iter v2c [].
Proof.
  revert iter v2c acc. induction left as [|left IH]; intros iter v2c acc.
  - simpl. now rewrite app_nil_r.
  - cbn [bpLoop]. cbv zeta.
    destruct (syndromeOk (bpStep damping h channelLlr v2c iter)); [reflexivity|].
    rewrite (IH _ _ (acc ++ _)), (IH _ _ ([] ++ _)). now rewrite <- app_assoc.
Qed.

Lemma bpLoop_unfold left iter v2c :
  bpLoop damping h channelLlr (S left) iter v2c [] =
  let it := bpStep damping h channelLlr v2c iter in
  it :: (if syndromeOk it then []
         else bpLoop damping h channelLlr left (iter + 1) (varToCheck it) []).
Proof.
  cbn [bpLoop]. cbv zeta.
  destruct (syndromeOk (bpStep damping h channelLlr v2c iter)); [reflexivity|].
  now rewrite bpLoop_acc.
Qed.

Lemma bpLoop_length left iter v2c :
  (length (bpLoop damping h channelLlr left iter v2c []) <= left)%nat.
Proof.
  revert iter v2c. induction left as [|left IH]; intros iter v2c.
  - simpl. lia.
  - rewrite bpLoop_unfold. cbv zeta.
    destruct (syndromeOk (bpStep damping h channelLlr v2c iter)); cbn [length].
    + lia.
    + specialize (IH (iter + 1) (varToCheck (bpStep damping h channelLlr v2c iter))). lia.
Qed.

Lemma bpLoop_chained left iter v2c :
  chained iter v2c (bpLoop damping h channelLlr left iter v2c []).
Proof.
  revert iter v2c. induction left as [|left IH]; intros iter v2c.
  - exact I.
  - rewrite bpLoop_unfold. cbv zeta. split; [reflexivity|].
    destruct (syndromeOk (bpStep damping h channelLlr v2c iter)); [exact I|apply IH].
Qed.

Lemma bpLoop_stops left iter v2c :
  stops_at_first_ok (bpLoop damping h channelLlr left iter v2c []).
Proof.
  revert iter v2c. induction left as [|left IH]; intros iter v2c.
  - exact I.
  - rewrite bpLoop_unfold. cbv zeta.
    destruct (syndromeOk (bpStep damping h channelLlr v2c iter)) eqn:Hok; [exact I|].
    specialize (IH (iter + 1) (varToCheck (bpStep damping h channelLlr v2c iter))).
    destruct (bpLoop _ _ _ _ _ _ _); [exact I|]. split; assumption.
Qed.

(** The loop leaves before the cap only after a passing syndrome check. *)
Lemma bpLoop_last left iter v2c it :
  last (bpLoop damping h channelLlr left iter v2c []) = Some it ->
  syndromeOk it = false ->
  length (bpLoop damping h channelLlr left iter v2c []) = left.
Proof.
  revert iter v2c. induction left as [|left IH]; intros iter v2c.
  - discriminate.
  - rewrite bpLoop_unfold. cbv zeta.
    destruct (syndromeOk (bpStep damping h channelLlr v2c iter)) eqn:Hok.
    + simpl. intros [= <-]. congruence.
    + intros Hl Hf. cbn [length]. f_equal.
      destruct (bpLoop damping h channelLlr left (iter + 1)
                  (varToCheck (bpStep damping h channelLlr v2c iter)) [])
        as [|it' rest'] eqn:Hrest.
      * destruct left; [reflexivity|]. rewrite bpLoop_unfold in Hrest. discriminate.
      * rewrite last_cons_cons in Hl. rewrite <- Hrest in Hl |- *.
        apply (IH _ _ Hl Hf).
Qed.

Lemma bpLoop_nonempty left iter v2c :
  (1 <= left)%nat -> bpLoop damping h channelLlr left iter v2c [] <> [].
Proof.
  destruct left; [lia|]. intros _. rewrite bpLoop_unfold. discriminate.
Qed.

Lemma stops_at_first_ok_lookup its k it :
  stops_at_first_ok its -> its !! k = Some it -> (S k < length its)%nat ->
  syndromeOk it = false.
Proof.
  revert k. induction its as [|a [|b its] IH]; intros k Hs Hk Hlen.
  - discriminate.
  - simpl in Hlen. lia.
  - destruct Hs as [Ha Hs]. destruct k as [|k].
    + now injection Hk as <-.
    + apply (IH k Hs Hk). simpl in *. lia.
Qed.

End Trace.

(** ** What a satisfied check row is

    Stated on the matrix and the word alone, without the decoder's loop. *)

(** The variable nodes connected to a check row (entry 1) whose bit in
    the word is 1. *)
Definition connectedOnes (row dec : list Z) : list nat :=
  List.filter
    (fun j => bool_decide (row !! j = Some 1) && bool_decide (dec !! j = Some 1))
    (seq 0 (length dec)).

(** A word satisfies a check row when an even number of the variables
    connected to the row are 1, that is, when their XOR is zero. *)
Definition checkSatisfied (row dec : list Z) : Prop :=
  Nat.Even (length (connectedOnes row dec)).

Lemma lxor_bit_parity s d : bit s -> bit d -> Z.lxor s d = (s + d) mod 2.
Proof. intros [-> | ->] [-> | ->]; reflexivity. Qed.

Lemma even_count_mod (c : nat) : Z.of_nat c mod 2 = 0 <-> Nat.Even c.
Proof.
  split.
  - intros Hc. exists (c / 2)%nat. zify. Z.to_euclidean_division_equations. lia.
  - intros [m ->]. zify. Z.to_euclidean_division_equations. lia.
Qed.

(** The XOR loop over a check row computes the parity of the connected
    ones. *)
Lemma rowSyndrome_parity (h : list (list Z)) (dec : list Z) (i : nat) (row : list Z) :
  h !! i = Some row -> Forall bit dec -> length dec = numVarNodes h ->
  rowSyndrome h dec i = Z.of_nat (length (connectedOnes row dec)) mod 2.
Proof.
  intros Hrow Hbits Hlen. unfold rowSyndrome, connectedOnes. rewrite Hlen.
  assert (Hgen : forall l s, bit s ->
            fold_left
              (fun s j => if h_is h i j 1 then Z.lxor s (rd dec (Z.of_nat j)) else s) l s
            = (s + Z.of_nat (length (List.filter
                   (fun j => bool_decide (row !! j = Some 1)
                             && bool_decide (dec !! j = Some 1)) l))) mod 2).
  { induction l as [|j l IH]; intros s Hs.
    - cbn. destruct Hs as [-> | ->]; reflexivity.
    - cbn [fold_left List.filter].
      assert (Hd : rd dec (Z.of_nat j) = nth j dec 0).
      { unfold rd. destruct (Z.ltb_spec (Z.of_nat j) 0); [lia|]. now rewrite Nat2Z.id. }
      assert (Hdb : bit (nth j dec 0)).
      { destruct (Nat.lt_ge_cases j (length dec)) as [Hj|Hj].
        - rewrite Forall_forall in Hbits. apply Hbits, list_elem_of_In, nth_In, Hj.
        - rewrite nth_overflow by exact Hj. now left. }
      assert (Hh : h_is h i j 1 = bool_decide (row !! j = Some 1)).
      { unfold h_is. rewrite Hrow. destruct (row !! j) as [x|].
        - destruct (Z.eqb_spec x 1) as [->|Hne].
          + now rewrite bool_decide_eq_true_2.
          + rewrite bool_decide_eq_false_2; [reflexivity|]. intros [= ->]. contradiction.
        - now rewrite bool_decide_eq_false_2. }
      assert (Hn : bool_decide (dec !! j = Some 1) = (nth j dec 0 =? 1)).
      { destruct (nth_lookup_or_length dec j 0) as [Hl|Hl].
        - rewrite Hl. destruct (Z.eqb_spec (nth j dec 0) 1) as [->|Hne].
          + now rewrite bool_decide_eq_true_2.
          + rewrite bool_decide_eq_false_2; [reflexivity|]. intros [= Hx]. contradiction.
        - rewrite (lookup_ge_None_2 dec j) by lia. rewrite nth_overflow by lia.
          now rewrite bool_decide_eq_false_2. }
      rewrite Hh, Hn, Hd.
      destruct (bool_decide (row !! j = Some 1)); cbn [andb].
      + rewrite IH by (rewrite lxor_bit_parity by assumption;
                       destruct Hs as [-> | ->]; destruct Hdb as [-> | ->]; [left|right|right|left];
                       reflexivity).
        rewrite lxor_bit_parity by assumption.
        destruct Hdb as [Hz|Ho]; rewrite ?Hz, ?Ho.
        * change (0 =? 1) with false. cbv iota.
          rewrite Z.add_0_r, Z.add_mod_idemp_l by lia. reflexivity.
        * change (1 =? 1) with true. cbv iota. cbn [length].
          rewrite Z.add_mod_idemp_l by lia. f_equal. lia.
      + now apply IH. }
  rewrite (Hgen _ 0) by (now left). reflexivity.
Qed.

Lemma rowSyndrome_checkSatisfied (h : list (list Z)) (dec : list Z) (i : nat) (row : list Z) :
  h !! i = Some row -> Forall bit dec -> length dec = numVarNodes h ->
  (rowSyndrome h dec i = 0 <-> checkSatisfied row dec).
Proof.
  intros Hrow Hbits Hlen. rewrite (rowSyndrome_parity h dec i row Hrow Hbits Hlen).
  apply even_count_mod.
Qed.

(** The syndrome check of the decoder passes exactly on the words that
    satisfy every check row. *)
Lemma syndromeCheck_checkSatisfied (h : list (list Z)) (dec : list Z) :
  Forall bit dec -> length dec = numVarNodes h ->
  (syndromeCheck h dec = true <->
   forall i row, h !! i = Some row -> checkSatisfied row dec).
Proof.
  intros Hbits Hlen. unfold syndromeCheck. rewrite forallb_forall. split.
  - intros Hall i row Hrow.
    apply (rowSyndrome_checkSatisfied h dec i row Hrow Hbits Hlen).
    apply Z.eqb_eq, Hall, in_seq. apply lookup_lt_Some in Hrow. unfold numCheckNodes. lia.
  - intros Hall i Hi. apply in_seq in Hi. unfold numCheckNodes in Hi.
    destruct (lookup_lt_is_Some_2 h i ltac:(lia)) as [row Hrow].
    apply Z.eqb_eq, (rowSyndrome_checkSatisfied h dec i row Hrow Hbits Hlen), (Hall i row Hrow).
Qed.

Section Cap.
Context {F : Type} `{Number F}.
Variable damping : F.
Variable h : list (list Z).

Lemma syndromeCheck_spec dec :
  syndromeCheck h dec = true <->
  forall i, (i < numCheckNodes h)%nat -> rowSyndrome h dec i = 0.
Proof.
  unfold syndromeCheck. rewrite forallb_forall. split.
  - intros Hall i Hi. apply Z.eqb_eq, Hall, in_seq. lia.
  - intros Hall i Hi. apply Z.eqb_eq, Hall. apply in_seq in Hi. lia.
Qed.

Lemma chained_syndromeOk channelLlr iter v2c its it :
  chained damping h channelLlr iter v2c its -> In it its ->
  syndromeOk it = syndromeCheck h (decoded it).
Proof.
  revert iter v2c. induction its as [|a its IH]; intros iter v2c Hc Hin.
  - destruct Hin.
  - destruct Hc as [Ha Hc]. destruct Hin as [<-|Hin].
    + now rewrite Ha.
    + apply (IH _ _ Hc Hin).
Qed.

Lemma hardDecision_word (bel : list F) :
  length (hardDecision bel) = length bel /\ Forall bit (hardDecision bel).
Proof.
  unfold hardDecision. split; [apply length_map|].
  apply Forall_forall. intros b Hb. apply list_elem_of_In, in_map_iff in Hb.
  destruct Hb as (x & <- & _). unfold bit. destruct (num_ltb x num_zero); lia.
Qed.

(** Every recorded hard decision is a word of [n] bits. *)
Lemma chained_decoded channelLlr iter v2c its it :
  chained damping h channelLlr iter v2c its -> In it its ->
  length (decoded it) = numVarNodes h /\ Forall bit (decoded it).
Proof.
  revert iter v2c. induction its as [|a its IH]; intros iter v2c Hc Hin.
  - destruct Hin.
  - destruct Hc as [Ha Hc]. destruct Hin as [<-|Hin].
    + rewrite Ha. unfold bpStep. cbn [decoded].
      destruct (hardDecision_word
                  (beliefsOf h channelLlr (checkToVarOf damping h v2c))) as [Hl Hb].
      split; [|exact Hb]. rewrite Hl. unfold beliefsOf. now rewrite length_map, length_seq.
    + apply (IH _ _ Hc Hin).
Qed.

(** C6. For every parity-check matrix, received word, channel LLR and
    iteration cap of at least 1, the decoder records between 1 and maxIter
    iterations, each the loop body applied to the previous messages; every
    hard decision is a word of n bits; an iteration's syndrome flag is set
    exactly when its hard decision satisfies every check row, that is,
    when in every row of the matrix an even number of the connected
    variables (entry 1) are 1 in the word, which is also when the
    decoder's XOR over the row is zero; every iteration but the last has
    the flag unset (the loop stops at the first one that passes); the loop
    ends before the cap only on a pass; and the final result is that of
    the last iteration: its hard decision, with converged equal to its
    flag (false when the cap is reached without a zero syndrome), so that
    converged is true exactly when the decoded word satisfies every check
    row. *)
Theorem ldpc_iteration_cap (r : list Z) (llr0 : F) (maxIterations : nat) :
  (1 <= maxIterations)%nat ->
  let its := bpIterations damping h r llr0 maxIterations in
  let res := finalResult damping h r llr0 maxIterations in
  (1 <= length its <= maxIterations)%nat /\
  chained damping h (channelLLR r llr0) 0 (initVarToCheck h (channelLLR r llr0)) its /\
  (forall it, In it its ->
     (syndromeOk it = true <->
      forall i, (i < numCheckNodes h)%nat -> rowSyndrome h (decoded it) i = 0)) /\
  (forall it, In it its ->
     length (decoded it) = numVarNodes h /\ Forall bit (decoded it) /\
     (syndromeOk it = true <->
      forall i row, h !! i = Some row -> checkSatisfied row (decoded it))) /\
  (forall k it, its !! k = Some it -> (S k < length its)%nat -> syndromeOk it = false) /\
  exists lastIt,
    last its = Some lastIt /\
    (syndromeOk lastIt = false -> length its = maxIterations) /\
    fr_decoded res = decoded lastIt /\
    converged res = syndromeOk lastIt /\
    iterations res = Z.of_nat (length its) /\
    (converged res = true <->
     forall i row, h !! i = Some row -> checkSatisfied row (fr_decoded res)).
Proof.
  intros Hmax its res. subst res. unfold finalResult. fold its.
  unfold bpIterations in its.
  pose proof (bpLoop_length damping h (channelLLR r llr0) maxIterations 0
                (initVarToCheck h (channelLLR r llr0))) as Hlen.
  pose proof (bpLoop_chained damping h (channelLLR r llr0) maxIterations 0
                (initVarToCheck h (channelLLR r llr0))) as Hch.
  pose proof (bpLoop_stops damping h (channelLLR r llr0) maxIterations 0
                (initVarToCheck h (channelLLR r llr0))) as Hst.
  pose proof (bpLoop_nonempty damping h (channelLLR r llr0) maxIterations 0
                (initVarToCheck h (channelLLR r llr0)) Hmax) as Hne.
  pose proof (bpLoop_last damping h (channelLLR r llr0) maxIterations 0
                (initVarToCheck h (channelLLR r llr0))) as Hlast.
  fold its in Hlen, Hch, Hst, Hne, Hlast.
  assert (Hflag : forall it, In it its ->
            length (decoded it) = numVarNodes h /\ Forall bit (decoded it) /\
            (syndromeOk it = true <->
             forall i row, h !! i = Some row -> checkSatisfied row (decoded it))).
  { intros it Hin. destruct (chained_decoded _ _ _ _ _ Hch Hin) as [Hl Hb].
    split; [exact Hl|]. split; [exact Hb|].
    rewrite (chained_syndromeOk _ _ _ _ _ Hch Hin).
    now apply syndromeCheck_checkSatisfied. }
  split; [|split; [exact Hch|split; [|split; [exact Hflag|split]]]].
  - destruct its; [congruence|]. simpl in *. lia.
  - intros it Hin. rewrite (chained_syndromeOk _ _ _ _ _ Hch Hin).
    apply syndromeCheck_spec.
  - intros k it. apply stops_at_first_ok_lookup, Hst.
  - destruct (last its) as [lastIt|] eqn:Hl.
    + exists lastIt. split; [reflexivity|].
      split; [intros Hf; now apply (Hlast lastIt)|].
      cbn [fr_decoded converged iterations].
      split; [reflexivity|]. split; [reflexivity|]. split; [reflexivity|].
      apply Hflag. apply list_elem_of_In. now apply last_Some_elem_of.
    + apply last_None in Hl. congruence.
Qed.

End Cap.

Section FixedPoint.
Context {F : Type} `{NumberLaws F}.
Variable damping : F.
Variable h : list (list Z).
Variable llr0 : F.
Hypothesis damping_notneg : notneg damping.
Hypothesis llr0_geb : num_geb llr0 num_zero = true.
Hypothesis llr0_notneg : notneg llr0.

Let n := numVarNodes h.
Let m := numCheckNodes h.
Let llr := channelLLR (replicate n 0) llr0.

Lemma h_is_exclusive i j : h_is h i j 1 = true -> h_is h i j 0 = false.
Proof.
  unfold h_is. destruct (h !! i) as [row|]; [|discriminate].
  destruct (row !! j) as [x|]; [|discriminate]. lia.
Qed.

Lemma llr_read j : (j < n)%nat -> rdF llr j = llr0.
Proof.
  intros Hj. unfold rdF, llr, channelLLR.
  rewrite (nth_map_lt _ _ _ _ 0) by (rewrite length_replicate; lia).
  rewrite nth_replicate by lia. reflexivity.
Qed.

Lemma init_read i j :
  (i < m)%nat -> (j < n)%nat ->
  rdF2 (initVarToCheck h llr) i j = if h_is h i j 1 then llr0 else num_zero.
Proof.
  intros Hi Hj. unfold rdF2, rdF, initVarToCheck.
  rewrite (nth_map_seq _ _ _ _ Hi), (nth_map_seq _ _ _ _ Hj).
  fold (rdF llr j). now rewrite llr_read.
Qed.

Lemma init_geb i j :
  (i < m)%nat -> (j < n)%nat ->
  num_geb (rdF2 (initVarToCheck h llr) i j) num_zero = true.
Proof.
  intros Hi Hj. rewrite init_read by assumption.
  destruct (h_is h i j 1); [exact llr0_geb|apply geb_zero].
Qed.

(** With every incoming message at least zero the sign stays [1] and the
    minimum magnitude is not negative. *)
Lemma signMin_first i j :
  (i < m)%nat ->
  exists minAbs,
    signMin h (initVarToCheck h llr) i j = (num_one, minAbs) /\ notneg minAbs.
Proof.
  intros Hi. unfold signMin. fold n.
  assert (Hgen : forall (js : list nat) minAbs0,
    Forall (fun jj => (jj < n)%nat) js -> notneg minAbs0 ->
    exists minAbs,
      fold_left
        (fun '(sign, minAbs) jj =>
           if (jj =? j)%nat || h_is h i jj 0 then (sign, minAbs)
           else
             let msg := rdF2 (initVarToCheck h llr) i jj in
             (num_mul sign (if num_geb msg num_zero then num_one else num_neg_one),
              num_min minAbs (num_abs msg)))
        js (num_one, minAbs0) = (num_one, minAbs) /\ notneg minAbs).
  { induction js as [|jj js IH]; intros minAbs0 Hjs Hm0.
    - exists minAbs0. now split.
    - apply Forall_cons in Hjs. destruct Hjs as [Hjj Hjs]. cbn [fold_left].
      destruct ((jj =? j)%nat || h_is h i jj 0).
      + now apply IH.
      + cbv zeta. rewrite init_geb, mul_one_one by assumption.
        apply IH; [assumption|]. apply notneg_min; [assumption|apply notneg_abs]. }
  apply Hgen; [|apply notneg_inf].
  apply Forall_forall. intros jj Hjj. apply list_elem_of_In, in_seq in Hjj. lia.
Qed.

Lemma checkToVar_first i j :
  (i < m)%nat -> (j < n)%nat -> h_is h i j 1 = true ->
  notneg (rdF2 (checkToVarOf damping h (initVarToCheck h llr)) i j).
Proof.
  intros Hi Hj Hedge. unfold rdF2, rdF, checkToVarOf.
  rewrite (nth_map_seq _ _ _ _ Hi), (nth_map_seq _ _ _ _ Hj).
  rewrite (h_is_exclusive _ _ Hedge).
  destruct (signMin_first i j Hi) as (minAbs & -> & Hmin).
  apply notneg_mul; [|exact damping_notneg].
  apply notneg_mul; [apply notneg_one|exact Hmin].
Qed.

Lemma beliefs_first j :
  (j < n)%nat ->
  notneg (rdF (beliefsOf h llr (checkToVarOf damping h (initVarToCheck h llr))) j).
Proof.
  intros Hj. unfold rdF at 1, beliefsOf. rewrite (nth_map_seq _ _ _ _ Hj).
  rewrite llr_read by assumption. fold m.
  assert (Hgen : forall (rows : list nat) total,
    Forall (fun i => (i < m)%nat) rows -> notneg total ->
    notneg (fold_left
      (fun totalLlr i =>
         if h_is h i j 1
         then num_add totalLlr (rdF2 (checkToVarOf damping h (initVarToCheck h llr)) i j)
         else totalLlr) rows total)).
  { induction rows as [|i rows IH]; intros total His Ht; [exact Ht|].
    apply Forall_cons in His. destruct His as [Hi His]. cbn [fold_left].
    apply IH; [assumption|].
    destruct (h_is h i j 1) eqn:Hedge; [|exact Ht].
    apply notneg_add; [exact Ht|now apply checkToVar_first]. }
  apply Hgen; [|exact llr0_notneg].
  apply Forall_forall. intros i Hi. apply list_elem_of_In, in_seq in Hi. lia.
Qed.

Lemma hardDecision_notneg (bel : list F) :
  (forall j, (j < length bel)%nat -> notneg (rdF bel j)) ->
  hardDecision bel = replicate (length bel) 0.
Proof.
  induction bel as [|b bel IH]; intros Hall; [reflexivity|].
  cbn [hardDecision map length replicate]. f_equal.
  - now rewrite (Hall 0%nat ltac:(simpl; lia)).
  - apply IH. intros j Hj. apply (Hall (S j)). simpl. lia.
Qed.

Lemma decoded_first :
  hardDecision (beliefsOf h llr (checkToVarOf damping h (initVarToCheck h llr)))
  = replicate n 0.
Proof.
  assert (Hlen : length (beliefsOf h llr (checkToVarOf damping h (initVarToCheck h llr))) = n)
    by (unfold beliefsOf; now rewrite length_map, length_seq).
  rewrite hardDecision_notneg; rewrite Hlen; [reflexivity|].
  apply beliefs_first.
Qed.

Lemma rowSyndrome_zeros i : rowSyndrome h (replicate n 0) i = 0.
Proof.
  unfold rowSyndrome. fold n.
  assert (Hgen : forall js : list nat,
    fold_left (fun s j => if h_is h i j 1
                          then Z.lxor s (rd (replicate n 0) (Z.of_nat j)) else s) js 0 = 0).
  { induction js as [|j js IH]; [reflexivity|]. cbn [fold_left].
    assert (Hz : rd (replicate n 0) (Z.of_nat j) = 0).
    { unfold rd. destruct (Z.of_nat j <? 0); [reflexivity|].
      destruct (Nat.lt_ge_cases (Z.to_nat (Z.of_nat j)) n).
      - now rewrite nth_replicate.
      - apply nth_overflow. now rewrite length_replicate. }
    rewrite Hz. destruct (h_is h i j 1); exact IH. }
  apply Hgen.
Qed.

Lemma bpStep_first :
  let it := bpStep damping h llr (initVarToCheck h llr) 0 in
  decoded it = replicate n 0 /\ syndromeOk it = true.
Proof.
  cbv zeta. unfold bpStep. cbn [decoded syndromeOk]. rewrite decoded_first.
  split; [reflexivity|].
  apply syndromeCheck_spec. intros i _. apply rowSyndrome_zeros.
Qed.

End FixedPoint.

(** C7. For every parity-check matrix, damping factor and channel LLR that
    are not negative (the LLR of a flip probability 0 < p < 0.5 is positive)
    and every iteration cap of at least 1, decoding the all-zero received
    word returns the all-zero hard decision with converged = true after
    exactly one iteration. *)
Theorem ldpc_all_zero_fixed_point {F : Type} `{NumberLaws F}
    (damping : F) (h : list (list Z)) (llr0 : F) (maxIterations : nat) :
  notneg damping ->
  num_geb llr0 num_zero = true -> notneg llr0 ->
  (1 <= maxIterations)%nat ->
  let zeros := replicate (numVarNodes h) 0 in
  let res := finalResult damping h zeros llr0 maxIterations in
  fr_decoded res = zeros /\ converged res = true /\ iterations res = 1 /\
  exists it, bpIterations damping h zeros llr0 maxIterations = [it] /\
             syndromeOk it = true /\ decoded it = zeros.
Proof.
  intros Hd Hg Hn Hmax zeros res.
  destruct (bpStep_first damping h llr0 Hd Hg Hn) as [Hdec Hok].
  assert (Hits : bpIterations damping h zeros llr0 maxIterations =
                 [bpStep damping h (channelLLR zeros llr0)
                    (initVarToCheck h (channelLLR zeros llr0)) 0]).
  { unfold bpIterations. destruct maxIterations as [|k]; [lia|].
    rewrite bpLoop_unfold. cbv zeta. subst zeros. now rewrite Hok. }
  subst res. unfold finalResult. rewrite Hits. cbn [last length fr_decoded converged iterations].
  repeat split; try assumption. eexists. repeat split; eassumption.
Qed.


(** Exact numbers to run the decoder on: the scaling 0.9 of the min-sum
    rule, and 17/10 as channel LLR, a positive value near
    [Math.log(0.85 / 0.15) = 1.7346...] of the page's flip probability
    0.15. *)
Definition damping_09 : Exact.num := Exact.Fin (9 # 10).
Definition llr0_015 : Exact.num := Exact.Fin (17 # 10).

Lemma ldpc_iteration_cap_witness :
  let its := bpIterations damping_09 DEFAULT_H [0; 0; 1; 0; 0; 0; 0; 0] llr0_015 50 in
  let res := finalResult damping_09 DEFAULT_H [0; 0; 1; 0; 0; 0; 0; 0] llr0_015 50 in
  (1 <= length its <= 50)%nat /\
  chained damping_09 DEFAULT_H (channelLLR [0; 0; 1; 0; 0; 0; 0; 0] llr0_015) 0
    (initVarToCheck DEFAULT_H (channelLLR [0; 0; 1; 0; 0; 0; 0; 0] llr0_015)) its /\
  (forall it, In it its ->
     (syndromeOk it = true <->
      forall i, (i < numCheckNodes DEFAULT_H)%nat ->
                rowSyndrome DEFAULT_H (decoded it) i = 0)) /\
  (forall it, In it its ->
     length (decoded it) = numVarNodes DEFAULT_H /\ Forall bit (decoded it) /\
     (syndromeOk it = true <->
      forall i row, DEFAULT_H !! i = Some row -> checkSatisfied row (decoded it))) /\
  (forall k it, its !! k = Some it -> (S k < length its)%nat -> syndromeOk it = false) /\
  exists lastIt,
    last its = Some lastIt /\
    (syndromeOk lastIt = false -> length its = 50%nat) /\
    fr_decoded res = decoded lastIt /\
    converged res = syndromeOk lastIt /\
    iterations res = Z.of_nat (length its) /\
    (converged res = true <->
     forall i row, DEFAULT_H !! i = Some row -> checkSatisfied row (fr_decoded res)).
Proof.
  apply (ldpc_iteration_cap damping_09 DEFAULT_H [0; 0; 1; 0; 0; 0; 0; 0] llr0_015 50).
  lia.
Defined.

Lemma ldpc_all_zero_fixed_point_witness :
  let zeros := replicate (numVarNodes DEFAULT_H) 0 in
  let res := finalResult damping_09 DEFAULT_H zeros llr0_015 50 in
  fr_decoded res = zeros /\ converged res = true /\ iterations res = 1 /\
  exists it, bpIterations damping_09 DEFAULT_H zeros llr0_015 50 = [it] /\
             syndromeOk it = true /\ decoded it = zeros.
Proof.
  apply (ldpc_all_zero_fixed_point damping_09 DEFAULT_H llr0_015 50).
  - reflexivity.
  - reflexivity.
  - reflexivity.
  - lia.
Defined.

End LDPCFacts.

Module PolarFacts.
Import Polar.

(** [lia] with division and remainder by constants. *)
Ltac dlia := zify; Z.to_euclidean_division_equations; lia.

(** ** The generator matrix entry by entry *)

(** [F2[a][b]] for [a, b < 2]. *)
Definition Fent (a b : nat) : Z := rdM F2 a b.

(** Entry [(i, j)] of the [m]-fold Kronecker power, peeling the lowest bit
    of the indices as [kronecker G F2] does. *)
Fixpoint ent (m : nat) (i j : nat) : Z :=
  match m with
  | O => 1
  | S m' => ent m' (i / 2) (j / 2) * Fent (i mod 2) (j mod 2)
  end.

Lemma Fent_cases a b : (a < 2)%nat -> (b < 2)%nat ->
  Fent a b = if (a =? 0)%nat && (b =? 1)%nat then 0 else 1.
Proof.
  intros Ha Hb. destruct a as [|[|a]]; destruct b as [|[|b]]; try lia; reflexivity.
Qed.

Lemma ent_bit m i j : ent m i j = 0 \/ ent m i j = 1.
Proof.
  revert i j. induction m as [|m IH]; intros i j; [now right|].
  cbn [ent]. destruct (IH (i / 2)%nat (j / 2)%nat) as [-> | ->]; [now left|].
  rewrite Fent_cases by dlia. destruct (_ && _); auto.
Qed.

(** The same entry, peeling the highest bit instead. *)
Lemma ent_top m i j (a b : bool) :
  (i < 2 ^ m)%nat -> (j < 2 ^ m)%nat ->
  ent (S m) ((if a then 2 ^ m else 0) + i) ((if b then 2 ^ m else 0) + j)
  = if negb a && b then 0 else ent m i j.
Proof.
  revert i j. induction m as [|m IH]; intros i j Hi Hj.
  - simpl in Hi, Hj. assert (i = 0%nat) by lia. assert (j = 0%nat) by lia. subst.
    destruct a, b; reflexivity.
  - rewrite Nat.pow_succ_r' in Hi, Hj.
    change (ent (S (S m)) ?x ?y) with (ent (S m) (x / 2) (y / 2) * Fent (x mod 2) (y mod 2)).
    assert (Hp : (2 ^ S m = 2 * 2 ^ m)%nat) by apply Nat.pow_succ_r'.
    set (p := (2 ^ m)%nat) in *. rewrite Hp.
    replace (((if a then 2 * p else 0) + i) / 2)%nat with ((if a then p else 0) + i / 2)%nat
      by (destruct a; dlia).
    replace (((if b then 2 * p else 0) + j) / 2)%nat with ((if b then p else 0) + j / 2)%nat
      by (destruct b; dlia).
    replace (((if a then 2 * p else 0) + i) mod 2)%nat with (i mod 2)%nat by (destruct a; dlia).
    replace (((if b then 2 * p else 0) + j) mod 2)%nat with (j mod 2)%nat by (destruct b; dlia).
    rewrite IH by dlia.
    destruct (negb a && b); reflexivity.
Qed.

Lemma ent_top_00 m i j : (i < 2 ^ m)%nat -> (j < 2 ^ m)%nat ->
  ent (S m) i j = ent m i j.
Proof. intros Hi Hj. exact (ent_top m i j false false Hi Hj). Qed.

Lemma ent_top_01 m i j : (i < 2 ^ m)%nat -> (j < 2 ^ m)%nat ->
  ent (S m) i (2 ^ m + j) = 0.
Proof. intros Hi Hj. exact (ent_top m i j false true Hi Hj). Qed.

Lemma ent_top_10 m i j : (i < 2 ^ m)%nat -> (j < 2 ^ m)%nat ->
  ent (S m) (2 ^ m + i) j = ent m i j.
Proof. intros Hi Hj. exact (ent_top m i j true false Hi Hj). Qed.

Lemma ent_top_11 m i j : (i < 2 ^ m)%nat -> (j < 2 ^ m)%nat ->
  ent (S m) (2 ^ m + i) (2 ^ m + j) = ent m i j.
Proof. intros Hi Hj. exact (ent_top m i j true true Hi Hj). Qed.

(** ** Entries of [generateG] *)

Definition Ge (k : nat) : list (list Z) := Nat.iter k (fun G => kronecker G F2) F2.

Lemma rdM_map_seq (fn : nat -> nat -> Z) r c i j :
  (i < r)%nat -> (j < c)%nat ->
  rdM (map (fun i => map (fun j => fn i j) (seq 0 c)) (seq 0 r)) i j = fn i j.
Proof.
  intros Hi Hj. unfold rdM.
  rewrite (nth_map_seq (fun i => map (fun j => fn i j) (seq 0 c))) by assumption.
  now rewrite (nth_map_seq (fn i)).
Qed.

Lemma Ge_dims k :
  length (Ge k) = (2 ^ S k)%nat /\ length (nth 0 (Ge k) []) = (2 ^ S k)%nat.
Proof.
  induction k as [|k [IHr IHc]]; [split; reflexivity|].
  change (Ge (S k)) with (kronecker (Ge k) F2). unfold kronecker.
  rewrite IHr, IHc. change (length F2) with 2%nat. change (length (nth 0 F2 [])) with 2%nat.
  assert (Hp : (2 ^ S (S k) = 2 ^ S k * 2)%nat) by (rewrite (Nat.pow_succ_r' 2 (S k)); lia).
  split.
  - now rewrite length_map, length_seq.
  - assert (Hpos : (0 < 2 ^ S k * 2)%nat) by (pose proof (Nat.pow_nonzero 2 (S k)); lia).
    rewrite (nth_map_seq _ _ 0%nat _ Hpos). now rewrite length_map, length_seq.
Qed.

Lemma Ge_ent k i j :
  (i < 2 ^ S k)%nat -> (j < 2 ^ S k)%nat -> rdM (Ge k) i j = ent (S k) i j.
Proof.
  revert i j. induction k as [|k IH]; intros i j Hi Hj.
  - cbn [ent]. change (Ge 0) with F2. simpl in Hi, Hj.
    rewrite !Nat.mod_small by lia. unfold Fent.
    destruct i as [|[|i]]; destruct j as [|[|j]]; try lia; reflexivity.
  - change (Ge (S k)) with (kronecker (Ge k) F2). unfold kronecker.
    destruct (Ge_dims k) as [Hr Hc]. rewrite Hr, Hc.
    change (length F2) with 2%nat. change (length (nth 0 F2 [])) with 2%nat.
    rewrite (Nat.pow_succ_r' 2 (S k)) in Hi, Hj.
    rewrite rdM_map_seq by lia.
    rewrite IH by dlia. reflexivity.
Qed.

Lemma generateG_ent n i j :
  (i < 2 ^ n)%nat -> (j < 2 ^ n)%nat -> rdM (generateG n) i j = ent n i j.
Proof.
  intros Hi Hj. unfold generateG. fold (Ge (n - 1)).
  assert (Hbig : (i < 2 ^ S (n - 1))%nat /\ (j < 2 ^ S (n - 1))%nat).
  { destruct n as [|n]; [simpl in *; lia|].
    replace (S n - 1)%nat with n by lia. now split. }
  destruct Hbig as [Hi' Hj']. destruct (Ge_dims (n - 1)) as [Hr Hc].
  unfold rdM.
  rewrite (nth_map_lt _ _ _ _ []) by lia.
  assert (Hrow : length (nth i (Ge (n - 1)) []) = (2 ^ S (n - 1))%nat).
  { clear Hj Hj' Hi. revert i Hi'. generalize (n - 1)%nat as k. clear.
    induction k as [|k IH]; intros i Hi.
    - simpl in Hi. destruct i as [|[|i]]; try lia; reflexivity.
    - change (Ge (S k)) with (kronecker (Ge k) F2). unfold kronecker.
      destruct (Ge_dims k) as [Hr Hc]. rewrite Hr, Hc.
      change (length F2) with 2%nat. change (length (nth 0 F2 [])) with 2%nat.
      rewrite (Nat.pow_succ_r' 2 (S k)) in Hi.
      assert (Hi2 : (i < 2 ^ S k * 2)%nat) by lia.
      rewrite (nth_map_seq _ _ i _ Hi2). rewrite length_map, length_seq.
      rewrite (Nat.pow_succ_r' 2 (S k)). lia. }
  rewrite (nth_map_lt _ _ _ _ 0) by lia.
  fold (rdM (Ge (n - 1)) i j). rewrite Ge_ent by assumption.
  destruct n as [|n].
  - simpl in Hi, Hj. assert (i = 0%nat) by lia. assert (j = 0%nat) by lia. subst. reflexivity.
  - replace (S n - 1)%nat with n by lia.
    destruct (ent_bit (S n) i j) as [-> | ->]; reflexivity.
Qed.

(** ** Column sums *)

Definition sumTo (t : nat -> Z) (k : nat) : Z :=
  fold_left (fun s i => s + t i) (seq 0 k) 0.

Lemma sumTo_S t k : sumTo t (S k) = sumTo t k + t k.
Proof. unfold sumTo. now rewrite seq_S, fold_left_app. Qed.

Lemma sumTo_ext t t' k :
  (forall i, (i < k)%nat -> t i = t' i) -> sumTo t k = sumTo t' k.
Proof.
  induction k as [|k IH]; intros Ht; [reflexivity|].
  rewrite !sumTo_S, IH, Ht by (intros; try apply Ht; lia). reflexivity.
Qed.

Lemma sumTo_add t a b :
  sumTo t (a + b) = sumTo t a + sumTo (fun i => t (a + i)%nat) b.
Proof.
  induction b as [|b IH].
  - rewrite Nat.add_0_r. unfold sumTo at 3. simpl. lia.
  - rewrite Nat.add_succ_r, !sumTo_S, IH. lia.
Qed.

Lemma sumTo_zero t k : (forall i, (i < k)%nat -> t i = 0) -> sumTo t k = 0.
Proof.
  induction k as [|k IH]; intros Ht; [reflexivity|].
  rewrite sumTo_S, IH, Ht by (intros; try apply Ht; lia). reflexivity.
Qed.

Lemma sumTo_nonneg t k : (forall i, (i < k)%nat -> 0 <= t i) -> 0 <= sumTo t k.
Proof.
  induction k as [|k IH]; intros Ht; [reflexivity|].
  rewrite sumTo_S. specialize (Ht k ltac:(lia)) as Hk.
  assert (0 <= sumTo t k) by (apply IH; intros; apply Ht; lia). lia.
Qed.

(** ** The butterfly form of the transform *)

Fixpoint polar (n : nat) (u : list Z) : list Z :=
  match n with
  | O => u
  | S n' =>
      let up := polar n' (take (2 ^ n') u) in
      let lo := polar n' (drop (2 ^ n') u) in
      zip_with Z.lxor up lo ++ lo
  end.

Lemma bit_nth (u : list Z) i : Forall bit u -> bit (nth i u 0).
Proof.
  intros Hu. destruct (Nat.lt_ge_cases i (length u)) as [Hi|Hi].
  - rewrite Forall_forall in Hu. apply Hu, list_elem_of_In, nth_In, Hi.
  - rewrite nth_overflow by lia. now left.
Qed.

Lemma polar_length n u : length u = (2 ^ n)%nat -> length (polar n u) = (2 ^ n)%nat.
Proof.
  revert u. induction n as [|n IH]; intros u Hu; [exact Hu|].
  rewrite Nat.pow_succ_r' in Hu. cbn [polar].
  rewrite length_app, length_zip_with, !IH; rewrite ?length_take, ?length_drop; try lia.
  rewrite Nat.pow_succ_r'. lia.
Qed.

Lemma zip_with_lxor_bits (a b : list Z) :
  Forall bit a -> Forall bit b -> Forall bit (zip_with Z.lxor a b).
Proof.
  intros Ha. revert b. induction Ha as [|x a Hx Ha IH]; intros b Hb; [constructor|].
  destruct Hb as [|y b Hy Hb]; [constructor|]. cbn [zip_with]. constructor.
  - destruct Hx, Hy; subst; [left|right|right|left]; reflexivity.
  - now apply IH.
Qed.

Lemma polar_bits n u : Forall bit u -> Forall bit (polar n u).
Proof.
  revert u. induction n as [|n IH]; intros u Hu; [exact Hu|].
  cbn [polar]. apply Forall_app. split.
  - apply zip_with_lxor_bits; apply IH; [apply Forall_take|apply Forall_drop]; exact Hu.
  - apply IH, Forall_drop, Hu.
Qed.

Lemma nth_zip_with_lxor (a b : list Z) i :
  length a = length b ->
  nth i (zip_with Z.lxor a b) 0 = Z.lxor (nth i a 0) (nth i b 0).
Proof.
  revert b i. induction a as [|x a IH]; intros [|y b] [|i] Hl; simpl in *; try lia; auto.
Qed.

Lemma lxor_bits a b : bit a -> bit b -> Z.lxor a b = (a + b) mod 2.
Proof. intros [-> | ->] [-> | ->]; reflexivity. Qed.

Lemma bit_mod a : bit a -> a mod 2 = a.
Proof. intros [-> | ->]; reflexivity. Qed.

(** Each output bit is the parity of a column of the Kronecker power. *)
Lemma polar_sum n u j :
  length u = (2 ^ n)%nat -> Forall bit u -> (j < 2 ^ n)%nat ->
  nth j (polar n u) 0 = sumTo (fun i => nth i u 0 * ent n i j) (2 ^ n) mod 2.
Proof.
  revert u j. induction n as [|n IH]; intros u j Hlen Hu Hj.
  - simpl in Hj. assert (j = 0%nat) by lia. subst j.
    cbn. rewrite Z.mul_1_r. symmetry. apply bit_mod, bit_nth, Hu.
  - rewrite Nat.pow_succ_r' in Hlen, Hj.
    set (p := (2 ^ n)%nat) in *.
    assert (Hup : length (take p u) = p) by (rewrite length_take; lia).
    assert (Hlo : length (drop p u) = p) by (rewrite length_drop; lia).
    assert (Hpl1 := polar_length n _ Hup). assert (Hpl2 := polar_length n _ Hlo).
    fold p in Hpl1, Hpl2.
    replace (2 ^ S n)%nat with (p + p)%nat by (rewrite Nat.pow_succ_r'; unfold p; lia).
    rewrite sumTo_add. cbn [polar]. fold p.
    destruct (Nat.lt_ge_cases j p) as [Hjp|Hjp].
    + rewrite app_nth1 by (rewrite length_zip_with; lia).
      rewrite nth_zip_with_lxor by lia.
      rewrite lxor_bits by (apply bit_nth, polar_bits; auto using Forall_take, Forall_drop).
      rewrite !IH by (auto using Forall_take, Forall_drop).
      fold p. rewrite <- Z.add_mod by lia. f_equal. f_equal.
      * apply sumTo_ext. intros i Hi. unfold p.
        rewrite ent_top_00 by assumption.
        f_equal. rewrite <- (firstn_skipn p u) at 2. fold p.
        rewrite app_nth1 by lia. reflexivity.
      * apply sumTo_ext. intros i Hi. unfold p.
        rewrite ent_top_10 by assumption.
        f_equal. rewrite <- (firstn_skipn (2 ^ n) u) at 2. fold p.
        rewrite app_nth2 by lia. f_equal. lia.
    + assert (Hk : exists k, j = (p + k)%nat /\ (k < p)%nat) by (exists (j - p)%nat; lia).
      destruct Hk as (k & -> & Hk).
      rewrite app_nth2 by (rewrite length_zip_with; lia).
      rewrite length_zip_with, Hpl1, Hpl2, Nat.min_id.
      replace (p + k - p)%nat with k by lia.
      rewrite (sumTo_zero (fun i => nth i u 0 * ent (S n) i (p + k)) p).
      2:{ intros i Hi. cbv beta. unfold p. rewrite ent_top_01 by (fold p; lia). lia. }
      rewrite IH by (auto using Forall_drop; lia). fold p.
      rewrite Z.add_0_l. f_equal. apply sumTo_ext. intros i Hi. cbv beta. unfold p.
      rewrite ent_top_11 by (fold p; lia).
      f_equal. rewrite <- (firstn_skipn (2 ^ n) u) at 2. fold p.
      rewrite app_nth2 by lia. f_equal. lia.
Qed.

(** [encoded] with the matrix of [generateG] is the butterfly transform. *)
Lemma encoded_polar n u :
  length u = (2 ^ n)%nat -> Forall bit u ->
  encoded (2 ^ n) (generateG n) u = polar n u.
Proof.
  intros Hlen Hu. apply (nth_ext _ _ 0 0).
  - unfold encoded. now rewrite length_map, length_seq, polar_length.
  - unfold encoded at 1. rewrite length_map, length_seq. intros j Hj.
    unfold encoded.
    rewrite (nth_map_seq _ _ _ _ Hj). cbv zeta.
    fold (sumTo (fun i => nth i u 0 * rdM (generateG n) i j) (2 ^ n)).
    rewrite polar_sum by assumption.
    rewrite (sumTo_ext _ (fun i => nth i u 0 * ent n i j)).
    2:{ intros i Hi. now rewrite generateG_ent. }
    apply Z.rem_mod_nonneg; [|lia].
    apply sumTo_nonneg. intros i Hi.
    destruct (bit_nth u i Hu) as [-> | ->]; destruct (ent_bit n i j) as [-> | ->]; lia.
Qed.

Lemma nth_take_lt (l : list Z) k i : (i < k)%nat -> nth i (take k l) 0 = nth i l 0.
Proof.
  revert k i. induction l as [|x l IH]; intros [|k] [|i] Hi; simpl; try lia; auto.
  apply IH. lia.
Qed.

Lemma nth_drop_add (l : list Z) k i : nth i (drop k l) 0 = nth (k + i) l 0.
Proof.
  revert l. induction k as [|k IH]; intros [|x l]; simpl; auto. now destruct i.
Qed.

(** ** The decoder on an uncorrupted codeword *)

(** The LLRs of a word received without errors, at magnitude [mag]. *)
Definition llrOf (mag : Z) (x : list Z) : list Z :=
  map (fun b => if b =? 0 then mag else - mag) x.

(** Evaluates the tests on literal bits in the goal. *)
Ltac eval_bit_tests :=
  repeat match goal with
  | |- context [Z.lxor ?a ?b =? 0] =>
      let v := eval vm_compute in (Z.lxor a b =? 0) in
      change (Z.lxor a b =? 0) with v
  | |- context [0 =? 0] => change (0 =? 0) with true
  | |- context [1 =? 0] => change (1 =? 0) with false
  end; cbv iota.

Lemma f_llr mag a b : 0 < mag -> bit a -> bit b ->
  f (if Z.lxor a b =? 0 then mag else - mag) (if b =? 0 then mag else - mag)
  = if a =? 0 then mag else - mag.
Proof.
  intros Hm [-> | ->] [-> | ->]; eval_bit_tests; unfold f;
    repeat match goal with |- context [?x >=? 0] => destruct (Z.geb_spec x 0) end; lia.
Qed.

Lemma g_llr mag a b : 0 < mag -> bit a -> bit b ->
  g (if Z.lxor a b =? 0 then mag else - mag) (if b =? 0 then mag else - mag) a
  = if b =? 0 then 2 * mag else - (2 * mag).
Proof. intros Hm [-> | ->] [-> | ->]; eval_bit_tests; unfold g; lia. Qed.

Lemma map_seq_eq (fn : nat -> Z) (l : list Z) k :
  length l = k -> (forall i, (i < k)%nat -> fn i = nth i l 0) -> map fn (seq 0 k) = l.
Proof.
  intros Hl Hfn. apply (nth_ext _ _ 0 0).
  - now rewrite length_map, length_seq.
  - rewrite length_map, length_seq. intros i Hi.
    rewrite (nth_map_seq _ _ _ _ Hi). now apply Hfn.
Qed.

Lemma nth_llrOf mag x i : (i < length x)%nat ->
  nth i (llrOf mag x) 0 = if nth i x 0 =? 0 then mag else - mag.
Proof. intros Hi. unfold llrOf. now rewrite (nth_map_lt _ _ _ _ 0). Qed.

Lemma pow2_succ_facts n :
  (2 ^ S n =? 1)%nat = false /\ Nat.even (2 ^ S n) = true /\ (2 ^ S n / 2 = 2 ^ n)%nat.
Proof.
  rewrite Nat.pow_succ_r'. pose proof (Nat.pow_nonzero 2 n ltac:(lia)).
  split; [apply Nat.eqb_neq; lia|]. split.
  - rewrite Nat.even_mul. reflexivity.
  - rewrite Nat.mul_comm. apply Nat.div_mul. lia.
Qed.

Lemma decode_noiseless (frozen : gset nat) n :
  forall fuel offset dec u mag,
    (n < fuel)%nat -> length u = (2 ^ n)%nat -> Forall bit u ->
    (forall i, (i < 2 ^ n)%nat -> (offset + i)%nat ∈ frozen -> nth i u 0 = 0) ->
    0 < mag -> (offset + 2 ^ n <= length dec)%nat ->
    decode fuel frozen (llrOf mag (polar n u)) offset (2 ^ n) dec
    = Some (polar n u, take offset dec ++ u ++ drop (offset + 2 ^ n) dec).
Proof.
  induction n as [|n IH]; intros fuel offset dec u mag Hfuel Hlen Hu Hfr Hmag Hdec.
  - destruct fuel as [|fuel]; [lia|]. cbn [decode polar].
    change (2 ^ 0 =? 1)%nat with true. cbv iota.
    destruct u as [|b [|? ?]]; try discriminate Hlen.
    assert (Hb : bit b) by (now apply Forall_cons in Hu).
    assert (Hbit : (if bool_decide (offset ∈ frozen) then 0
                    else if nth 0 (llrOf mag [b]) 0 <? 0 then 1 else 0) = b).
    { destruct (bool_decide (offset ∈ frozen)) eqn:Ho.
      - apply bool_decide_eq_true in Ho. symmetry.
        apply (Hfr 0%nat); [simpl; lia|now rewrite Nat.add_0_r].
      - cbn. destruct Hb as [-> | ->]; cbn; destruct (Z.ltb_spec (- mag) 0);
          destruct (Z.ltb_spec mag 0); lia. }
    rewrite Hbit. f_equal. f_equal.
    simpl in Hdec. rewrite insert_take_drop by lia.
    now replace (offset + 2 ^ 0)%nat with (S offset) by (simpl; lia).
  - destruct fuel as [|fuel]; [lia|]. cbn [decode].
    destruct (pow2_succ_facts n) as (-> & -> & ->). cbn [negb].
    rewrite Nat.pow_succ_r' in Hlen, Hdec.
    set (p := (2 ^ n)%nat) in *.
    assert (Hup : length (take p u) = p) by (rewrite length_take; lia).
    assert (Hlo : length (drop p u) = p) by (rewrite length_drop; lia).
    set (up := polar n (take p u)). set (lo := polar n (drop p u)).
    assert (Hlup : length up = p) by (apply polar_length, Hup).
    assert (Hllo : length lo = p) by (apply polar_length, Hlo).
    assert (Hbup : Forall bit up) by (apply polar_bits, Forall_take, Hu).
    assert (Hblo : Forall bit lo) by (apply polar_bits, Forall_drop, Hu).
    assert (Hx : polar (S n) u = zip_with Z.lxor up lo ++ lo) by reflexivity.
    rewrite Hx.
    assert (Hlz : length (zip_with Z.lxor up lo) = p) by (rewrite length_zip_with; lia).
    assert (Hlow : forall i, (i < p)%nat ->
              nth i (llrOf mag (zip_with Z.lxor up lo ++ lo)) 0
              = if Z.lxor (nth i up 0) (nth i lo 0) =? 0 then mag else - mag).
    { intros i Hi. rewrite nth_llrOf by (rewrite length_app; lia).
      rewrite app_nth1 by lia. now rewrite nth_zip_with_lxor by lia. }
    assert (Hhigh : forall i, (i < p)%nat ->
              nth (p + i) (llrOf mag (zip_with Z.lxor up lo ++ lo)) 0
              = if nth i lo 0 =? 0 then mag else - mag).
    { intros i Hi. rewrite nth_llrOf by (rewrite length_app; lia).
      rewrite app_nth2 by lia. now replace (p + i - length (zip_with Z.lxor up lo))%nat with i by lia. }
    rewrite (map_seq_eq _ (llrOf mag up)).
    2:{ unfold llrOf. now rewrite length_map. }
    2:{ intros i Hi. rewrite Hlow, Hhigh by assumption.
        rewrite nth_llrOf by lia. apply f_llr; auto using bit_nth. }
    unfold up at 1 2.
    rewrite (IH fuel offset dec (take p u) mag); try assumption; try lia.
    2:{ now apply Forall_take. }
    2:{ intros i Hi Hin. rewrite nth_take_lt by exact Hi.
        apply Hfr; [rewrite Nat.pow_succ_r'; fold p; lia|exact Hin]. }
    fold p. fold up.
    rewrite (map_seq_eq _ (llrOf (2 * mag) lo)).
    2:{ unfold llrOf. now rewrite length_map. }
    2:{ intros i Hi. rewrite Hlow, Hhigh by assumption.
        rewrite nth_llrOf by lia. apply g_llr; auto using bit_nth. }
    unfold lo at 1 2.
    set (dec1 := take offset dec ++ take p u ++ drop (offset + p) dec).
    assert (Hldec1 : length dec1 = length dec).
    { unfold dec1. rewrite !length_app, length_take, length_drop. lia. }
    rewrite (IH fuel (offset + p)%nat dec1 (drop p u) (2 * mag)); try assumption; try lia.
    2:{ now apply Forall_drop. }
    2:{ intros i Hi Hin. rewrite nth_drop_add.
        apply Hfr; [rewrite Nat.pow_succ_r'; fold p; lia|].
        now replace (offset + (p + i))%nat with (offset + p + i)%nat by lia. }
    fold p. fold lo. f_equal. f_equal.
    + f_equal.
      * apply map_seq_eq; [exact Hlz|]. intros i Hi. now rewrite nth_zip_with_lxor by lia.
      * now apply map_seq_eq.
    + unfold dec1.
      replace (take (offset + p) (take offset dec ++ take p u ++ drop (offset + p) dec))
        with (take offset dec ++ take p u).
      2:{ rewrite app_assoc. symmetry. apply take_app_length'.
          rewrite length_app, length_take. lia. }
      replace (drop (offset + p + p) (take offset dec ++ take p u ++ drop (offset + p) dec))
        with (drop (offset + 2 ^ S n) dec).
      2:{ rewrite app_assoc.
          rewrite (drop_app_add' _ _ (offset + p) p) by (rewrite length_app, length_take; lia).
          rewrite drop_drop. f_equal. rewrite Nat.pow_succ_r'. fold p. lia. }
      rewrite <- !app_assoc. f_equal. rewrite app_assoc. f_equal. apply take_drop.
Qed.

(** ** The information and frozen index sets *)

Section Indices.
Variable N : nat.
Variable sorted : list nat.
Variable K : nat.
Hypothesis sorted_perm : sorted ≡ₚ seq 0 N.
Hypothesis K_le_N : (K <= N)%nat.

Lemma channels_nth i : (i < N)%nat ->
  nth i (channels N sorted K) false = bool_decide (i ∈ infoSet sorted K).
Proof. intros Hi. unfold channels. now rewrite nth_map_seq. Qed.

Lemma elem_of_indicesOfType b i :
  i ∈ indicesOfType N sorted K b <->
  (i < N)%nat /\ bool_decide (i ∈ infoSet sorted K) = b.
Proof.
  unfold indicesOfType. rewrite list_elem_of_filter, elem_of_seq. split.
  - intros [Ht Hi]. rewrite channels_nth in Ht by lia. split; [lia|exact Ht].
  - intros [Hi Ht]. rewrite channels_nth by lia. split; [exact Ht|lia].
Qed.

Lemma NoDup_indicesOfType b : NoDup (indicesOfType N sorted K b).
Proof. apply NoDup_filter, NoDup_seq. Qed.

Lemma elem_of_infoSet i : i ∈ infoSet sorted K <-> i ∈ take K sorted.
Proof. unfold infoSet. apply elem_of_list_to_set. Qed.

Lemma infoSet_lt i : i ∈ infoSet sorted K -> (i < N)%nat.
Proof.
  rewrite elem_of_infoSet. intros Hi. apply subseteq_take in Hi.
  rewrite sorted_perm in Hi. apply elem_of_seq in Hi. lia.
Qed.

Lemma infoBitIndices_perm : infoBitIndices N sorted K ≡ₚ take K sorted.
Proof.
  unfold infoBitIndices. rewrite merge_sort_Permutation.
  apply NoDup_Permutation.
  - apply NoDup_indicesOfType.
  - eapply sublist_NoDup; [|apply sublist_take].
    rewrite sorted_perm. apply NoDup_seq.
  - intros i. rewrite elem_of_indicesOfType, bool_decide_eq_true, elem_of_infoSet.
    split; [tauto|]. intros Hi. split; [|exact Hi].
    apply infoSet_lt, elem_of_infoSet, Hi.
Qed.

Lemma infoBitIndices_length : length (infoBitIndices N sorted K) = K.
Proof.
  rewrite infoBitIndices_perm, length_take.
  rewrite sorted_perm, length_seq. lia.
Qed.

Lemma infoBitIndices_NoDup : NoDup (infoBitIndices N sorted K).
Proof.
  unfold infoBitIndices. rewrite merge_sort_Permutation. apply NoDup_indicesOfType.
Qed.

Lemma infoBitIndices_sorted : Sorted Nat.le (infoBitIndices N sorted K).
Proof. apply (Sorted_merge_sort Nat.le). Qed.

Lemma elem_of_frozenBits i :
  i ∈ frozenBits N sorted K <-> (i < N)%nat /\ i ∉ infoBitIndices N sorted K.
Proof.
  unfold frozenBits. rewrite elem_of_list_to_set, elem_of_indicesOfType.
  rewrite bool_decide_eq_false, infoBitIndices_perm, elem_of_infoSet. tauto.
Qed.

Lemma infoBitIndices_lt i : i ∈ infoBitIndices N sorted K -> (i < N)%nat.
Proof.
  rewrite infoBitIndices_perm, <- elem_of_infoSet. apply infoSet_lt.
Qed.

End Indices.

(** ** The input vector *)

Lemma nth_insert_eq (l : list Z) i v : (i < length l)%nat -> nth i (<[i := v]> l) 0 = v.
Proof.
  intros Hi. rewrite nth_lookup, list_lookup_insert_eq by exact Hi. reflexivity.
Qed.

Lemma nth_insert_ne (l : list Z) i j v : i <> j -> nth j (<[i := v]> l) 0 = nth j l 0.
Proof.
  intros Hij. rewrite !nth_lookup, list_lookup_insert_ne by exact Hij. reflexivity.
Qed.

Section InputVector.
Variable N : nat.
Variable idx : list nat.
Variable data : list Z.
Hypothesis idx_NoDup : NoDup idx.
Hypothesis idx_lt : forall i, i ∈ idx -> (i < N)%nat.
Hypothesis data_bits : Forall bit data.

(** The vector after the first [k] writes. *)
Definition writes (k : nat) : list Z :=
  fold_left (fun u i => <[nth i idx O := nth i data 0]> u) (seq 0 k) (replicate N 0).

Lemma writes_S k : writes (S k) = <[nth k idx O := nth k data 0]> (writes k).
Proof. unfold writes. now rewrite seq_S, fold_left_app. Qed.

Lemma writes_length k : length (writes k) = N.
Proof.
  induction k as [|k IH]; [apply length_replicate|].
  now rewrite writes_S, length_insert.
Qed.

Lemma idx_nth_inj i k :
  (i < length idx)%nat -> (k < length idx)%nat -> nth i idx O = nth k idx O -> i = k.
Proof.
  intros Hi Hk Heq. apply (NoDup_nth idx O); assumption || (apply NoDup_ListNoDup, idx_NoDup).
Qed.

Lemma writes_hit k i :
  (k <= length idx)%nat -> (i < k)%nat -> nth (nth i idx O) (writes k) 0 = nth i data 0.
Proof.
  induction k as [|k IH]; intros Hk Hi; [lia|].
  rewrite writes_S. destruct (Nat.eq_dec i k) as [->|Hne].
  - apply nth_insert_eq. rewrite writes_length. apply idx_lt, list_elem_of_In, nth_In. lia.
  - rewrite nth_insert_ne; [apply IH; lia|].
    intros Heq. apply Hne. symmetry. apply idx_nth_inj; [lia|lia|exact Heq].
Qed.

Lemma writes_miss k j : j ∉ idx -> (k <= length idx)%nat -> nth j (writes k) 0 = 0.
Proof.
  intros Hj. induction k as [|k IH]; intros Hk.
  - unfold writes. simpl. destruct (Nat.lt_ge_cases j N).
    + now apply nth_replicate.
    + apply nth_overflow. now rewrite length_replicate.
  - rewrite writes_S, nth_insert_ne; [apply IH; lia|].
    intros <-. apply Hj, list_elem_of_In, nth_In. lia.
Qed.

Lemma writes_bits k : Forall bit (writes k).
Proof.
  induction k as [|k IH].
  - unfold writes. simpl. apply Forall_replicate. now left.
  - rewrite writes_S. apply Forall_insert; [exact IH|]. apply bit_nth, data_bits.
Qed.

Lemma inputVector_writes :
  inputVector N idx data = writes (Nat.min (length idx) (length data)).
Proof. reflexivity. Qed.

(** Reading the vector back at the indices gives the data. *)
Lemma inputVector_read :
  length idx = length data ->
  decodedInfoBits idx (inputVector N idx data) = data.
Proof.
  intros Hlen. rewrite inputVector_writes, <- Hlen, Nat.min_id.
  unfold decodedInfoBits. apply (nth_ext _ _ 0 0).
  - now rewrite length_map.
  - rewrite length_map. intros i Hi.
    rewrite (nth_map_lt _ _ _ _ O) by exact Hi. now apply writes_hit.
Qed.

End InputVector.

(** C3. For every N = 2^n, every K <= N, every ranking of the N channels
    (whatever erasure probability produced it) and every K-bit information
    word: the information indices are K ascending indices, the frozen set
    is the rest, and scDecode on the uncorrupted codeword u * G_N (mod 2)
    returns a vector whose entries at the information indices, read in
    that ascending order, are the information word. *)
Theorem polar_zero_error_round_trip (n K : nat) (sorted : list nat) (info : list Z) :
  sorted ≡ₚ seq 0 (2 ^ n) -> (K <= 2 ^ n)%nat -> bits K info ->
  let N := (2 ^ n)%nat in
  let frozen := frozenBits N sorted K in
  let idx := infoBitIndices N sorted K in
  let u := inputVector N idx info in
  let x := encoded N (generateG n) u in
  Sorted Nat.le idx /\ length idx = K /\
  (forall i, i ∈ frozen <-> (i < N)%nat /\ i ∉ idx) /\
  exists dec, scDecode x frozen N = Some dec /\ decodedInfoBits idx dec = info.
Proof.
  intros Hperm HK [Hlen Hinfo] N frozen idx u x.
  assert (HN : N = (2 ^ n)%nat) by reflexivity. clearbody N. subst N.
  assert (Hidx_len : length idx = K) by (apply infoBitIndices_length; assumption).
  assert (Hidx_nd : NoDup idx) by apply infoBitIndices_NoDup.
  assert (Hidx_lt : forall i, i ∈ idx -> (i < 2 ^ n)%nat)
    by (intros i; apply infoBitIndices_lt; assumption).
  assert (Hfrozen : forall i, i ∈ frozen <-> (i < 2 ^ n)%nat /\ i ∉ idx)
    by (intros i; apply elem_of_frozenBits; assumption).
  split; [apply infoBitIndices_sorted|]. split; [exact Hidx_len|]. split; [exact Hfrozen|].
  assert (Hu_len : length u = (2 ^ n)%nat).
  { unfold u. rewrite inputVector_writes. apply writes_length. }
  assert (Hu_bits : Forall bit u).
  { unfold u. rewrite inputVector_writes. apply writes_bits, Hinfo. }
  assert (Hx : x = polar n u) by (apply encoded_polar; assumption).
  exists u. split.
  - unfold scDecode. rewrite Hx. fold (llrOf reliability (polar n u)).
    rewrite (decode_noiseless frozen n (2 ^ n) 0%nat (replicate (2 ^ n) 0) u reliability).
    + cbn [take app]. rewrite Nat.add_0_l.
      rewrite drop_ge by (rewrite length_replicate; lia). now rewrite app_nil_r.
    + apply Nat.pow_gt_lin_r. lia.
    + exact Hu_len.
    + exact Hu_bits.
    + intros i Hi Hin. rewrite Nat.add_0_l in Hin. apply Hfrozen in Hin.
      unfold u. rewrite inputVector_writes. apply writes_miss; [tauto|lia].
    + reflexivity.
    + rewrite length_replicate. lia.
  - apply inputVector_read; [exact Hidx_nd|exact Hidx_lt|lia].
Qed.

(** The ranking of the eight channels at erasure probability 0.5: the
    Bhattacharyya parameters, ascending, are those of channels
    7, 6, 5, 3, 4, 2, 1, 0. *)
Definition ranking8 : list nat := [7; 6; 5; 3; 4; 2; 1; 0]%nat.

Lemma polar_zero_error_round_trip_witness :
  let N := (2 ^ 3)%nat in
  let frozen := frozenBits N ranking8 4 in
  let idx := infoBitIndices N ranking8 4 in
  let u := inputVector N idx [1; 0; 1; 1] in
  let x := encoded N (generateG 3) u in
  Sorted Nat.le idx /\ length idx = 4%nat /\
  (forall i, i ∈ frozen <-> (i < N)%nat /\ i ∉ idx) /\
  exists dec, scDecode x frozen N = Some dec /\ decodedInfoBits idx dec = [1; 0; 1; 1].
Proof.
  apply (polar_zero_error_round_trip 3 4 ranking8 [1; 0; 1; 1]).
  - refine (bool_decide_unpack _ _). vm_compute. exact I.
  - simpl. lia.
  - split; [reflexivity|].
    repeat (apply List.Forall_cons; [unfold bit; lia|]). apply List.Forall_nil.
Defined.

End PolarFacts.

(** * GF(2^8) is a field *)
Module GFField.
Import GF GFFacts.

Notation "a ⊕ b" := (Z.lxor a b) (at level 50, left associativity).
Notation "a ⊗ b" := (gfMul a b) (at level 40, left associativity).

Create HintDb gf discriminated.

Lemma byte_0 : byte 0. Proof. unfold byte. lia. Qed.
Lemma byte_1 : byte 1. Proof. unfold byte. lia. Qed.
Lemma byte_255 : byte 255. Proof. unfold byte. lia. Qed.

Lemma lxor_byte a b : byte a -> byte b -> byte (a ⊕ b).
Proof.
  intros Ha Hb.
  assert (H := byte_cases2 (fun a b => (0 <=? a ⊕ b) && (a ⊕ b <=? 255))
                 ltac:(vm_compute; reflexivity) a b Ha Hb).
  cbv beta in H. unfold byte. lia.
Qed.

Lemma gfMul_byte a b : byte a -> byte b -> byte (a ⊗ b).
Proof. intros Ha Hb. apply (gf_closure a b Ha Hb). Qed.

Lemma gfExp_byte i : 0 <= i < 512 -> byte (rd gfExp i).
Proof. intros Hi. pose proof (gfExp_range i Hi). unfold byte. lia. Qed.

Lemma gfExp_nonzero i : 0 <= i < 512 -> rd gfExp i <> 0.
Proof. intros Hi. pose proof (gfExp_range i Hi). lia. Qed.

Lemma gfInverse_byte a : byte a -> a <> 0 -> byte (gfInverse a).
Proof.
  intros Ha Hnz. unfold gfInverse. apply gfExp_byte.
  pose proof (gfLog_range a ltac:(unfold byte in Ha; lia)). lia.
Qed.

#[export] Hint Resolve byte_0 byte_1 byte_255 lxor_byte gfMul_byte gfInverse_byte : gf.

Lemma gfMul_comm a b : a ⊗ b = b ⊗ a.
Proof. unfold gfMul. now rewrite orb_comm, Z.add_comm. Qed.

Lemma gfMul_0_l a : 0 ⊗ a = 0.
Proof. reflexivity. Qed.

Lemma gfMul_0_r a : a ⊗ 0 = 0.
Proof. now rewrite gfMul_comm. Qed.

Lemma gfMul_1_l a : byte a -> 1 ⊗ a = a.
Proof.
  intros Ha. unfold gfMul. simpl (1 =? 0). cbn [orb].
  destruct (Z.eqb_spec a 0) as [->|Hnz]; [reflexivity|].
  change (rd gfLog 1) with 0. rewrite Z.add_0_l. apply gfExp_log.
  unfold byte in Ha. lia.
Qed.

Lemma gfMul_1_r a : byte a -> a ⊗ 1 = a.
Proof. intros Ha. now rewrite gfMul_comm, gfMul_1_l. Qed.

(** The antilog table has period 255. *)
Lemma gfExp_mod i : 0 <= i < 512 -> rd gfExp i = rd gfExp (i mod 255).
Proof.
  intros Hi.
  assert (H := index_cases 512 (fun i => rd gfExp i =? rd gfExp (i mod 255))
                 ltac:(vm_compute; reflexivity) i ltac:(lia)).
  cbv beta in H. lia.
Qed.

Lemma gfLog_exp_mod i : 0 <= i < 512 -> rd gfLog (rd gfExp i) = i mod 255.
Proof.
  intros Hi. rewrite gfExp_mod by exact Hi. apply gfLog_exp.
  apply Z.mod_pos_bound. lia.
Qed.

Lemma gfMul_nonzero a b : byte a -> byte b -> a <> 0 -> b <> 0 ->
  a ⊗ b = rd gfExp ((rd gfLog a + rd gfLog b) mod 255).
Proof.
  intros Ha Hb Ha0 Hb0. unfold gfMul.
  destruct (Z.eqb_spec a 0); [contradiction|]. destruct (Z.eqb_spec b 0); [contradiction|].
  cbn [orb]. apply gfExp_mod.
  pose proof (gfLog_range a ltac:(unfold byte in Ha; lia)).
  pose proof (gfLog_range b ltac:(unfold byte in Hb; lia)). lia.
Qed.

Lemma gfMul_eq_0 a b : byte a -> byte b -> a ⊗ b = 0 -> a = 0 \/ b = 0.
Proof.
  intros Ha Hb H.
  destruct (Z.eq_dec a 0) as [|Ha0]; [now left|].
  destruct (Z.eq_dec b 0) as [|Hb0]; [now right|].
  rewrite gfMul_nonzero in H by assumption.
  exfalso. revert H. apply gfExp_nonzero.
  pose proof (Z.mod_pos_bound (rd gfLog a + rd gfLog b) 255). lia.
Qed.

Lemma gfMul_neq_0 a b : byte a -> byte b -> a <> 0 -> b <> 0 -> a ⊗ b <> 0.
Proof. intros Ha Hb Ha0 Hb0 H. destruct (gfMul_eq_0 a b Ha Hb H); contradiction. Qed.

Lemma gfLog_mul a b : byte a -> byte b -> a <> 0 -> b <> 0 ->
  rd gfLog (a ⊗ b) = (rd gfLog a + rd gfLog b) mod 255.
Proof.
  intros Ha Hb Ha0 Hb0. rewrite gfMul_nonzero by assumption.
  apply gfLog_exp. apply Z.mod_pos_bound. lia.
Qed.

Lemma gfMul_assoc a b c : byte a -> byte b -> byte c -> a ⊗ (b ⊗ c) = (a ⊗ b) ⊗ c.
Proof.
  intros Ha Hb Hc.
  destruct (Z.eq_dec a 0) as [->|Ha0]; [reflexivity|].
  destruct (Z.eq_dec b 0) as [->|Hb0]; [now rewrite gfMul_0_l, !gfMul_0_r|].
  destruct (Z.eq_dec c 0) as [->|Hc0]; [now rewrite !gfMul_0_r|].
  rewrite (gfMul_nonzero a (b ⊗ c)), (gfMul_nonzero (a ⊗ b) c)
    by auto using gfMul_byte, gfMul_neq_0.
  rewrite !gfLog_mul by assumption. f_equal.
  rewrite Z.add_mod_idemp_l, Z.add_mod_idemp_r by lia. f_equal. lia.
Qed.

(** ** Distributivity, through shift-and-add multiplication *)

(** Multiplication by x modulo the field polynomial, as in [initGF]. *)
Definition xtime (a : Z) : Z :=
  let x := Z.shiftl a 1 in
  if x >=? GF_SIZE then Z.land (Z.lxor x GF_POLY) 0xff else x.

Fixpoint pmul_from (k : nat) (i : Z) (cur b : Z) : Z :=
  match k with
  | O => 0
  | S k' => (if Z.testbit b i then cur else 0) ⊕ pmul_from k' (i + 1) (xtime cur) b
  end.

Definition pmul (a b : Z) : Z := pmul_from 8 0 a b.

Lemma gfMul_pmul a b : byte a -> byte b -> a ⊗ b = pmul a b.
Proof.
  intros Ha Hb.
  assert (H := byte_cases2 (fun a b => a ⊗ b =? pmul a b)
                 ltac:(vm_compute; reflexivity) a b Ha Hb).
  cbv beta in H. lia.
Qed.

Lemma lxor_swap4 a b c d : (a ⊕ b) ⊕ (c ⊕ d) = (a ⊕ c) ⊕ (b ⊕ d).
Proof.
  rewrite !Z.lxor_assoc. f_equal. rewrite <- !Z.lxor_assoc. f_equal. apply Z.lxor_comm.
Qed.

Lemma pmul_from_lxor k i cur b c :
  pmul_from k i cur (b ⊕ c) = pmul_from k i cur b ⊕ pmul_from k i cur c.
Proof.
  revert i cur. induction k as [|k IH]; intros i cur; [reflexivity|].
  cbn [pmul_from]. rewrite IH, Z.lxor_spec.
  rewrite <- lxor_swap4. f_equal.
  destruct (Z.testbit b i), (Z.testbit c i); cbn [xorb];
    rewrite ?Z.lxor_0_l, ?Z.lxor_0_r, ?Z.lxor_nilpotent; reflexivity.
Qed.

Lemma gfMul_lxor_r a b c : byte a -> byte b -> byte c ->
  a ⊗ (b ⊕ c) = (a ⊗ b) ⊕ (a ⊗ c).
Proof.
  intros Ha Hb Hc. rewrite !gfMul_pmul by auto using lxor_byte.
  apply pmul_from_lxor.
Qed.

Lemma gfMul_lxor_l a b c : byte a -> byte b -> byte c ->
  (a ⊕ b) ⊗ c = (a ⊗ c) ⊕ (b ⊗ c).
Proof.
  intros Ha Hb Hc. rewrite (gfMul_comm (a ⊕ b)), gfMul_lxor_r by assumption.
  now rewrite (gfMul_comm c a), (gfMul_comm c b).
Qed.

(** ** Inverses *)

Lemma gfMul_inverse a : byte a -> a <> 0 -> a ⊗ gfInverse a = 1.
Proof. intros Ha Hnz. apply gf_field_identities. unfold byte in Ha. lia. Qed.

Lemma gfInverse_nonzero a : byte a -> a <> 0 -> gfInverse a <> 0.
Proof.
  intros Ha Hnz. unfold gfInverse. apply gfExp_nonzero.
  pose proof (gfLog_range a ltac:(unfold byte in Ha; lia)). lia.
Qed.

Lemma gfDiv_mul a b : byte a -> byte b -> b <> 0 -> gfDiv (a ⊗ b) b = Some a.
Proof. intros Ha Hb Hnz. apply gf_field_identities; unfold byte in *; lia. Qed.

Lemma gfMul_cancel_r a b c : byte a -> byte b -> byte c -> c <> 0 ->
  a ⊗ c = b ⊗ c -> a = b.
Proof.
  intros Ha Hb Hc Hnz Heq.
  assert (H : gfDiv (a ⊗ c) c = gfDiv (b ⊗ c) c) by now rewrite Heq.
  rewrite !gfDiv_mul in H by assumption. congruence.
Qed.

(** ** XOR *)

Lemma lxor_eq_0 a b : a ⊕ b = 0 <-> a = b.
Proof. apply Z.lxor_eq_0_iff. Qed.

Lemma lxor_cancel_l a b : a ⊕ (a ⊕ b) = b.
Proof. now rewrite <- Z.lxor_assoc, Z.lxor_nilpotent, Z.lxor_0_l. Qed.

(** ** Powers of the generator *)

(** [alpha i] is the [i]-th power of the generator, read from the table. *)
Definition alpha (i : nat) : Z := rd gfExp (Z.of_nat i mod 255).

Lemma alpha_byte i : byte (alpha i).
Proof. apply gfExp_byte. pose proof (Z.mod_pos_bound (Z.of_nat i) 255). lia. Qed.

Lemma alpha_nonzero i : alpha i <> 0.
Proof. apply gfExp_nonzero. pose proof (Z.mod_pos_bound (Z.of_nat i) 255). lia. Qed.

Lemma alpha_table i : (i < 512)%nat -> rd gfExp (Z.of_nat i) = alpha i.
Proof. intros Hi. unfold alpha. apply gfExp_mod. lia. Qed.

Lemma gfLog_alpha i : rd gfLog (alpha i) = Z.of_nat i mod 255.
Proof. apply gfLog_exp. apply Z.mod_pos_bound. lia. Qed.

Lemma alpha_add i j : alpha i ⊗ alpha j = alpha (i + j).
Proof.
  rewrite gfMul_nonzero by auto using alpha_byte, alpha_nonzero.
  rewrite !gfLog_alpha. unfold alpha. f_equal.
  rewrite <- Z.add_mod by lia. f_equal. lia.
Qed.

Lemma alpha_0 : alpha 0 = 1.
Proof. reflexivity. Qed.

Lemma alpha_inj i j : (i < 255)%nat -> (j < 255)%nat -> alpha i = alpha j -> i = j.
Proof.
  intros Hi Hj H. apply (f_equal (rd gfLog)) in H. rewrite !gfLog_alpha in H.
  rewrite !Z.mod_small in H by lia. lia.
Qed.

Lemma gfInverse_alpha i : (i <= 255)%nat -> gfInverse (alpha i) = alpha (255 - i).
Proof.
  intros Hi. unfold gfInverse. rewrite gfLog_alpha.
  rewrite gfExp_mod by (pose proof (Z.mod_pos_bound (Z.of_nat i) 255); lia).
  unfold alpha. f_equal.
  rewrite Nat2Z.inj_sub by lia. rewrite Zminus_mod_idemp_r. reflexivity.
Qed.

#[export] Hint Resolve alpha_byte gfExp_byte : gf.

End GFField.

(** * The ring of bytes, to decide identities of field expressions *)
Module GFRing.
Import GF GFFacts GFField.

Definition byteb (a : Z) : bool := (0 <=? a) && (a <=? 255).

Lemma byteb_spec a : byteb a = true <-> byte a.
Proof. unfold byteb, byte. lia. Qed.

(** A byte packed with the evidence that it is one. *)
Definition B : Type := { a : Z | byteb a = true }.

Definition val (x : B) : Z := proj1_sig x.

Lemma val_byte x : byte (val x).
Proof. apply byteb_spec. exact (proj2_sig x). Qed.

Lemma val_inj x y : val x = val y -> x = y.
Proof.
  destruct x as [a Ha], y as [b Hb]. cbn. intros ->.
  f_equal. apply UIP_dec. apply Bool.bool_dec.
Qed.

Definition mkB (a : Z) (Ha : byte a) : B := exist _ a (proj2 (byteb_spec a) Ha).

Lemma lift a : byte a -> exists x : B, a = val x.
Proof. intros Ha. now exists (mkB a Ha). Qed.

Definition B0 : B := mkB 0 byte_0.
Definition B1 : B := mkB 1 byte_1.
Definition Badd (x y : B) : B := mkB (val x ⊕ val y) (lxor_byte _ _ (val_byte x) (val_byte y)).
Definition Bmul (x y : B) : B := mkB (val x ⊗ val y) (gfMul_byte _ _ (val_byte x) (val_byte y)).
Definition Bopp (x : B) : B := x.
Definition Bsub (x y : B) : B := Badd x y.

Lemma val_add x y : val x ⊕ val y = val (Badd x y).
Proof. reflexivity. Qed.

Lemma val_mul x y : val x ⊗ val y = val (Bmul x y).
Proof. reflexivity. Qed.

Lemma val_0 : 0 = val B0.
Proof. reflexivity. Qed.

Lemma val_1 : 1 = val B1.
Proof. reflexivity. Qed.

Lemma B_ring : ring_theory B0 B1 Badd Bmul Bsub Bopp eq.
Proof.
  split; intros; apply val_inj; cbn.
  - apply Z.lxor_0_l.
  - apply Z.lxor_comm.
  - symmetry. apply Z.lxor_assoc.
  - apply gfMul_1_l, val_byte.
  - apply gfMul_comm.
  - apply gfMul_assoc; apply val_byte.
  - apply gfMul_lxor_l; apply val_byte.
  - reflexivity.
  - apply Z.lxor_nilpotent.
Qed.

(** The coefficients are the two-element field: the characteristic is 2. *)
Definition Bof (c : bool) : B := if c then B1 else B0.

Lemma B_morph :
  ring_morph B0 B1 Badd Bmul Bsub Bopp eq
             false true xorb andb xorb (fun c => c) Bool.eqb Bof.
Proof.
  split; try reflexivity.
  - intros [] []; apply val_inj; reflexivity.
  - intros [] []; apply val_inj; reflexivity.
  - intros [] []; apply val_inj; reflexivity.
  - intros [] []; cbn; intros H; congruence.
Qed.

Add Ring B_ring_inst : B_ring (morphism B_morph).

Lemma val_eq (x y : B) : x = y -> val x = val y.
Proof. now intros ->. Qed.

(** Replaces the byte [a] by the value of a packed byte. *)
Ltac gf_lift a :=
  let H := fresh "Hb" in
  let x := fresh "x" in
  let E := fresh "E" in
  assert (H : byte a) by (auto with gf);
  destruct (lift a H) as [x E];
  rewrite ?E.

(** Lifts the atoms of [t]: those that are applications when [vars] is
    [false], the remaining ones when it is [true]. *)
Ltac gf_atoms vars t :=
  lazymatch t with
  | Z.lxor ?a ?b => gf_atoms vars a; gf_atoms vars b
  | gfMul ?a ?b => gf_atoms vars a; gf_atoms vars b
  | val _ => idtac
  | 0 => idtac
  | 1 => idtac
  | _ =>
      lazymatch vars with
      | true => gf_lift t
      | false => tryif is_var t then idtac else gf_lift t
      end
  end.

Ltac gf_reify t :=
  lazymatch t with
  | Z.lxor ?a ?b =>
      let a' := gf_reify a in let b' := gf_reify b in constr:(Badd a' b')
  | gfMul ?a ?b =>
      let a' := gf_reify a in let b' := gf_reify b in constr:(Bmul a' b')
  | val ?x => constr:(x)
  | 0 => constr:(B0)
  | 1 => constr:(B1)
  end.

(** Proves an equation between XOR-and-[gfMul] expressions whose atoms are
    bytes (by [auto with gf]). *)
Ltac gf_ring :=
  solve [
    lazymatch goal with
    | |- ?l = ?r => gf_atoms false l; gf_atoms false r
    end;
    lazymatch goal with
    | |- ?l = ?r => gf_atoms true l; gf_atoms true r
    end;
    lazymatch goal with
    | |- ?l = ?r =>
        let l' := gf_reify l in
        let r' := gf_reify r in
        change (val l' = val r'); apply val_eq; ring
    end ].

Lemma gf_ring_example a b c x r :
  byte a -> byte b -> byte c -> byte x -> byte r ->
  ((x ⊕ r) ⊗ a ⊕ b) ⊗ x ⊕ c = (x ⊕ r) ⊗ (a ⊗ x ⊕ b) ⊕ (b ⊗ r ⊕ c).
Proof. intros. gf_ring. Qed.

End GFRing.

(** * XOR sums, powers and polynomial evaluation *)
Module GFSums.
Import GF GFFacts GFField RS.

(** ** Sums over a list and over [0 .. n-1] *)

Definition xsumL {A : Type} (f : A -> Z) (l : list A) : Z :=
  fold_right (fun x s => f x ⊕ s) 0 l.

Definition xsum (f : nat -> Z) (n : nat) : Z := xsumL f (seq 0 n).

Section SumsOverLists.
Context {A : Type}.
Implicit Types (f g : A -> Z) (l k : list A).

Lemma xsumL_app f l k : xsumL f (l ++ k) = xsumL f l ⊕ xsumL f k.
Proof.
  induction l as [|x l IH]; cbn [xsumL fold_right app].
  - now rewrite Z.lxor_0_l.
  - fold (xsumL f (l ++ k)). fold (xsumL f l). now rewrite IH, Z.lxor_assoc.
Qed.

Lemma xsumL_cons f x l : xsumL f (x :: l) = f x ⊕ xsumL f l.
Proof. reflexivity. Qed.

Lemma xsumL_ext f g l : (forall x, In x l -> f x = g x) -> xsumL f l = xsumL g l.
Proof.
  induction l as [|x l IH]; intros H; [reflexivity|].
  rewrite !xsumL_cons, IH, (H x) by (intros; try apply H; simpl; auto). reflexivity.
Qed.

Lemma xsumL_byte f l : (forall x, In x l -> byte (f x)) -> byte (xsumL f l).
Proof.
  induction l as [|x l IH]; intros H; [apply byte_0|].
  rewrite xsumL_cons. apply lxor_byte; [apply H; now left|].
  apply IH. intros y Hy. apply H. now right.
Qed.

Lemma xsumL_zero f l : (forall x, In x l -> f x = 0) -> xsumL f l = 0.
Proof.
  induction l as [|x l IH]; intros H; [reflexivity|].
  rewrite xsumL_cons, IH, (H x) by (intros; try apply H; simpl; auto). reflexivity.
Qed.

Lemma xsumL_lxor f g l : xsumL (fun x => f x ⊕ g x) l = xsumL f l ⊕ xsumL g l.
Proof.
  induction l as [|x l IH]; [reflexivity|].
  rewrite !xsumL_cons, IH. apply lxor_swap4.
Qed.

Lemma xsumL_mul_l c f l : byte c -> (forall x, In x l -> byte (f x)) ->
  c ⊗ xsumL f l = xsumL (fun x => c ⊗ f x) l.
Proof.
  intros Hc. induction l as [|x l IH]; intros H; [apply gfMul_0_r|].
  rewrite !xsumL_cons, gfMul_lxor_r, IH; auto.
  - intros y Hy. apply H. now right.
  - apply H. now left.
  - apply xsumL_byte. intros y Hy. apply H. now right.
Qed.

Lemma xsumL_mul_r c f l : byte c -> (forall x, In x l -> byte (f x)) ->
  xsumL f l ⊗ c = xsumL (fun x => f x ⊗ c) l.
Proof.
  intros Hc H. rewrite gfMul_comm, xsumL_mul_l by assumption.
  apply xsumL_ext. intros. apply gfMul_comm.
Qed.

Lemma xsumL_filter (P : A -> bool) f l :
  xsumL (fun x => if P x then f x else 0) l = xsumL f (List.filter P l).
Proof.
  induction l as [|x l IH]; [reflexivity|].
  rewrite xsumL_cons. cbn [List.filter]. destruct (P x).
  - now rewrite xsumL_cons, IH.
  - now rewrite Z.lxor_0_l.
Qed.

Lemma xsumL_map {B : Type} (h : B -> A) f (l : list B) :
  xsumL f (map h l) = xsumL (fun y => f (h y)) l.
Proof. induction l as [|y l IH]; [reflexivity|]. cbn [map]. now rewrite !xsumL_cons, IH. Qed.

Lemma xsumL_rev f l : xsumL f (rev l) = xsumL f l.
Proof.
  induction l as [|x l IH]; [reflexivity|].
  cbn [rev]. rewrite xsumL_app, IH, xsumL_cons. cbn [xsumL fold_right].
  now rewrite Z.lxor_0_r, Z.lxor_comm.
Qed.

End SumsOverLists.

Lemma xsumL_swap {A B : Type} (f : A -> B -> Z) (l : list A) (k : list B) :
  xsumL (fun x => xsumL (fun y => f x y) k) l =
  xsumL (fun y => xsumL (fun x => f x y) l) k.
Proof.
  induction l as [|x l IH].
  - cbn [xsumL fold_right]. symmetry. now apply xsumL_zero.
  - rewrite xsumL_cons, IH. rewrite <- xsumL_lxor. reflexivity.
Qed.

(** Only one element contributes. *)
Lemma xsumL_single {A : Type} (f : A -> Z) (l : list A) (a : A) :
  List.NoDup l -> In a l -> (forall x, In x l -> x <> a -> f x = 0) -> xsumL f l = f a.
Proof.
  induction l as [|x l IH]; intros Hnd Hin Hz; [destruct Hin|].
  inversion Hnd as [|? ? Hx Hnd']; subst. rewrite xsumL_cons.
  destruct Hin as [->|Hin].
  - rewrite xsumL_zero, Z.lxor_0_r; [reflexivity|].
    intros y Hy. apply Hz; [now right|]. intros ->. contradiction.
  - rewrite (Hz x); [|now left|intros ->; contradiction].
    rewrite Z.lxor_0_l. apply IH; auto. intros y Hy. apply Hz. now right.
Qed.

Lemma xsum_0 f : xsum f 0 = 0.
Proof. reflexivity. Qed.

Lemma xsum_S f n : xsum f (S n) = xsum f n ⊕ f n.
Proof.
  unfold xsum. rewrite seq_S, xsumL_app. cbn [xsumL fold_right Nat.add].
  now rewrite Z.lxor_0_r.
Qed.

Lemma xsum_S_l f n : xsum f (S n) = f 0%nat ⊕ xsum (fun i => f (S i)) n.
Proof.
  unfold xsum. cbn [seq]. rewrite xsumL_cons. f_equal.
  rewrite <- seq_shift. apply xsumL_map.
Qed.

Lemma xsum_ext f g n : (forall i, (i < n)%nat -> f i = g i) -> xsum f n = xsum g n.
Proof. intros H. apply xsumL_ext. intros i Hi. apply H. apply in_seq in Hi. lia. Qed.

Lemma xsum_byte f n : (forall i, (i < n)%nat -> byte (f i)) -> byte (xsum f n).
Proof. intros H. apply xsumL_byte. intros i Hi. apply H. apply in_seq in Hi. lia. Qed.

Lemma xsum_zero f n : (forall i, (i < n)%nat -> f i = 0) -> xsum f n = 0.
Proof. intros H. apply xsumL_zero. intros i Hi. apply H. apply in_seq in Hi. lia. Qed.

Lemma xsum_lxor f g n : xsum (fun i => f i ⊕ g i) n = xsum f n ⊕ xsum g n.
Proof. apply xsumL_lxor. Qed.

Lemma xsum_mul_l c f n : byte c -> (forall i, (i < n)%nat -> byte (f i)) ->
  c ⊗ xsum f n = xsum (fun i => c ⊗ f i) n.
Proof.
  intros Hc H. apply xsumL_mul_l; [exact Hc|].
  intros i Hi. apply H. apply in_seq in Hi. lia.
Qed.

Lemma xsum_mul_r c f n : byte c -> (forall i, (i < n)%nat -> byte (f i)) ->
  xsum f n ⊗ c = xsum (fun i => f i ⊗ c) n.
Proof.
  intros Hc H. apply xsumL_mul_r; [exact Hc|].
  intros i Hi. apply H. apply in_seq in Hi. lia.
Qed.

Lemma xsum_swap (f : nat -> nat -> Z) n m :
  xsum (fun i => xsum (fun j => f i j) m) n = xsum (fun j => xsum (fun i => f i j) n) m.
Proof. apply xsumL_swap. Qed.

Lemma xsum_add f a b : xsum f (a + b) = xsum f a ⊕ xsum (fun i => f (a + i)%nat) b.
Proof.
  induction b as [|b IH].
  - now rewrite Nat.add_0_r, xsum_0, Z.lxor_0_r.
  - rewrite Nat.add_succ_r, !xsum_S, IH. now rewrite Z.lxor_assoc.
Qed.

Lemma xsum_single f n k : (k < n)%nat ->
  (forall i, (i < n)%nat -> i <> k -> f i = 0) -> xsum f n = f k.
Proof.
  intros Hk Hz. apply xsumL_single.
  - apply List.seq_NoDup.
  - apply in_seq. lia.
  - intros i Hi. apply Hz. apply in_seq in Hi. lia.
Qed.

Lemma xsum_rev f n : xsum f n = xsum (fun i => f (n - 1 - i)%nat) n.
Proof.
  induction n as [|n IH]; [reflexivity|].
  rewrite xsum_S, xsum_S_l, IH, Z.lxor_comm.
  replace (S n - 1 - 0)%nat with n by lia. f_equal.
  apply xsum_ext. intros i Hi. f_equal. lia.
Qed.

(** ** Powers *)

Fixpoint gpow (x : Z) (k : nat) : Z :=
  match k with
  | O => 1
  | S k' => x ⊗ gpow x k'
  end.

Lemma gpow_byte x k : byte x -> byte (gpow x k).
Proof. intros Hx. induction k; cbn [gpow]; auto with gf. Qed.

#[export] Hint Resolve gpow_byte : gf.

Lemma gpow_S_r x k : byte x -> gpow x (S k) = gpow x k ⊗ x.
Proof. intros Hx. cbn [gpow]. apply gfMul_comm. Qed.

Lemma gpow_add x a b : byte x -> gpow x (a + b) = gpow x a ⊗ gpow x b.
Proof.
  intros Hx. induction a as [|a IH]; cbn [gpow Nat.add].
  - now rewrite gfMul_1_l by auto with gf.
  - rewrite IH. apply gfMul_assoc; auto with gf.
Qed.

Lemma gpow_0_l k : gpow 0 (S k) = 0.
Proof. reflexivity. Qed.

Lemma gpow_nonzero x k : byte x -> x <> 0 -> gpow x k <> 0.
Proof.
  intros Hx Hnz. induction k; cbn [gpow]; [discriminate|].
  apply gfMul_neq_0; auto with gf.
Qed.

Lemma gpow_alpha i k : gpow (alpha i) k = alpha (i * k).
Proof.
  induction k as [|k IH]; cbn [gpow].
  - now rewrite Nat.mul_0_r.
  - rewrite IH, alpha_add. f_equal. lia.
Qed.

Lemma gpow_mul x y k : byte x -> byte y -> gpow (x ⊗ y) k = gpow x k ⊗ gpow y k.
Proof.
  intros Hx Hy. induction k as [|k IH]; cbn [gpow]; [reflexivity|].
  rewrite IH.
  rewrite <- !gfMul_assoc by auto with gf. f_equal.
  rewrite !gfMul_assoc by auto with gf. f_equal. apply gfMul_comm.
Qed.

(** ** Coefficients *)

(** The coefficient of degree [j] of a polynomial stored highest degree
    first. *)
Definition cf (p : list Z) (j : nat) : Z := nth j (rev p) 0.

Definition bytesL (p : list Z) : Prop := Forall byte p.

Lemma bytesL_nth p i : bytesL p -> byte (nth i p 0).
Proof.
  intros Hp. destruct (Nat.lt_ge_cases i (length p)) as [Hi|Hi].
  - unfold bytesL in Hp. rewrite Forall_forall in Hp. apply Hp, list_elem_of_In, nth_In, Hi.
  - rewrite nth_overflow by lia. apply byte_0.
Qed.

Lemma bytesL_rev p : bytesL p -> bytesL (rev p).
Proof. unfold bytesL. intros H. now apply Forall_rev. Qed.

Lemma cf_byte p j : bytesL p -> byte (cf p j).
Proof. intros Hp. apply bytesL_nth, bytesL_rev, Hp. Qed.

#[export] Hint Resolve cf_byte bytesL_nth : gf.

Lemma cf_ge p j : (length p <= j)%nat -> cf p j = 0.
Proof. intros Hj. unfold cf. apply nth_overflow. now rewrite length_rev. Qed.

Lemma cf_nth p j : (j < length p)%nat -> cf p j = nth (length p - 1 - j) p 0.
Proof.
  intros Hj. unfold cf. rewrite rev_nth by exact Hj. f_equal. lia.
Qed.

Lemma nth_cf p i : (i < length p)%nat -> nth i p 0 = cf p (length p - 1 - i).
Proof. intros Hi. rewrite cf_nth by lia. f_equal. lia. Qed.

Lemma cf_snoc_0 p c : cf (p ++ [c]) 0 = c.
Proof. unfold cf. now rewrite rev_unit. Qed.

Lemma cf_snoc_S p c j : cf (p ++ [c]) (S j) = cf p j.
Proof. unfold cf. now rewrite rev_unit. Qed.

Lemma cf_cons_lt c p j : (j < length p)%nat -> cf (c :: p) j = cf p j.
Proof. intros Hj. unfold cf. cbn [rev]. apply app_nth1. now rewrite length_rev. Qed.

Lemma cf_cons_top c p : cf (c :: p) (length p) = c.
Proof.
  unfold cf. cbn [rev]. rewrite app_nth2 by (rewrite length_rev; lia).
  rewrite length_rev, Nat.sub_diag. reflexivity.
Qed.

Lemma cf_map (h : Z -> Z) p j : h 0 = 0 -> cf (map h p) j = h (cf p j).
Proof.
  intros Hh. unfold cf. rewrite <- map_rev.
  destruct (Nat.lt_ge_cases j (length (rev p))) as [Hj|Hj].
  - now rewrite (nth_map_lt _ _ _ _ 0).
  - rewrite !nth_overflow by (rewrite ?length_map; lia). now rewrite Hh.
Qed.

Lemma list_eq_cf p q : length p = length q ->
  (forall j, (j < length p)%nat -> cf p j = cf q j) -> p = q.
Proof.
  intros Hlen H. rewrite <- (rev_involutive p), <- (rev_involutive q). f_equal.
  apply (nth_ext _ _ 0 0); [now rewrite !length_rev|].
  rewrite length_rev. exact H.
Qed.

(** ** Evaluation *)

Lemma polyEval_nil x : polyEval [] x = 0.
Proof. reflexivity. Qed.

Lemma polyEval_snoc p c x : polyEval (p ++ [c]) x = polyEval p x ⊗ x ⊕ c.
Proof.
  destruct p as [|a p]; [reflexivity|].
  unfold polyEval. cbn [app tl]. change (rd ((a :: p) ++ [c]) 0) with a.
  change (rd (a :: p) 0) with a. now rewrite fold_left_app.
Qed.

Lemma polyEval_byte p x : bytesL p -> byte x -> byte (polyEval p x).
Proof.
  intros Hp Hx. induction p as [|c p IH] using rev_ind; [apply byte_0|].
  apply Forall_app in Hp. destruct Hp as [Hp Hc]. apply Forall_cons in Hc.
  rewrite polyEval_snoc. apply lxor_byte; [|tauto]. apply gfMul_byte; auto.
Qed.

#[export] Hint Resolve polyEval_byte : gf.

(** Horner's rule computes the sum of the terms. *)
Lemma polyEval_sum p x : bytesL p -> byte x ->
  polyEval p x = xsum (fun j => cf p j ⊗ gpow x j) (length p).
Proof.
  intros Hp Hx. induction p as [|c p IH] using rev_ind; [reflexivity|].
  apply Forall_app in Hp. destruct Hp as [Hp Hc]. apply Forall_cons in Hc.
  destruct Hc as [Hc _].
  rewrite polyEval_snoc, length_app, Nat.add_comm. cbn [length Nat.add].
  rewrite xsum_S_l, cf_snoc_0. cbn [gpow]. rewrite gfMul_1_r by exact Hc.
  rewrite Z.lxor_comm. f_equal.
  rewrite IH by exact Hp. rewrite xsum_mul_r by auto with gf.
  apply xsum_ext. intros j Hj. rewrite cf_snoc_S.
  rewrite <- gfMul_assoc by auto with gf. f_equal. symmetry. apply gfMul_comm.
Qed.

End GFSums.

(** * The polynomial loops of the codec *)
Module RSLoops.
Import GF GFFacts GFField RS GFSums.

(** ** Reads and writes at loop counters *)

Lemma rd_nat (l : list Z) (i : nat) : rd l (Z.of_nat i) = nth i l 0.
Proof.
  unfold rd. destruct (Z.ltb_spec (Z.of_nat i) 0); [lia|]. now rewrite Nat2Z.id.
Qed.

Lemma wr_nat (l : list Z) (i : nat) v : wr l (Z.of_nat i) v = <[i := v]> l.
Proof.
  unfold wr. destruct (Z.ltb_spec (Z.of_nat i) 0); [lia|]. now rewrite Nat2Z.id.
Qed.

Lemma rd_neg (l : list Z) i : i < 0 -> rd l i = 0.
Proof. intros Hi. unfold rd. now destruct (Z.ltb_spec i 0); [|lia]. Qed.

Lemma wr_length (l : list Z) i v : length (wr l i v) = length l.
Proof. unfold wr. destruct (i <? 0); [reflexivity|apply length_insert]. Qed.

Lemma len_wr (l : list Z) i v : len (wr l i v) = len l.
Proof. unfold len. now rewrite wr_length. Qed.

Lemma nth_insert (l : list Z) i k v :
  nth k (<[i := v]> l) 0 = if (i =? k)%nat && (i <? length l)%nat then v else nth k l 0.
Proof.
  rewrite !nth_lookup. destruct (Nat.eqb_spec i k) as [->|Hne]; cbn [andb].
  - destruct (Nat.ltb_spec k (length l)) as [Hk|Hk].
    + now rewrite list_lookup_insert_eq.
    + now rewrite list_insert_ge by lia.
  - now rewrite list_lookup_insert_ne.
Qed.

Lemma nth_wr (l : list Z) i k v :
  nth k (wr l i v) 0 = if (i =? Z.of_nat k) && (i <? len l) then v else nth k l 0.
Proof.
  unfold wr, len. destruct (Z.ltb_spec i 0) as [Hneg|Hpos].
  - destruct (Z.eqb_spec i (Z.of_nat k)); [lia|reflexivity].
  - rewrite nth_insert.
    destruct (Nat.eqb_spec (Z.to_nat i) k), (Z.eqb_spec i (Z.of_nat k)); try lia; cbn [andb];
      [|reflexivity].
    destruct (Nat.ltb_spec (Z.to_nat i) (length l)), (Z.ltb_spec i (Z.of_nat (length l)));
      try lia; reflexivity.
Qed.

Lemma bytesL_wr (l : list Z) i v : bytesL l -> byte v -> bytesL (wr l i v).
Proof.
  intros Hl Hv. unfold wr. destruct (i <? 0); [exact Hl|]. now apply Forall_insert.
Qed.

Lemma bytesL_rd (l : list Z) i : bytesL l -> byte (rd l i).
Proof.
  intros Hl. unfold rd. destruct (i <? 0); [apply byte_0|]. now apply bytesL_nth.
Qed.

#[export] Hint Resolve bytesL_wr bytesL_rd : gf.

Lemma xsumL_indices (f : Z -> Z) n : xsumL f (indices n) = xsum (fun i => f (Z.of_nat i)) n.
Proof. unfold indices, xsum. apply xsumL_map. Qed.

(** ** A loop that XORs values into an array *)

Section XorInto.
Variable idx : Z -> Z -> Z.
Variable v : Z -> Z.

Definition xorInto (js : list Z) (a : list Z) : list Z :=
  fold_left (fun a j => wr a (idx (len a) j) (rd a (idx (len a) j) ⊕ v j)) js a.

Lemma xorInto_length js a : length (xorInto js a) = length a.
Proof.
  revert a. induction js as [|j js IH]; intros a; [reflexivity|].
  cbn [xorInto fold_left]. fold (xorInto js). now rewrite IH, wr_length.
Qed.

Lemma xorInto_bytes js a :
  bytesL a -> (forall j, In j js -> byte (v j)) -> bytesL (xorInto js a).
Proof.
  revert a. induction js as [|j js IH]; intros a Ha Hv; [exact Ha|].
  cbn [xorInto fold_left]. fold (xorInto js). apply IH.
  - apply bytesL_wr; [exact Ha|]. apply lxor_byte; [now apply bytesL_rd|]. apply Hv. now left.
  - intros j' Hj'. apply Hv. now right.
Qed.

Lemma xorInto_nth js a k : (k < length a)%nat ->
  nth k (xorInto js a) 0 =
  nth k a 0 ⊕ xsumL (fun j => if idx (len a) j =? Z.of_nat k then v j else 0) js.
Proof.
  revert a. induction js as [|j js IH]; intros a Hk.
  - cbn. now rewrite Z.lxor_0_r.
  - cbn [xorInto fold_left]. fold (xorInto js).
    rewrite IH by (now rewrite wr_length). rewrite len_wr, xsumL_cons, nth_wr.
    rewrite <- Z.lxor_assoc. f_equal.
    destruct (Z.eqb_spec (idx (len a) j) (Z.of_nat k)) as [Heq|Hne]; cbn [andb].
    + rewrite Heq, rd_nat. destruct (Z.ltb_spec (Z.of_nat k) (len a)); [reflexivity|].
      unfold len in *. lia.
    + now rewrite Z.lxor_0_r.
Qed.

End XorInto.

(** ** [polyMul] *)

Definition polyMul_row (p q : list Z) (result : list Z) (i : Z) : list Z :=
  xorInto (fun _ j => i + j) (fun j => rd p i ⊗ rd q j) (indices (length q)) result.

Lemma polyMul_rows p q :
  polyMul p q = fold_left (polyMul_row p q) (indices (length p))
                  (replicate (length p + length q - 1) 0).
Proof. reflexivity. Qed.

Lemma polyMul_rows_length p q rows result :
  length (fold_left (polyMul_row p q) rows result) = length result.
Proof.
  revert result. induction rows as [|i rows IH]; intros result; [reflexivity|].
  cbn [fold_left]. rewrite IH. apply xorInto_length.
Qed.

Lemma polyMul_length p q : length (polyMul p q) = (length p + length q - 1)%nat.
Proof. rewrite polyMul_rows, polyMul_rows_length. apply length_replicate. Qed.

Lemma polyMul_rows_bytes p q rows result :
  bytesL p -> bytesL q -> bytesL result ->
  bytesL (fold_left (polyMul_row p q) rows result).
Proof.
  intros Hp Hq. revert result. induction rows as [|i rows IH]; intros result Hr; [exact Hr|].
  cbn [fold_left]. apply IH. apply xorInto_bytes; [exact Hr|].
  intros j _. auto with gf.
Qed.

Lemma bytesL_replicate n : bytesL (replicate n 0).
Proof. apply Forall_replicate, byte_0. Qed.

Lemma polyMul_bytes p q : bytesL p -> bytesL q -> bytesL (polyMul p q).
Proof.
  intros Hp Hq. rewrite polyMul_rows.
  apply polyMul_rows_bytes; auto using bytesL_replicate.
Qed.

#[export] Hint Resolve polyMul_bytes bytesL_replicate : gf.

Lemma polyMul_rows_nth p q rows result k : (k < length result)%nat ->
  nth k (fold_left (polyMul_row p q) rows result) 0 =
  nth k result 0 ⊕
  xsumL (fun i => xsum (fun j => if (i + Z.of_nat j =? Z.of_nat k)
                                 then rd p i ⊗ nth j q 0 else 0) (length q)) rows.
Proof.
  revert result. induction rows as [|i rows IH]; intros result Hk.
  - cbn. now rewrite Z.lxor_0_r.
  - cbn [fold_left]. rewrite IH by (unfold polyMul_row; now rewrite xorInto_length).
    rewrite xsumL_cons, <- Z.lxor_assoc. f_equal.
    unfold polyMul_row. rewrite xorInto_nth by exact Hk. f_equal.
    rewrite xsumL_indices. apply xsum_ext. intros j Hj. now rewrite rd_nat.
Qed.

Lemma nth_replicate_0 n k : nth k (replicate n 0) 0 = 0.
Proof.
  destruct (Nat.lt_ge_cases k n).
  - now apply nth_replicate.
  - apply nth_overflow. now rewrite length_replicate.
Qed.

(** Entry [k] of the product collects the pairs of entries at distance
    [k] from the front. *)
Lemma polyMul_nth p q k : (k < length p + length q - 1)%nat ->
  nth k (polyMul p q) 0 =
  xsum (fun i => xsum (fun j => if (i + j =? k)%nat
                                then nth i p 0 ⊗ nth j q 0 else 0) (length q)) (length p).
Proof.
  intros Hk. rewrite polyMul_rows, polyMul_rows_nth by (now rewrite length_replicate).
  rewrite nth_replicate_0, Z.lxor_0_l, xsumL_indices.
  apply xsum_ext. intros i Hi. apply xsum_ext. intros j Hj. rewrite rd_nat.
  destruct (Z.eqb_spec (Z.of_nat i + Z.of_nat j) (Z.of_nat k)), (Nat.eqb_spec (i + j) k);
    try lia; reflexivity.
Qed.

(** The same by degrees. *)
Lemma polyMul_cf p q d : p <> [] -> q <> [] ->
  cf (polyMul p q) d =
  xsum (fun a => xsum (fun b => if (a + b =? d)%nat
                                then cf p a ⊗ cf q b else 0) (length q)) (length p).
Proof.
  intros Hp Hq.
  assert (Hlp : (0 < length p)%nat) by (destruct p; [contradiction|simpl; lia]).
  assert (Hlq : (0 < length q)%nat) by (destruct q; [contradiction|simpl; lia]).
  destruct (Nat.lt_ge_cases d (length p + length q - 1)) as [Hd|Hd].
  - rewrite cf_nth by (rewrite polyMul_length; exact Hd).
    rewrite polyMul_length, polyMul_nth by lia.
    rewrite xsum_rev. apply xsum_ext. intros a Ha.
    rewrite xsum_rev. apply xsum_ext. intros b Hb.
    rewrite <- !cf_nth by lia.
    destruct (Nat.eqb_spec (length p - 1 - a + (length q - 1 - b))
                (length p + length q - 1 - 1 - d)), (Nat.eqb_spec (a + b) d);
      try lia; reflexivity.
  - rewrite cf_ge by (rewrite polyMul_length; lia). symmetry.
    apply xsum_zero. intros a Ha. apply xsum_zero. intros b Hb.
    destruct (Nat.eqb_spec (a + b) d); [lia|reflexivity].
Qed.

Lemma polyEval_polyMul p q x : bytesL p -> bytesL q -> byte x -> p <> [] -> q <> [] ->
  polyEval (polyMul p q) x = polyEval p x ⊗ polyEval q x.
Proof.
  intros Hp Hq Hx Hpn Hqn.
  assert (Hlp : (0 < length p)%nat) by (destruct p; [contradiction|simpl; lia]).
  assert (Hlq : (0 < length q)%nat) by (destruct q; [contradiction|simpl; lia]).
  rewrite !polyEval_sum by auto with gf. rewrite polyMul_length.
  set (n := (length p + length q - 1)%nat).
  (* left: bring the power inside and let the degree be the innermost index *)
  transitivity (xsum (fun a => xsum (fun b => (cf p a ⊗ gpow x a) ⊗ (cf q b ⊗ gpow x b))
                                (length q)) (length p)).
  - transitivity (xsum (fun d => xsum (fun a => xsum (fun b =>
        if (a + b =? d)%nat then (cf p a ⊗ gpow x a) ⊗ (cf q b ⊗ gpow x b) else 0)
        (length q)) (length p)) n).
    + apply xsum_ext. intros d Hd. rewrite polyMul_cf by assumption.
      rewrite xsum_mul_r; [|auto with gf|].
      2:{ intros a Ha. apply xsum_byte. intros b Hb. destruct (_ =? _)%nat; auto with gf. }
      apply xsum_ext. intros a Ha.
      rewrite xsum_mul_r; [|auto with gf|].
      2:{ intros b Hb. destruct (_ =? _)%nat; auto with gf. }
      apply xsum_ext. intros b Hb.
      destruct (Nat.eqb_spec (a + b) d) as [<-|Hne]; [|apply gfMul_0_l].
      rewrite gpow_add by exact Hx.
      rewrite <- !gfMul_assoc by auto with gf. f_equal.
      rewrite !gfMul_assoc by auto with gf. f_equal. apply gfMul_comm.
    + rewrite xsum_swap. apply xsum_ext. intros a Ha.
      rewrite xsum_swap. apply xsum_ext. intros b Hb.
      rewrite (xsum_single _ n (a + b)) by (unfold n; intros; try destruct (Nat.eqb_spec (a + b) i); lia || reflexivity || lia).
      now rewrite Nat.eqb_refl.
  - rewrite xsum_mul_r; [|apply xsum_byte; intros; auto with gf|intros; auto with gf].
    apply xsum_ext. intros a Ha.
    rewrite xsum_mul_l; [reflexivity|auto with gf|intros; auto with gf].
Qed.

End RSLoops.

(** * The encoder produces words with zero syndromes *)
Module RSEncoder.
Import GF GFFacts GFField RS GFSums RSLoops.

(** ** Evaluation is linear in the coefficients *)

Lemma polyEval_lin_cf p q r c x :
  bytesL p -> bytesL q -> bytesL r -> byte c -> byte x ->
  length q = length p -> length r = length p ->
  (forall j, (j < length p)%nat -> cf p j = cf q j ⊕ c ⊗ cf r j) ->
  polyEval p x = polyEval q x ⊕ c ⊗ polyEval r x.
Proof.
  intros Hp Hq Hr Hc Hx Hlq Hlr Hcf.
  rewrite !polyEval_sum by assumption. rewrite Hlq, Hlr.
  rewrite xsum_mul_l; [|exact Hc|intros; auto with gf].
  rewrite <- xsum_lxor. apply xsum_ext. intros j Hj.
  rewrite Hcf by exact Hj. rewrite gfMul_lxor_l by auto with gf.
  f_equal. symmetry. apply gfMul_assoc; auto with gf.
Qed.

Lemma polyEval_lin p q r c x :
  bytesL p -> bytesL q -> bytesL r -> byte c -> byte x ->
  length q = length p -> length r = length p ->
  (forall k, (k < length p)%nat -> nth k p 0 = nth k q 0 ⊕ c ⊗ nth k r 0) ->
  polyEval p x = polyEval q x ⊕ c ⊗ polyEval r x.
Proof.
  intros Hp Hq Hr Hc Hx Hlq Hlr Hnth.
  apply polyEval_lin_cf; try assumption.
  intros j Hj. rewrite !cf_nth by lia. rewrite Hlq, Hlr. apply Hnth. lia.
Qed.

Lemma polyEval_cons_0 p x : polyEval (0 :: p) x = polyEval p x.
Proof. destruct p as [|a p]; reflexivity. Qed.

Lemma polyEval_zeros_l k p x : polyEval (replicate k 0 ++ p) x = polyEval p x.
Proof.
  induction k as [|k IH]; [reflexivity|].
  cbn [replicate app]. now rewrite polyEval_cons_0.
Qed.

Lemma replicate_snoc {A} (a : A) k : replicate (S k) a = replicate k a ++ [a].
Proof. induction k as [|k IH]; [reflexivity|]. cbn [replicate app] in *. now rewrite <- IH. Qed.

Lemma polyEval_zeros_r p k x : bytesL p -> byte x ->
  polyEval (p ++ replicate k 0) x = polyEval p x ⊗ gpow x k.
Proof.
  intros Hp Hx. induction k as [|k IH].
  - cbn [replicate gpow]. rewrite app_nil_r. symmetry. apply gfMul_1_r. auto with gf.
  - rewrite replicate_snoc, app_assoc, polyEval_snoc, IH, Z.lxor_0_r.
    rewrite gpow_S_r by exact Hx. symmetry. apply gfMul_assoc; auto with gf.
Qed.

Lemma polyEval_pair a b x : byte x -> polyEval [a; b] x = a ⊗ x ⊕ b.
Proof. reflexivity. Qed.

Lemma bytesL_nil : bytesL [].
Proof. constructor. Qed.

Lemma bytesL_cons a p : byte a -> bytesL p -> bytesL (a :: p).
Proof. intros Ha Hp. now constructor. Qed.

#[export] Hint Resolve bytesL_nil bytesL_cons : gf.

(** ** The generator polynomial *)

Lemma indices_S n : indices (S n) = indices n ++ [Z.of_nat n].
Proof. unfold indices. now rewrite seq_S, map_app. Qed.

Lemma rsGeneratorPoly_S n :
  rsGeneratorPoly (S n) = polyMul (rsGeneratorPoly n) [1; rd gfExp (Z.of_nat n)].
Proof. unfold rsGeneratorPoly. now rewrite indices_S, fold_left_app. Qed.

Lemma rsGeneratorPoly_length n : length (rsGeneratorPoly n) = S n.
Proof.
  induction n as [|n IH]; [reflexivity|].
  rewrite rsGeneratorPoly_S, polyMul_length, IH. simpl. lia.
Qed.

Lemma rsGeneratorPoly_bytes n : (n <= 512)%nat -> bytesL (rsGeneratorPoly n).
Proof.
  induction n as [|n IH]; intros Hn.
  - change (rsGeneratorPoly 0) with [1]. auto with gf.
  - rewrite rsGeneratorPoly_S. apply polyMul_bytes; [apply IH; lia|].
    apply bytesL_cons; [apply byte_1|]. apply bytesL_cons; [apply gfExp_byte; lia|apply bytesL_nil].
Qed.

Lemma rsGeneratorPoly_monic n : (n <= 512)%nat -> nth 0 (rsGeneratorPoly n) 0 = 1.
Proof.
  induction n as [|n IH]; intros Hn; [reflexivity|].
  rewrite rsGeneratorPoly_S, polyMul_nth by (rewrite rsGeneratorPoly_length; simpl; lia).
  rewrite rsGeneratorPoly_length.
  rewrite (xsum_single _ _ 0%nat); [|lia|].
  - rewrite (xsum_single _ _ 0%nat); [|simpl; lia|].
    + cbn [Nat.add Nat.eqb nth]. rewrite IH by lia. reflexivity.
    + intros j Hj Hne. destruct (Nat.eqb_spec (0 + j) 0); [lia|reflexivity].
  - intros i Hi Hne. apply xsum_zero. intros j Hj.
    destruct (Nat.eqb_spec (i + j) 0); [lia|reflexivity].
Qed.

Lemma rsGeneratorPoly_root n i : (n <= 512)%nat -> (i < n)%nat ->
  polyEval (rsGeneratorPoly n) (alpha i) = 0.
Proof.
  induction n as [|n IH]; intros Hn Hi; [lia|].
  rewrite rsGeneratorPoly_S, polyEval_polyMul.
  - rewrite polyEval_pair by apply alpha_byte.
    rewrite gfMul_1_l by apply alpha_byte. rewrite alpha_table by lia.
    destruct (Nat.eq_dec i n) as [->|Hne].
    + now rewrite Z.lxor_nilpotent, gfMul_0_r.
    + now rewrite IH by lia.
  - apply rsGeneratorPoly_bytes. lia.
  - apply bytesL_cons; [apply byte_1|]. apply bytesL_cons; [apply gfExp_byte; lia|apply bytesL_nil].
  - apply alpha_byte.
  - intros H. apply (f_equal (@length Z)) in H. now rewrite rsGeneratorPoly_length in H.
  - discriminate.
Qed.

(** ** The division loop *)

(** The part of the buffer still to be divided: the first [i] entries
    cleared. *)
Definition remainderAt (i : nat) (buf : list Z) : list Z :=
  replicate i 0 ++ drop i buf.

Lemma remainderAt_length i buf : (i <= length buf)%nat ->
  length (remainderAt i buf) = length buf.
Proof. intros Hi. unfold remainderAt. rewrite length_app, length_replicate, length_drop. lia. Qed.

Lemma remainderAt_nth i buf k :
  nth k (remainderAt i buf) 0 = if (k <? i)%nat then 0 else nth k buf 0.
Proof.
  unfold remainderAt. destruct (Nat.ltb_spec k i) as [Hk|Hk].
  - rewrite app_nth1 by (now rewrite length_replicate). apply nth_replicate_0.
  - rewrite app_nth2 by (now rewrite length_replicate).
    rewrite length_replicate, PolarFacts.nth_drop_add. f_equal. lia.
Qed.

Lemma bytesL_app p q : bytesL p -> bytesL q -> bytesL (p ++ q).
Proof. intros Hp Hq. apply Forall_app. now split. Qed.

Lemma bytesL_drop k p : bytesL p -> bytesL (drop k p).
Proof. apply Forall_drop. Qed.

Lemma bytesL_take k p : bytesL p -> bytesL (take k p).
Proof. apply Forall_take. Qed.

Lemma remainderAt_bytes i buf : bytesL buf -> bytesL (remainderAt i buf).
Proof. intros Hb. apply bytesL_app; [apply bytesL_replicate|now apply bytesL_drop]. Qed.


Section Division.
Variable gen : list Z.
Variable nsym : nat.
Hypothesis gen_length : length gen = S nsym.
Hypothesis gen_bytes : bytesL gen.
Hypothesis gen_monic : nth 0 gen 0 = 1.

(** One round of the outer loop. *)
Definition divide_step (msgOut : list Z) (i : Z) : list Z :=
  let coef := rd msgOut i in
  if coef =? 0 then msgOut
  else xorInto (fun _ j => i + j) (fun j => rd gen j ⊗ coef)
               (map Z.of_nat (seq 1 (length gen - 1))) msgOut.

Lemma rsEncode_divide_steps K msgOut :
  rsEncode_divide gen K msgOut = fold_left divide_step (indices K) msgOut.
Proof. reflexivity. Qed.

Lemma divide_step_length buf i : length (divide_step buf i) = length buf.
Proof.
  unfold divide_step. cbv zeta. destruct (_ =? 0); [reflexivity|apply xorInto_length].
Qed.

Lemma divide_step_bytes buf i : bytesL buf -> bytesL (divide_step buf i).
Proof.
  intros Hb. unfold divide_step. cbv zeta. destruct (_ =? 0); [exact Hb|].
  apply xorInto_bytes; [exact Hb|]. intros; auto with gf.
Qed.

Lemma divide_step_nth buf (i k : nat) : (k < length buf)%nat ->
  nth k (divide_step buf (Z.of_nat i)) 0 =
  nth k buf 0 ⊕ (if (i <? k)%nat && (k <=? i + nsym)%nat
                 then nth (k - i) gen 0 ⊗ nth i buf 0 else 0).
Proof.
  intros Hk. unfold divide_step. cbv zeta. rewrite rd_nat.
  destruct (Z.eqb_spec (nth i buf 0) 0) as [Hz|Hnz].
  - rewrite Hz, gfMul_0_r. destruct (_ && _); now rewrite Z.lxor_0_r.
  - rewrite xorInto_nth by exact Hk. f_equal.
    rewrite gen_length. replace (S nsym - 1)%nat with nsym by lia.
    rewrite xsumL_map.
    destruct ((i <? k)%nat && (k <=? i + nsym)%nat) eqn:Hrange.
    + apply andb_true_iff in Hrange. destruct Hrange as [H1 H2].
      apply Nat.ltb_lt in H1. apply Nat.leb_le in H2.
      rewrite (xsumL_single _ _ (k - i)%nat).
      * destruct (Z.eqb_spec (Z.of_nat i + Z.of_nat (k - i)) (Z.of_nat k)); [|lia].
        now rewrite rd_nat.
      * apply List.seq_NoDup.
      * apply in_seq. lia.
      * intros j Hj Hne. apply in_seq in Hj.
        destruct (Z.eqb_spec (Z.of_nat i + Z.of_nat j) (Z.of_nat k)); [lia|reflexivity].
    + apply xsumL_zero. intros j Hj. apply in_seq in Hj.
      destruct (Z.eqb_spec (Z.of_nat i + Z.of_nat j) (Z.of_nat k)); [|reflexivity].
      apply andb_false_iff in Hrange. destruct Hrange as [H1|H1].
      * apply Nat.ltb_ge in H1. lia.
      * apply Nat.leb_gt in H1. lia.
Qed.

(** The generator placed at entry [i] of a buffer of length [n]. *)
Definition genAt (i n : nat) : list Z :=
  replicate i 0 ++ gen ++ replicate (n - i - S nsym) 0.

Lemma genAt_nth i n k : (i + S nsym <= n)%nat ->
  nth k (genAt i n) 0 = if (i <=? k)%nat && (k <=? i + nsym)%nat then nth (k - i) gen 0 else 0.
Proof.
  intros Hn. unfold genAt.
  destruct (Nat.leb_spec i k) as [Hik|Hik]; cbn [andb].
  - rewrite app_nth2 by (now rewrite length_replicate). rewrite length_replicate.
    destruct (Nat.leb_spec k (i + nsym)) as [Hk|Hk].
    + now rewrite app_nth1 by (rewrite gen_length; lia).
    + rewrite app_nth2 by (rewrite gen_length; lia). apply nth_replicate_0.
  - rewrite app_nth1 by (now rewrite length_replicate). apply nth_replicate_0.
Qed.

Lemma genAt_eval i n x : byte x -> polyEval gen x = 0 -> polyEval (genAt i n) x = 0.
Proof.
  intros Hx Hroot. unfold genAt.
  now rewrite polyEval_zeros_l, polyEval_zeros_r, Hroot by assumption.
Qed.

(** A round leaves the value of the remainder at a root unchanged. *)
Lemma divide_step_eval buf (i : nat) x :
  bytesL buf -> byte x -> polyEval gen x = 0 -> (i + S nsym <= length buf)%nat ->
  polyEval (remainderAt (S i) (divide_step buf (Z.of_nat i))) x
  = polyEval (remainderAt i buf) x.
Proof.
  intros Hb Hx Hroot Hlen.
  rewrite (polyEval_lin _ (remainderAt i buf) (genAt i (length buf)) (nth i buf 0));
    auto using remainderAt_bytes, divide_step_bytes with gf.
  - rewrite genAt_eval by assumption. now rewrite gfMul_0_r, Z.lxor_0_r.
  - unfold genAt. apply bytesL_app; [apply bytesL_replicate|].
    apply bytesL_app; [exact gen_bytes|apply bytesL_replicate].
  - rewrite !remainderAt_length; rewrite ?divide_step_length; lia.
  - unfold genAt. rewrite !length_app, !length_replicate, gen_length.
    rewrite remainderAt_length; rewrite divide_step_length; lia.
  - rewrite remainderAt_length by (rewrite divide_step_length; lia).
    rewrite divide_step_length. intros k Hk.
    rewrite !remainderAt_nth, genAt_nth, divide_step_nth by lia.
    destruct (Nat.ltb_spec k (S i)) as [H1|H1]; destruct (Nat.ltb_spec k i) as [H2|H2];
      try lia.
    + destruct (Nat.leb_spec i k); [lia|]. cbn [andb]. now rewrite gfMul_0_r.
    + assert (k = i) by lia. subst k.
      rewrite Nat.leb_refl. destruct (Nat.leb_spec i (i + nsym)); [|lia]. cbn [andb].
      rewrite Nat.sub_diag, gen_monic, gfMul_1_r by auto with gf.
      now rewrite Z.lxor_nilpotent.
    + destruct (Nat.ltb_spec i k); [|lia]. destruct (Nat.leb_spec i k); [|lia].
      cbn [andb]. destruct (Nat.leb_spec k (i + nsym)); [|now rewrite gfMul_0_r].
      f_equal. apply gfMul_comm.
Qed.

Lemma rsEncode_divide_S K buf :
  rsEncode_divide gen (S K) buf = divide_step (rsEncode_divide gen K buf) (Z.of_nat K).
Proof. rewrite !rsEncode_divide_steps, indices_S. now rewrite fold_left_app. Qed.

Lemma rsEncode_divide_length K buf : length (rsEncode_divide gen K buf) = length buf.
Proof.
  induction K as [|K IH]; [reflexivity|].
  now rewrite rsEncode_divide_S, divide_step_length.
Qed.

Lemma rsEncode_divide_bytes K buf : bytesL buf -> bytesL (rsEncode_divide gen K buf).
Proof.
  intros Hb. induction K as [|K IH]; [exact Hb|].
  rewrite rsEncode_divide_S. now apply divide_step_bytes.
Qed.

Lemma rsEncode_divide_eval K buf x :
  bytesL buf -> byte x -> polyEval gen x = 0 -> (K + nsym <= length buf)%nat ->
  polyEval (remainderAt K (rsEncode_divide gen K buf)) x = polyEval buf x.
Proof.
  intros Hb Hx Hroot. induction K as [|K IH]; intros Hlen.
  - unfold remainderAt. cbn. reflexivity.
  - rewrite rsEncode_divide_S, divide_step_eval; auto using rsEncode_divide_bytes.
    + apply IH. lia.
    + rewrite rsEncode_divide_length. lia.
Qed.

End Division.

(** ** The codeword *)

Lemma rsEncode_parity msg nsym :
  rsEncode msg nsym =
  msg ++ drop (length msg)
           (rsEncode_divide (rsGeneratorPoly nsym) (length msg) (msg ++ replicate nsym 0)).
Proof.
  unfold rsEncode. cbv zeta. f_equal.
  set (buf := rsEncode_divide _ _ _).
  assert (Hlen : length buf = (length msg + nsym)%nat).
  { unfold buf. rewrite rsEncode_divide_length, length_app, length_replicate. reflexivity. }
  apply (nth_ext _ _ 0 0).
  - rewrite length_map, length_drop. unfold indices. rewrite length_map, length_seq. lia.
  - unfold indices. rewrite !length_map, length_seq. intros i Hi.
    rewrite (nth_map_lt _ _ _ _ 0) by (rewrite length_map, length_seq; lia).
    rewrite (nth_map_lt _ _ _ _ 0%nat) by (rewrite length_seq; lia).
    rewrite seq_nth by lia. unfold len. rewrite <- Nat2Z.inj_add, rd_nat.
    rewrite PolarFacts.nth_drop_add. reflexivity.
Qed.

Lemma rsEncode_length msg nsym : length (rsEncode msg nsym) = (length msg + nsym)%nat.
Proof.
  rewrite rsEncode_parity, length_app, length_drop, rsEncode_divide_length.
  rewrite length_app, length_replicate. lia.
Qed.

Lemma rsEncode_bytes msg nsym : bytesL msg -> (nsym <= 512)%nat -> bytesL (rsEncode msg nsym).
Proof.
  intros Hm Hn. rewrite rsEncode_parity. apply bytesL_app; [exact Hm|].
  apply bytesL_drop, rsEncode_divide_bytes.
  - now apply rsGeneratorPoly_bytes.
  - apply bytesL_app; [exact Hm|apply bytesL_replicate].
Qed.

Lemma rsEncode_systematic msg nsym : take (length msg) (rsEncode msg nsym) = msg.
Proof. rewrite rsEncode_parity. now rewrite take_app_length. Qed.

(** Every codeword evaluates to zero at the first [nsym] powers of the
    generator. *)
Lemma rsEncode_root msg nsym i : bytesL msg -> (nsym <= 512)%nat -> (i < nsym)%nat ->
  polyEval (rsEncode msg nsym) (alpha i) = 0.
Proof.
  intros Hm Hn Hi. rewrite rsEncode_parity.
  set (gen := rsGeneratorPoly nsym). set (buf := msg ++ replicate nsym 0).
  set (final := rsEncode_divide gen (length msg) buf).
  assert (Hgl : length gen = S nsym) by apply rsGeneratorPoly_length.
  assert (Hgb : bytesL gen) by (now apply rsGeneratorPoly_bytes).
  assert (Hgm : nth 0 gen 0 = 1) by (now apply rsGeneratorPoly_monic).
  assert (Hbb : bytesL buf) by (apply bytesL_app; [exact Hm|apply bytesL_replicate]).
  assert (Hbl : length buf = (length msg + nsym)%nat)
    by (unfold buf; now rewrite length_app, length_replicate).
  assert (Hfl : length final = (length msg + nsym)%nat)
    by (unfold final; now rewrite rsEncode_divide_length).
  assert (Hfb : bytesL final) by (now apply rsEncode_divide_bytes).
  assert (Hroot : polyEval gen (alpha i) = 0) by (now apply rsGeneratorPoly_root).
  rewrite (polyEval_lin _ buf (remainderAt (length msg) final) 1).
  - rewrite gfMul_1_l by (apply polyEval_byte; [now apply remainderAt_bytes|apply alpha_byte]).
    unfold final. rewrite (rsEncode_divide_eval gen nsym Hgl Hgb Hgm) by (auto using alpha_byte; lia).
    apply Z.lxor_nilpotent.
  - apply bytesL_app; [exact Hm|now apply bytesL_drop].
  - exact Hbb.
  - now apply remainderAt_bytes.
  - apply byte_1.
  - apply alpha_byte.
  - rewrite length_app, length_drop. lia.
  - rewrite remainderAt_length, length_app, length_drop; lia.
  - rewrite length_app, length_drop, Hfl. intros k Hk.
    rewrite remainderAt_nth. rewrite gfMul_1_l by (destruct (_ <? _)%nat; auto with gf).
    unfold buf. destruct (Nat.ltb_spec k (length msg)) as [Hlt|Hge].
    + rewrite !app_nth1 by lia. now rewrite Z.lxor_0_r.
    + rewrite !app_nth2 by lia. rewrite nth_replicate_0, Z.lxor_0_l.
      rewrite PolarFacts.nth_drop_add. f_equal. lia.
Qed.

End RSEncoder.

(** * The received word and its syndromes *)
Module RSChannel.
Import GF GFFacts GFField GFRing RS GFSums RSLoops RSEncoder.

Lemma land_255_byte a : byte a -> Z.land a 255 = a.
Proof.
  intros Ha.
  assert (H := byte_cases (fun a => Z.land a 255 =? a) ltac:(vm_compute; reflexivity) a Ha).
  cbv beta in H. lia.
Qed.

(** The error value at entry [k] of the word: all bits flipped at the
    positions of the set. *)
Definition errAt (errors : list Z) (k : nat) : Z :=
  if bool_decide (Z.of_nat k ∈ errors) then 255 else 0.

Lemma errAt_byte errors k : byte (errAt errors k).
Proof. unfold errAt. destruct (bool_decide _); auto with gf. Qed.

#[export] Hint Resolve errAt_byte : gf.

Lemma received_cons enc p errors :
  received enc (p :: errors) =
  received (if p <? len enc
            then wr enc p (Z.land (Z.lxor (rd enc p) 0xff) 0xff) else enc) errors.
Proof. reflexivity. Qed.

Lemma received_length enc errors : length (received enc errors) = length enc.
Proof.
  revert enc. induction errors as [|p errors IH]; intros enc; [reflexivity|].
  rewrite received_cons, IH. destruct (p <? len enc); [apply wr_length|reflexivity].
Qed.

Lemma received_nth enc errors k :
  bytesL enc -> NoDup errors -> (k < length enc)%nat ->
  nth k (received enc errors) 0 = nth k enc 0 ⊕ errAt errors k.
Proof.
  intros Hb Hnd Hk. revert enc Hb Hk.
  induction errors as [|p errors IH]; intros enc Hb Hk.
  - unfold errAt. rewrite bool_decide_eq_false_2 by (apply not_elem_of_nil).
    cbn. now rewrite Z.lxor_0_r.
  - apply NoDup_cons in Hnd. destruct Hnd as [Hp Hnd].
    rewrite received_cons.
    assert (Hflip : Z.land (rd enc p ⊕ 255) 255 = rd enc p ⊕ 255)
      by (apply land_255_byte; auto with gf).
    rewrite Hflip.
    set (enc' := if p <? len enc then wr enc p (rd enc p ⊕ 255) else enc).
    assert (Hb' : bytesL enc') by (unfold enc'; destruct (_ <? _); auto with gf).
    assert (Hl' : length enc' = length enc)
      by (unfold enc'; destruct (_ <? _); [apply wr_length|reflexivity]).
    rewrite (IH Hnd enc' Hb') by lia.
    unfold errAt at 2. unfold errAt.
    destruct (Z.eq_dec p (Z.of_nat k)) as [->|Hne].
    + rewrite (bool_decide_eq_false_2 _ Hp).
      rewrite bool_decide_eq_true_2 by (apply list_elem_of_here).
      rewrite Z.lxor_0_r. unfold enc'.
      destruct (Z.ltb_spec (Z.of_nat k) (len enc)) as [_|Hge]; [|unfold len in Hge; lia].
      rewrite nth_wr, Z.eqb_refl, rd_nat.
      destruct (Z.ltb_spec (Z.of_nat k) (len enc)) as [_|Hge]; [reflexivity|].
      unfold len in Hge; lia.
    + assert (Hsame : nth k enc' 0 = nth k enc 0).
      { unfold enc'. destruct (_ <? _); [|reflexivity].
        rewrite nth_wr. destruct (Z.eqb_spec p (Z.of_nat k)); [contradiction|reflexivity]. }
      rewrite Hsame. f_equal.
      destruct (bool_decide (Z.of_nat k ∈ errors)) eqn:Hin.
      * apply bool_decide_eq_true in Hin.
        rewrite bool_decide_eq_true_2 by (now apply list_elem_of_further). reflexivity.
      * apply bool_decide_eq_false in Hin.
        rewrite bool_decide_eq_false_2; [reflexivity|].
        intros H. apply elem_of_cons in H. destruct H as [H|H]; [congruence|contradiction].
Qed.

Lemma received_bytes enc errors : bytesL enc -> bytesL (received enc errors).
Proof.
  revert enc. induction errors as [|p errors IH]; intros enc Hb; [exact Hb|].
  rewrite received_cons. apply IH. destruct (_ <? _); [|exact Hb].
  apply bytesL_wr; [exact Hb|].
  assert (H : byte (rd enc p ⊕ 255)) by auto with gf.
  now rewrite land_255_byte.
Qed.

(** The error word. *)
Definition errWord (errors : list Z) (n : nat) : list Z := map (errAt errors) (seq 0 n).

Lemma errWord_length errors n : length (errWord errors n) = n.
Proof. unfold errWord. now rewrite length_map, length_seq. Qed.

Lemma errWord_nth errors n k : (k < n)%nat -> nth k (errWord errors n) 0 = errAt errors k.
Proof. intros Hk. unfold errWord. now rewrite nth_map_seq. Qed.

Lemma errWord_bytes errors n : bytesL (errWord errors n).
Proof.
  unfold errWord, bytesL. apply Forall_forall. intros x Hx.
  apply list_elem_of_In, in_map_iff in Hx. destruct Hx as (k & <- & _). apply errAt_byte.
Qed.

Lemma received_eval enc errors x :
  bytesL enc -> NoDup errors -> byte x ->
  polyEval (received enc errors) x
  = polyEval enc x ⊕ polyEval (errWord errors (length enc)) x.
Proof.
  intros Hb Hnd Hx.
  rewrite (polyEval_lin _ enc (errWord errors (length enc)) 1);
    auto using received_bytes, errWord_bytes, byte_1, received_length, errWord_length.
  - rewrite gfMul_1_l; [reflexivity|]. apply polyEval_byte; auto using errWord_bytes.
  - rewrite received_length, errWord_length. reflexivity.
  - rewrite received_length. intros k Hk.
    rewrite received_nth, errWord_nth by assumption.
    now rewrite gfMul_1_l by auto with gf.
Qed.

(** ** The error locations as field elements *)

Lemma NoDup_map_inj {A B : Type} (h : A -> B) (l : list A) :
  (forall x y, In x l -> In y l -> h x = h y -> x = y) ->
  List.NoDup l -> List.NoDup (map h l).
Proof.
  intros Hinj Hnd. apply List.NoDup_map_NoDup_ForallPairs; [|exact Hnd].
  intros x y Hx Hy. now apply Hinj.
Qed.

Section Locations.
Variable errors : list Z.
Variable n : nat.

(** The exponents [i] whose position [n - 1 - i] is in error, ascending. *)
Definition errExps : list nat :=
  List.filter (fun i => bool_decide (Z.of_nat (n - 1 - i) ∈ errors)) (seq 0 n).

(** The error locators [X = alpha^i]. *)
Definition errXs : list Z := map alpha errExps.

Lemma errExps_spec i :
  In i errExps <-> (i < n)%nat /\ Z.of_nat (n - 1 - i) ∈ errors.
Proof.
  unfold errExps. rewrite filter_In, in_seq, bool_decide_eq_true. intuition lia.
Qed.

Lemma errExps_NoDup : List.NoDup errExps.
Proof. apply List.NoDup_filter, List.seq_NoDup. Qed.

Lemma errXs_bytes : bytesL errXs.
Proof.
  unfold errXs, bytesL. apply Forall_forall. intros x Hx.
  apply list_elem_of_In, in_map_iff in Hx. destruct Hx as (k & <- & _). apply alpha_byte.
Qed.

Lemma errXs_nonzero X : In X errXs -> X <> 0.
Proof. intros Hx. apply in_map_iff in Hx. destruct Hx as (k & <- & _). apply alpha_nonzero. Qed.

Lemma errXs_NoDup : (n <= 255)%nat -> List.NoDup errXs.
Proof.
  intros Hn. unfold errXs. apply NoDup_map_inj; [|apply errExps_NoDup].
  intros i j Hi Hj. apply errExps_spec in Hi, Hj. apply alpha_inj; lia.
Qed.

Lemma errXs_length : NoDup errors -> (length errXs <= length errors)%nat.
Proof.
  intros Hnd. unfold errXs. rewrite length_map.
  rewrite <- (length_map (fun i => Z.of_nat (n - 1 - i)) errExps).
  apply List.NoDup_incl_length.
  - apply NoDup_map_inj; [|apply errExps_NoDup].
    intros i j Hi Hj. apply errExps_spec in Hi, Hj. lia.
  - intros p Hp. apply in_map_iff in Hp. destruct Hp as (i & <- & Hi).
    apply errExps_spec in Hi. apply list_elem_of_In. tauto.
Qed.

(** The error word evaluated at a power of the generator is a power sum
    over the locators. *)
Lemma errWord_eval k :
  polyEval (errWord errors n) (alpha k) = 255 ⊗ xsumL (fun X => gpow X k) errXs.
Proof.
  rewrite polyEval_sum by (auto using errWord_bytes, alpha_byte).
  rewrite errWord_length. unfold errXs. rewrite xsumL_map.
  rewrite xsumL_mul_l by (intros; auto with gf).
  unfold errExps. rewrite <- xsumL_filter. unfold xsum.
  apply xsumL_ext. intros j Hj. apply in_seq in Hj.
  rewrite cf_nth by (rewrite errWord_length; lia).
  rewrite errWord_length, errWord_nth by lia.
  unfold errAt. rewrite !gpow_alpha. rewrite (Nat.mul_comm k j).
  destruct (bool_decide _); [reflexivity|apply gfMul_0_l].
Qed.

(** Without locators no entry is in error. *)
Lemma errAt_no_locators k : errXs = [] -> (k < n)%nat -> errAt errors k = 0.
Proof.
  intros Hnil Hk. unfold errAt.
  destruct (bool_decide (Z.of_nat k ∈ errors)) eqn:Hin; [|reflexivity].
  apply bool_decide_eq_true in Hin. exfalso.
  assert (Hi : In (n - 1 - k)%nat errExps).
  { apply errExps_spec. split; [lia|]. now replace (n - 1 - (n - 1 - k))%nat with k by lia. }
  unfold errXs in Hnil. destruct errExps; [destruct Hi|discriminate].
Qed.

End Locations.

End RSChannel.

(** * Locator polynomials, roots and power sums *)
Module RSLocator.
Import GF GFFacts GFField GFRing RS GFSums RSLoops RSEncoder RSChannel.

(** ** Products over a list *)

Definition prodL (f : Z -> Z) (l : list Z) : Z :=
  fold_right (fun X acc => acc ⊗ f X) 1 l.

Lemma prodL_byte f l : (forall X, In X l -> byte (f X)) -> byte (prodL f l).
Proof.
  induction l as [|X l IH]; intros H; [apply byte_1|].
  cbn [prodL fold_right]. apply gfMul_byte; [apply IH|apply H; now left].
  intros Y HY. apply H. now right.
Qed.

Lemma prodL_zero f l X : (forall Y, In Y l -> byte (f Y)) -> In X l -> f X = 0 -> prodL f l = 0.
Proof.
  induction l as [|Y l IH]; intros Hb Hin Hz; [destruct Hin|].
  cbn [prodL fold_right]. destruct Hin as [->|Hin].
  - now rewrite Hz, gfMul_0_r.
  - fold (prodL f l). rewrite IH; auto. intros Z0 HZ. apply Hb. now right.
Qed.

Lemma prodL_nonzero f l :
  (forall Y, In Y l -> byte (f Y)) -> (forall Y, In Y l -> f Y <> 0) -> prodL f l <> 0.
Proof.
  induction l as [|Y l IH]; intros Hb Hnz; [discriminate|].
  cbn [prodL fold_right]. fold (prodL f l). apply gfMul_neq_0.
  - apply prodL_byte. intros Z0 HZ. apply Hb. now right.
  - apply Hb. now left.
  - apply IH; intros Z0 HZ; [apply Hb|apply Hnz]; now right.
  - apply Hnz. now left.
Qed.

(** ** Multiplying by a linear factor *)

Lemma polyMul_nonempty p q : p <> [] -> q <> [] -> polyMul p q <> [].
Proof.
  intros Hp Hq H. apply (f_equal (@length Z)) in H. rewrite polyMul_length in H.
  destruct p, q; try contradiction. simpl in H. lia.
Qed.

Lemma cf_pair_0 a b : cf [a; b] 0 = b.
Proof. reflexivity. Qed.

Lemma cf_pair_1 a b : cf [a; b] 1 = a.
Proof. reflexivity. Qed.

(** [p * (a x + b)] coefficient by coefficient. *)
Lemma polyMul_linear_cf p a b d : p <> [] -> bytesL p -> byte a -> byte b ->
  cf (polyMul p [a; b]) d =
  cf p d ⊗ b ⊕ (match d with O => 0 | S d' => cf p d' ⊗ a end).
Proof.
  intros Hp Hb Ha Hbb. rewrite polyMul_cf by (assumption || discriminate).
  cbn [length]. 
  transitivity (xsum (fun i => (if (i + 0 =? d)%nat then cf p i ⊗ b else 0) ⊕
                               (if (i + 1 =? d)%nat then cf p i ⊗ a else 0)) (length p)).
  { apply xsum_ext. intros i Hi. rewrite !xsum_S, xsum_0, Z.lxor_0_l.
    now rewrite cf_pair_0, cf_pair_1. }
  rewrite xsum_lxor. f_equal.
  - destruct (Nat.lt_ge_cases d (length p)) as [Hd|Hd].
    + rewrite (xsum_single _ _ d Hd).
      * now rewrite Nat.add_0_r, Nat.eqb_refl.
      * intros i Hi Hne. destruct (Nat.eqb_spec (i + 0) d); [lia|reflexivity].
    + rewrite (cf_ge p d Hd), gfMul_0_l. apply xsum_zero. intros i Hi.
      destruct (Nat.eqb_spec (i + 0) d); [lia|reflexivity].
  - destruct d as [|d'].
    + apply xsum_zero. intros i Hi. destruct (Nat.eqb_spec (i + 1) 0); [lia|reflexivity].
    + destruct (Nat.lt_ge_cases d' (length p)) as [Hd|Hd].
      * rewrite (xsum_single _ _ d' Hd).
        -- destruct (Nat.eqb_spec (d' + 1) (S d')); [reflexivity|lia].
        -- intros i Hi Hne. destruct (Nat.eqb_spec (i + 1) (S d')); [lia|reflexivity].
      * rewrite (cf_ge p d' Hd), gfMul_0_l. apply xsum_zero. intros i Hi.
        destruct (Nat.eqb_spec (i + 1) (S d')); [lia|reflexivity].
Qed.

(** Linear factors can be multiplied in either order. *)
Lemma polyMul_linear_comm p a b : p <> [] -> bytesL p -> byte a -> byte b ->
  polyMul (polyMul p [a; 1]) [b; 1] = polyMul (polyMul p [b; 1]) [a; 1].
Proof.
  intros Hp Hbp Ha Hb.
  assert (Hne : forall c, polyMul p [c; 1] <> []) by (intros c; apply polyMul_nonempty; easy).
  apply list_eq_cf; [now rewrite !polyMul_length|].
  intros d _.
  rewrite !polyMul_linear_cf by (auto with gf).
  destruct d as [|d'].
  - rewrite ?polyMul_linear_cf by (auto with gf). gf_ring.
  - rewrite ?polyMul_linear_cf by (auto with gf).
    destruct d' as [|d'']; gf_ring.
Qed.

(** ** The locator of a list of error locations *)

(** The product of the factors [X x + 1]. *)
Fixpoint lamOf (Xs : list Z) : list Z :=
  match Xs with
  | [] => [1]
  | X :: Xs' => polyMul (lamOf Xs') [X; 1]
  end.

Lemma lamOf_length Xs : length (lamOf Xs) = S (length Xs).
Proof.
  induction Xs as [|X Xs IH]; [reflexivity|].
  cbn [lamOf length]. rewrite polyMul_length, IH. simpl. lia.
Qed.

Lemma lamOf_nonempty Xs : lamOf Xs <> [].
Proof. intros H. apply (f_equal (@length Z)) in H. now rewrite lamOf_length in H. Qed.

Lemma lamOf_bytes Xs : bytesL Xs -> bytesL (lamOf Xs).
Proof.
  induction Xs as [|X Xs IH]; intros Hb.
  - cbn. auto with gf.
  - apply Forall_cons in Hb. destruct Hb as [HX Hb]. cbn [lamOf].
    apply polyMul_bytes; [now apply IH|auto with gf].
Qed.

Lemma lamOf_cf0 Xs : bytesL Xs -> cf (lamOf Xs) 0 = 1.
Proof.
  induction Xs as [|X Xs IH]; intros Hb; [reflexivity|].
  apply Forall_cons in Hb. destruct Hb as [HX Hb]. cbn [lamOf].
  rewrite polyMul_linear_cf by (auto using lamOf_nonempty, lamOf_bytes with gf).
  rewrite IH by exact Hb. reflexivity.
Qed.

Lemma lamOf_eval Xs x : bytesL Xs -> byte x ->
  polyEval (lamOf Xs) x = prodL (fun X => X ⊗ x ⊕ 1) Xs.
Proof.
  intros Hb Hx. induction Xs as [|X Xs IH]; [reflexivity|].
  apply Forall_cons in Hb. destruct Hb as [HX Hb]. cbn [lamOf prodL fold_right].
  rewrite polyEval_polyMul;
    [|now apply lamOf_bytes|auto with gf|exact Hx|apply lamOf_nonempty|discriminate].
  rewrite IH by exact Hb. reflexivity.
Qed.

(** Reversing the coefficients of a product. *)
Lemma cf_rev p d : cf (rev p) d = nth d p 0.
Proof. unfold cf. now rewrite rev_involutive. Qed.

Lemma polyMul_rev p q : p <> [] -> q <> [] ->
  rev (polyMul p q) = polyMul (rev p) (rev q).
Proof.
  intros Hp Hq.
  assert (Hrp : rev p <> []) by (intros H; apply Hp; now rewrite <- (rev_involutive p), H).
  assert (Hrq : rev q <> []) by (intros H; apply Hq; now rewrite <- (rev_involutive q), H).
  apply list_eq_cf; [now rewrite length_rev, !polyMul_length, !length_rev|].
  rewrite length_rev, polyMul_length. intros d Hd.
  rewrite cf_rev, polyMul_nth, polyMul_cf by assumption.
  rewrite !length_rev. apply xsum_ext. intros i Hi. apply xsum_ext. intros j Hj.
  now rewrite !cf_rev.
Qed.

Lemma lamOf_rev_eval Xs x : bytesL Xs -> byte x ->
  polyEval (rev (lamOf Xs)) x = prodL (fun X => x ⊕ X) Xs.
Proof.
  intros Hb Hx. induction Xs as [|X Xs IH]; [reflexivity|].
  apply Forall_cons in Hb. destruct Hb as [HX Hb]. cbn [lamOf prodL fold_right].
  rewrite polyMul_rev by (auto using lamOf_nonempty; discriminate).
  change (rev [X; 1]) with [1; X].
  rewrite polyEval_polyMul;
    [|now apply bytesL_rev, lamOf_bytes|auto with gf|exact Hx| |discriminate].
  - rewrite IH by exact Hb. rewrite polyEval_pair by exact Hx.
    now rewrite gfMul_1_l by exact Hx.
  - intros H. apply (lamOf_nonempty Xs). now rewrite <- (rev_involutive (lamOf Xs)), H.
Qed.

Lemma lamOf_rev_root Xs X : bytesL Xs -> In X Xs -> polyEval (rev (lamOf Xs)) X = 0.
Proof.
  intros Hb Hin.
  assert (HX : byte X).
  { unfold bytesL in Hb. rewrite Forall_forall in Hb. apply Hb, list_elem_of_In, Hin. }
  rewrite lamOf_rev_eval by assumption.
  apply (prodL_zero _ _ X); [|exact Hin|apply Z.lxor_nilpotent].
  intros Y HY. apply lxor_byte; [exact HX|].
  unfold bytesL in Hb. rewrite Forall_forall in Hb. apply Hb, list_elem_of_In, HY.
Qed.

Lemma lamOf_lead Xs : bytesL Xs -> nth 0 (lamOf Xs) 0 = prodL (fun X => X) Xs.
Proof.
  induction Xs as [|X Xs IH]; intros Hb; [reflexivity|].
  apply Forall_cons in Hb. destruct Hb as [HX Hb]. cbn [lamOf prodL fold_right].
  rewrite <- cf_rev, polyMul_rev by (auto using lamOf_nonempty; discriminate).
  change (rev [X; 1]) with [1; X].
  rewrite polyMul_cf.
  2:{ intros H. apply (lamOf_nonempty Xs). now rewrite <- (rev_involutive (lamOf Xs)), H. }
  2:{ discriminate. }
  rewrite length_rev, lamOf_length.
  rewrite (xsum_single _ _ 0%nat); [|lia|].
  - cbn [length]. rewrite (xsum_single _ _ 0%nat); [|lia|].
    + cbn [Nat.add Nat.eqb]. rewrite cf_rev, IH by exact Hb. reflexivity.
    + intros j Hj Hne. destruct (Nat.eqb_spec (0 + j) 0); [lia|reflexivity].
  - intros i Hi Hne. apply xsum_zero. intros j Hj.
    destruct (Nat.eqb_spec (i + j) 0); [lia|reflexivity].
Qed.

End RSLocator.

(** * Linear recurrences over power sums *)
Module RSRecurrence.
Import GF GFFacts GFField GFRing RS GFSums RSLoops RSEncoder RSChannel RSLocator.

Lemma bytesL_In (l : list Z) X : bytesL l -> In X l -> byte X.
Proof.
  intros Hl HX. unfold bytesL in Hl. rewrite Forall_forall in Hl.
  apply Hl, list_elem_of_In, HX.
Qed.

(** ** Power sums that vanish *)

(** If the weighted power sums of distinct elements vanish for as many
    exponents as there are elements, every weight is zero. *)
Lemma vandermonde Xs : bytesL Xs -> List.NoDup Xs ->
  forall y : Z -> Z,
    (forall X, byte X -> byte (y X)) ->
    (forall t, (t < length Xs)%nat -> xsumL (fun X => y X ⊗ gpow X t) Xs = 0) ->
    forall X, In X Xs -> y X = 0.
Proof.
  induction Xs as [|X0 Xs IH]; intros Hb Hnd y Hy Hsum X HX; [destruct HX|].
  apply Forall_cons in Hb. destruct Hb as [HX0 Hb].
  inversion Hnd as [|? ? Hnotin Hnd']; subst.
  assert (Htail : forall t, (t <= length Xs)%nat ->
            xsumL (fun X => y X ⊗ gpow X t) Xs = y X0 ⊗ gpow X0 t).
  { intros t Ht. specialize (Hsum t ltac:(simpl; lia)).
    rewrite xsumL_cons in Hsum. apply Z.lxor_eq in Hsum. cbv beta in Hsum.
    symmetry. exact Hsum. }
  assert (Hrest : forall Y, In Y Xs -> y Y = 0).
  { intros Y HY.
    assert (HYb : byte Y) by exact (bytesL_In Xs Y Hb HY).
    assert (Hz : y Y ⊗ (Y ⊕ X0) = 0).
    { apply (IH Hb Hnd' (fun X => y X ⊗ (X ⊕ X0))); [intros; auto with gf| |exact HY].
      intros t Ht.
      transitivity (xsumL (fun X => y X ⊗ gpow X (S t)) Xs
                    ⊕ X0 ⊗ xsumL (fun X => y X ⊗ gpow X t) Xs).
      - rewrite xsumL_mul_l; [|exact HX0|].
        2:{ intros Z0 HZ. pose proof (bytesL_In _ _ Hb HZ). auto with gf. }
        rewrite <- xsumL_lxor. apply xsumL_ext. intros Z0 HZ.
        pose proof (bytesL_In _ _ Hb HZ) as HZb. pose proof (Hy Z0 HZb) as HyZ.
        cbv beta. cbn [gpow]. gf_ring.
      - rewrite !Htail by lia. pose proof (Hy X0 HX0). cbn [gpow]. gf_ring. }
    apply gfMul_eq_0 in Hz; auto with gf. destruct Hz as [Hz|Hz]; [exact Hz|].
    apply Z.lxor_eq in Hz. subst Y. contradiction. }
  destruct HX as [<-|HX]; [|now apply Hrest].
  specialize (Htail 0%nat ltac:(lia)). cbn [gpow] in Htail.
  rewrite gfMul_1_r in Htail by auto. rewrite <- Htail.
  apply xsumL_zero. intros Y HY. now rewrite (Hrest Y HY), gfMul_0_l.
Qed.

(** ** Division by a linear factor *)

Lemma linear_division P r : bytesL P -> byte r -> P <> [] ->
  exists Q, bytesL Q /\ S (length Q) = length P /\
    (forall x, byte x -> polyEval P x = (x ⊕ r) ⊗ polyEval Q x ⊕ polyEval P r) /\
    ((forall k, nth k Q 0 = 0) -> polyEval P r = 0 -> forall k, nth k P 0 = 0).
Proof.
  intros Hb Hr. induction P as [|c P IH] using rev_ind; intros Hne; [contradiction|].
  apply Forall_app in Hb. destruct Hb as [Hb Hc]. apply Forall_cons in Hc.
  destruct Hc as [Hc _].
  destruct P as [|a P'].
  - exists []. repeat split; auto with gf.
    + intros x Hx. cbn [app]. change (polyEval [c] x) with c. change (polyEval [c] r) with c.
      change (polyEval [] x) with 0. gf_ring.
    + intros _ Hz k. change (c = 0) in Hz. rewrite Hz.
      destruct k as [|[|k]]; reflexivity.
  - destruct (IH Hb ltac:(discriminate)) as (Q & HQb & HQl & HQe & HQz).
    set (P := a :: P') in *.
    exists (Q ++ [polyEval P r]). split; [|split; [|split]].
    + apply bytesL_app; [exact HQb|auto with gf].
    + rewrite !length_app. cbn [length]. lia.
    + intros x Hx. rewrite !polyEval_snoc, (HQe x Hx).
      assert (byte (polyEval Q x)) by auto with gf.
      assert (byte (polyEval P r)) by auto with gf.
      gf_ring.
    + intros Hz Hroot k.
      assert (HQ0 : forall k, nth k Q 0 = 0).
      { intros j. destruct (Nat.lt_ge_cases j (length Q)) as [Hj|Hj].
        - transitivity (nth j (Q ++ [polyEval P r]) 0); [|apply Hz].
          symmetry. now apply app_nth1.
        - now apply nth_overflow. }
      assert (HPr : polyEval P r = 0).
      { transitivity (nth (length Q) (Q ++ [polyEval P r]) 0); [|apply Hz].
        rewrite app_nth2 by lia. now rewrite Nat.sub_diag. }
      rewrite polyEval_snoc, HPr, gfMul_0_l, Z.lxor_0_l in Hroot. subst c.
      destruct (Nat.lt_ge_cases k (length P)) as [Hk|Hk].
      * rewrite app_nth1 by exact Hk. now apply HQz.
      * rewrite app_nth2 by exact Hk. destruct (k - length P)%nat as [|[|?]]; reflexivity.
Qed.

(** A polynomial with more distinct roots than its degree is zero. *)
Lemma root_bound Xs : bytesL Xs -> List.NoDup Xs ->
  forall P, bytesL P -> (length P <= length Xs)%nat ->
    (forall X, In X Xs -> polyEval P X = 0) -> forall k, nth k P 0 = 0.
Proof.
  induction Xs as [|r Xs IH]; intros Hb Hnd P HP Hlen Hroots k.
  - destruct P; [now destruct k|simpl in Hlen; lia].
  - apply Forall_cons in Hb. destruct Hb as [Hr Hb].
    inversion Hnd as [|? ? Hnotin Hnd']; subst.
    destruct (list_eq_dec P []) as [->|Hne]; [now destruct k|].
    destruct (linear_division P r HP Hr Hne) as (Q & HQb & HQl & HQe & HQz).
    apply HQz; [|apply Hroots; now left].
    apply (IH Hb Hnd' Q HQb); [simpl in Hlen; lia|].
    intros X HX. assert (HXb : byte X) by exact (bytesL_In Xs X Hb HX).
    pose proof (HQe X HXb) as He.
    rewrite (Hroots X (or_intror HX)), (Hroots r (or_introl eq_refl)), Z.lxor_0_r in He.
    symmetry in He. apply gfMul_eq_0 in He; auto with gf.
    destruct He as [He|He]; [|exact He].
    apply Z.lxor_eq in He. subst X. contradiction.
Qed.

(** ** Discrepancies *)

Section PowerSums.
Variable Xs : list Z.
Variable eps : Z.
Variable N : nat.
Variable s : nat -> Z.
Hypothesis Xs_bytes : bytesL Xs.
Hypothesis Xs_NoDup : List.NoDup Xs.
Hypothesis eps_byte : byte eps.
Hypothesis eps_nonzero : eps <> 0.
Hypothesis s_byte : forall k, byte (s k).
Hypothesis s_sum : forall k, (k < N)%nat -> s k = eps ⊗ xsumL (fun X => gpow X k) Xs.

(** The discrepancy of the recurrence with coefficients [p] at index [k]:
    the sum of [p_j s_(k-j)]. *)
Definition disc (p : list Z) (k : nat) : Z :=
  xsum (fun j => cf p j ⊗ s (k - j)) (length p).

Lemma disc_byte p k : bytesL p -> byte (disc p k).
Proof. intros Hp. apply xsum_byte. intros; auto with gf. Qed.

Lemma rev_eval_sum p X : bytesL p -> byte X -> p <> [] ->
  polyEval (rev p) X = xsum (fun j => cf p j ⊗ gpow X (length p - 1 - j)) (length p).
Proof.
  intros Hp HX Hne. rewrite polyEval_sum by (auto using bytesL_rev).
  rewrite length_rev, xsum_rev. apply xsum_ext. intros j Hj.
  rewrite cf_rev, (nth_cf p) by lia. f_equal. f_equal. lia.
Qed.

Lemma disc_hat p k : bytesL p -> p <> [] -> (length p - 1 <= k)%nat -> (k < N)%nat ->
  disc p k =
  eps ⊗ xsumL (fun X => polyEval (rev p) X ⊗ gpow X (k - (length p - 1))) Xs.
Proof.
  intros Hp Hne Hk HkN. unfold disc.
  transitivity (xsum (fun j => eps ⊗ xsumL (fun X => cf p j ⊗ gpow X (k - j)) Xs) (length p)).
  { apply xsum_ext. intros j Hj. rewrite s_sum by lia.
    assert (Hpw : forall X, In X Xs -> byte (gpow X (k - j))).
    { intros X HX. pose proof (bytesL_In _ _ Xs_bytes HX). auto with gf. }
    rewrite (xsumL_mul_l eps) by (assumption || exact Hpw).
    rewrite (xsumL_mul_l (cf p j)); [|auto with gf|intros; auto with gf].
    rewrite (xsumL_mul_l eps); [|exact eps_byte|intros; auto with gf].
    apply xsumL_ext. intros X HX. pose proof (Hpw X HX).
    assert (byte (cf p j)) by auto with gf. gf_ring. }
  rewrite <- xsum_mul_l; [|exact eps_byte|].
  2:{ intros j Hj. apply xsumL_byte. intros X HX.
      pose proof (bytesL_In _ _ Xs_bytes HX). auto with gf. }
  f_equal. unfold xsum. rewrite xsumL_swap. apply xsumL_ext. intros X HX.
  pose proof (bytesL_In _ _ Xs_bytes HX) as HXb.
  rewrite rev_eval_sum by assumption.
  rewrite xsum_mul_r; [|auto with gf|intros; auto with gf].
  apply xsumL_ext. intros j Hj. apply in_seq in Hj.
  replace (k - j)%nat with ((length p - 1 - j) + (k - (length p - 1)))%nat by lia.
  rewrite gpow_add by exact HXb.
  assert (byte (cf p j)) by auto with gf. gf_ring.
Qed.

(** A recurrence that annihilates enough of the sequence has every
    location among the roots of its reversed polynomial. *)
Lemma generates_roots C :
  bytesL C -> C <> [] -> (length C - 1 + length Xs <= N)%nat ->
  (forall k, (length C - 1 <= k)%nat -> (k < N)%nat -> disc C k = 0) ->
  forall X, In X Xs -> polyEval (rev C) X = 0.
Proof.
  intros HC Hne Hlen Hgen.
  apply (vandermonde Xs Xs_bytes Xs_NoDup (fun X => polyEval (rev C) X)).
  - intros X HX. auto using bytesL_rev with gf.
  - intros t Ht.
    pose proof (Hgen (length C - 1 + t)%nat ltac:(lia) ltac:(lia)) as Hd.
    rewrite disc_hat in Hd by (assumption || lia).
    replace (length C - 1 + t - (length C - 1))%nat with t in Hd by lia.
    apply gfMul_eq_0 in Hd; [|exact eps_byte|].
    + destruct Hd as [Hd|Hd]; [contradiction|exact Hd].
    + apply xsumL_byte. intros X HX. pose proof (bytesL_In _ _ Xs_bytes HX).
      auto using bytesL_rev with gf.
Qed.

(** The locator annihilates the sequence. *)
Lemma lamOf_generates k : (length Xs <= k)%nat -> (k < N)%nat -> disc (lamOf Xs) k = 0.
Proof.
  intros Hk HkN.
  rewrite disc_hat; auto using lamOf_bytes, lamOf_nonempty; [|rewrite lamOf_length; simpl; lia].
  rewrite xsumL_zero; [apply gfMul_0_r|].
  intros X HX. now rewrite lamOf_rev_root, gfMul_0_l.
Qed.

(** Massey's bound: a recurrence of length [L] that annihilates the
    sequence below index [n] also does at [n], when [L] plus the number of
    locations is at most [n]. *)
Lemma massey C n :
  bytesL C -> C <> [] -> (n < N)%nat -> (length C - 1 + length Xs <= n)%nat ->
  (forall k, (length C - 1 <= k)%nat -> (k < n)%nat -> disc C k = 0) ->
  cf (lamOf Xs) 0 = 1 ->
  disc C n = 0.
Proof.
  intros HC Hne Hn Hlen Hgen Hlam0.
  set (lam := lamOf Xs) in *.
  assert (Hlb : bytesL lam) by (now apply lamOf_bytes).
  assert (Hll : length lam = S (length Xs)) by apply lamOf_length.
  (* the double sum, grouped by the locator index *)
  assert (H1 : xsum (fun i => cf lam i ⊗ disc C (n - i)) (length lam) = disc C n).
  { rewrite Hll, xsum_S_l, Hlam0, Nat.sub_0_r.
    rewrite gfMul_1_l by (now apply disc_byte).
    rewrite xsum_zero; [apply Z.lxor_0_r|].
    intros i Hi. rewrite Hgen by lia. apply gfMul_0_r. }
  (* and by the index of [C] *)
  assert (H2 : xsum (fun j => cf C j ⊗ disc lam (n - j)) (length C) = 0).
  { apply xsum_zero. intros j Hj. unfold lam.
    rewrite lamOf_generates by lia. apply gfMul_0_r. }
  rewrite <- H1, <- H2. unfold disc.
  transitivity (xsum (fun i => xsum (fun j => cf lam i ⊗ (cf C j ⊗ s (n - i - j)))
                                (length C)) (length lam)).
  { apply xsum_ext. intros i Hi. apply xsum_mul_l; intros; auto with gf. }
  rewrite xsum_swap. apply xsum_ext. intros j Hj.
  rewrite xsum_mul_l by (intros; auto with gf).
  apply xsum_ext. intros i Hi.
  replace (n - i - j)%nat with (n - j - i)%nat by lia.
  assert (byte (cf lam i)) by auto with gf. assert (byte (cf C j)) by auto with gf.
  pose proof (s_byte (n - j - i)). gf_ring.
Qed.

(** A recurrence no longer than the number of locations that annihilates
    the whole sequence is the locator. *)
Theorem locator_unique C :
  bytesL C -> cf C 0 = 1 -> (length C - 1 <= length Xs)%nat ->
  (2 * length Xs <= N)%nat ->
  (forall k, (length C - 1 <= k)%nat -> (k < N)%nat -> disc C k = 0) ->
  C = lamOf Xs.
Proof.
  intros HC HC0 HL H2nu Hgen.
  assert (Hne : C <> []) by (intros ->; discriminate HC0).
  assert (HlenC : (1 <= length C)%nat) by (destruct C; [contradiction|simpl; lia]).
  set (lam := lamOf Xs).
  assert (Hlb : bytesL lam) by (now apply lamOf_bytes).
  assert (Hll : length lam = S (length Xs)) by apply lamOf_length.
  assert (HrootC : forall X, In X Xs -> polyEval (rev C) X = 0)
    by (apply generates_roots; auto; lia).
  assert (HrootL : forall X, In X Xs -> polyEval (rev lam) X = 0)
    by (intros X HX; now apply lamOf_rev_root).
  (* the lengths agree *)
  assert (HlenEq : length C = S (length Xs)).
  { destruct (Nat.eq_dec (length C) (S (length Xs))) as [|Hne']; [assumption|].
    exfalso.
    pose proof (root_bound Xs Xs_bytes Xs_NoDup (rev C) (bytesL_rev _ HC)
                  ltac:(rewrite length_rev; lia) HrootC 0%nat) as Hz.
    fold (cf C 0) in Hz. rewrite HC0 in Hz. discriminate. }
  (* the difference of the reversed polynomials has leading coefficient 0 *)
  set (Dl := zip_with Z.lxor (rev C) (rev lam)).
  assert (HDlen : length Dl = S (length Xs))
    by (unfold Dl; rewrite length_zip_with, !length_rev; lia).
  assert (HDnth : forall k, nth k Dl 0 = nth k (rev C) 0 ⊕ nth k (rev lam) 0).
  { intros k. unfold Dl. destruct (Nat.lt_ge_cases k (S (length Xs))) as [Hk|Hk].
    - apply PolarFacts.nth_zip_with_lxor. rewrite !length_rev. lia.
    - rewrite !nth_overflow; rewrite ?length_zip_with, ?length_rev; try lia. reflexivity. }
  assert (HDb : bytesL Dl).
  { unfold bytesL. apply Forall_forall. intros x Hx. apply list_elem_of_In in Hx.
    apply (In_nth _ _ 0) in Hx. destruct Hx as (k & _ & <-). rewrite HDnth.
    auto using bytesL_rev with gf. }
  assert (HDroot : forall X, In X Xs -> polyEval Dl X = 0).
  { intros X HX. pose proof (bytesL_In _ _ Xs_bytes HX) as HXb.
    rewrite (polyEval_lin Dl (rev C) (rev lam) 1); auto using bytesL_rev, byte_1.
    - rewrite HrootC, HrootL by exact HX. reflexivity.
    - rewrite length_rev. lia.
    - rewrite length_rev. lia.
    - intros k _. rewrite HDnth. now rewrite gfMul_1_l by (auto using bytesL_rev with gf). }
  assert (HD0 : nth 0 Dl 0 = 0).
  { rewrite HDnth. fold (cf C 0). fold (cf lam 0). unfold lam.
    rewrite HC0, lamOf_cf0 by exact Xs_bytes. reflexivity. }
  destruct Dl as [|d0 Dl'] eqn:HDl; [discriminate HDlen|].
  cbn [nth] in HD0. subst d0.
  assert (Hzero : forall k, nth k Dl' 0 = 0).
  { apply (root_bound Xs Xs_bytes Xs_NoDup).
    - now apply Forall_cons in HDb.
    - simpl in HDlen. lia.
    - intros X HX. rewrite <- polyEval_cons_0. now apply HDroot. }
  rewrite <- (rev_involutive C), <- (rev_involutive lam). f_equal.
  apply (nth_ext _ _ 0 0); [rewrite !length_rev; lia|].
  intros k _. apply Z.lxor_eq. rewrite <- HDnth.
  destruct k as [|k]; [reflexivity|apply Hzero].
Qed.

End PowerSums.

End RSRecurrence.

(** * The Berlekamp-Massey loop finds the locator *)
Module RSBerlekamp.
Import GF GFFacts GFField GFRing RS GFSums RSLoops RSEncoder RSChannel RSLocator RSRecurrence.

Lemma fold_left_lxor {A : Type} (f : A -> Z) (l : list A) (d0 : Z) :
  fold_left (fun d j => d ⊕ f j) l d0 = d0 ⊕ xsumL f l.
Proof.
  revert d0. induction l as [|j l IH]; intros d0.
  - cbn. now rewrite Z.lxor_0_r.
  - cbn [fold_left]. rewrite IH, xsumL_cons. now rewrite Z.lxor_assoc.
Qed.

(** The update [errLoc[len - 1 - j] ^= gfMul(delta, oldLoc[len' - 1 - j])]. *)
Definition addScaled (delta : Z) (oldLoc errLoc : list Z) : list Z :=
  xorInto (fun l j => l - 1 - j)
          (fun j => delta ⊗ rd oldLoc (len oldLoc - 1 - j))
          (indices (length oldLoc)) errLoc.

Lemma addScaled_length delta oldLoc errLoc :
  length (addScaled delta oldLoc errLoc) = length errLoc.
Proof. apply xorInto_length. Qed.

Lemma addScaled_bytes delta oldLoc errLoc :
  byte delta -> bytesL oldLoc -> bytesL errLoc -> bytesL (addScaled delta oldLoc errLoc).
Proof. intros Hd Ho He. apply xorInto_bytes; [exact He|]. intros; auto with gf. Qed.

Lemma addScaled_cf delta oldLoc errLoc d :
  (length oldLoc <= length errLoc)%nat ->
  cf (addScaled delta oldLoc errLoc) d = cf errLoc d ⊕ delta ⊗ cf oldLoc d.
Proof.
  intros Hlen. destruct (Nat.lt_ge_cases d (length errLoc)) as [Hd|Hd].
  - rewrite cf_nth by (now rewrite addScaled_length).
    rewrite addScaled_length. unfold addScaled.
    rewrite xorInto_nth by lia. rewrite <- cf_nth by exact Hd. f_equal.
    rewrite xsumL_indices.
    destruct (Nat.lt_ge_cases d (length oldLoc)) as [Hdo|Hdo].
    + rewrite (xsum_single _ _ d Hdo).
      * unfold len.
        destruct (Z.eqb_spec (Z.of_nat (length errLoc) - 1 - Z.of_nat d)
                    (Z.of_nat (length errLoc - 1 - d))); [|lia].
        f_equal. replace (Z.of_nat (length oldLoc) - 1 - Z.of_nat d)
          with (Z.of_nat (length oldLoc - 1 - d)) by lia.
        rewrite rd_nat. symmetry. now apply cf_nth.
      * intros j Hj Hne. unfold len.
        destruct (Z.eqb_spec (Z.of_nat (length errLoc) - 1 - Z.of_nat j)
                    (Z.of_nat (length errLoc - 1 - d))); [lia|reflexivity].
    + rewrite (cf_ge oldLoc d Hdo), gfMul_0_r. apply xsum_zero. intros j Hj. unfold len.
      destruct (Z.eqb_spec (Z.of_nat (length errLoc) - 1 - Z.of_nat j)
                  (Z.of_nat (length errLoc - 1 - d))); [lia|reflexivity].
  - rewrite !cf_ge by (rewrite ?addScaled_length; lia). now rewrite gfMul_0_r.
Qed.

Section Loop.
Variable Xs : list Z.
Variable eps : Z.
Variable N : nat.
Variable synd : list Z.
Hypothesis Xs_bytes : bytesL Xs.
Hypothesis Xs_NoDup : List.NoDup Xs.
Hypothesis Xs_nonzero : forall X, In X Xs -> X <> 0.
Hypothesis eps_byte : byte eps.
Hypothesis eps_nonzero : eps <> 0.
Hypothesis synd_bytes : bytesL synd.
Hypothesis capacity : (2 * length Xs <= N)%nat.

(** The syndrome sequence: [synd] carries a leading pad. *)
Definition syn (k : nat) : Z := nth (S k) synd 0.

Hypothesis syn_sum : forall k, (k < N)%nat -> syn k = eps ⊗ xsumL (fun X => gpow X k) Xs.

Lemma syn_byte k : byte (syn k).
Proof. unfold syn. auto with gf. Qed.

(** The discrepancy the code computes. *)
Definition deltaOf (errLoc : list Z) (i : Z) : Z :=
  fold_left
    (fun delta j => delta ⊕ (rd errLoc (len errLoc - 1 - j) ⊗ rd synd (i + 0 + 1 - j)))
    (map Z.of_nat (seq 1 (length errLoc - 1))) (rd synd (i + 0 + 1)).

Lemma disc_head p m k : length p = S m ->
  disc syn p k = cf p 0 ⊗ syn k ⊕ xsum (fun j => cf p (S j) ⊗ syn (k - S j)) m.
Proof. intros Hp. unfold disc. now rewrite Hp, xsum_S_l, Nat.sub_0_r. Qed.

Lemma deltaOf_disc errLoc n :
  bytesL errLoc -> cf errLoc 0 = 1 -> (1 <= length errLoc)%nat -> (length errLoc - 1 <= n)%nat ->
  deltaOf errLoc (Z.of_nat n) = disc syn errLoc n.
Proof.
  intros Hb H0 Hl Hn. unfold deltaOf. rewrite fold_left_lxor.
  rewrite (disc_head errLoc (length errLoc - 1) n) by lia.
  rewrite H0, gfMul_1_l by apply syn_byte.
  f_equal.
  - unfold syn. replace (Z.of_nat n + 0 + 1) with (Z.of_nat (S n)) by lia. apply rd_nat.
  - rewrite <- seq_shift, map_map, xsumL_map. unfold xsum.
    apply xsumL_ext. intros j Hj. apply in_seq in Hj. unfold len, syn.
    replace (Z.of_nat (length errLoc) - 1 - Z.of_nat (S j))
      with (Z.of_nat (length errLoc - 1 - S j)) by lia.
    replace (Z.of_nat n + 0 + 1 - Z.of_nat (S j)) with (Z.of_nat (S (n - S j))) by lia.
    rewrite !rd_nat. f_equal. symmetry. apply cf_nth. lia.
Qed.

(** The loop body, with the discrepancy and the update named. *)
Lemma step_unfold errLoc oldLoc i :
  rsFindErrorLocator_step synd (errLoc, oldLoc) i =
  let delta := deltaOf errLoc i in
  let oldLoc' := oldLoc ++ [0] in
  if delta =? 0 then (errLoc, oldLoc')
  else if len oldLoc' >? len errLoc then
    let newLoc := map (fun c => c ⊗ delta) oldLoc' in
    let oldLoc'' := map (fun c => c ⊗ gfInverse delta) errLoc in
    (addScaled delta oldLoc'' newLoc, oldLoc'')
  else (addScaled delta oldLoc' errLoc, oldLoc').
Proof.
  unfold rsFindErrorLocator_step. cbv zeta. fold (deltaOf errLoc i).
  destruct (deltaOf errLoc i =? 0); [reflexivity|].
  destruct (len (oldLoc ++ [0]) >? len errLoc); reflexivity.
Qed.

(** ** Facts about discrepancies *)

Lemma disc_extend p k m : (length p <= m)%nat ->
  disc syn p k = xsum (fun j => cf p j ⊗ syn (k - j)) m.
Proof.
  intros Hm. unfold disc. replace m with (length p + (m - length p))%nat by lia.
  rewrite xsum_add, (xsum_zero _ (m - length p)); [now rewrite Z.lxor_0_r|].
  intros j Hj. rewrite cf_ge by lia. apply gfMul_0_l.
Qed.

Lemma disc_snoc_0 p k : disc syn (p ++ [0]) (S k) = disc syn p k.
Proof.
  unfold disc. rewrite length_app, Nat.add_comm. cbn [length Nat.add].
  rewrite xsum_S_l, cf_snoc_0, gfMul_0_l, Z.lxor_0_l.
  apply xsum_ext. intros j Hj. now rewrite cf_snoc_S.
Qed.

Lemma disc_lin q a b c k :
  bytesL a -> bytesL b -> byte c ->
  (length a <= length q)%nat -> (length b <= length q)%nat ->
  (forall d, cf q d = cf a d ⊕ c ⊗ cf b d) ->
  disc syn q k = disc syn a k ⊕ c ⊗ disc syn b k.
Proof.
  intros Ha Hb Hc Hla Hlb Hcf.
  rewrite (disc_extend a k (length q)), (disc_extend b k (length q)) by assumption.
  unfold disc. rewrite xsum_mul_l; [|exact Hc|].
  2:{ intros j Hj. pose proof (syn_byte (k - j)). auto with gf. }
  rewrite <- xsum_lxor. apply xsum_ext. intros j Hj. rewrite Hcf.
  pose proof (syn_byte (k - j)).
  assert (byte (cf a j)) by auto with gf. assert (byte (cf b j)) by auto with gf.
  gf_ring.
Qed.

Lemma disc_scale p c k : bytesL p -> byte c ->
  disc syn (map (fun x => x ⊗ c) p) k = disc syn p k ⊗ c.
Proof.
  intros Hp Hc. unfold disc. rewrite length_map.
  rewrite xsum_mul_r; [|exact Hc|].
  2:{ intros j Hj. pose proof (syn_byte (k - j)). auto with gf. }
  apply xsum_ext. intros j Hj. rewrite (cf_map (fun x => x ⊗ c)) by apply gfMul_0_l.
  pose proof (syn_byte (k - j)). assert (byte (cf p j)) by auto with gf. gf_ring.
Qed.

(** ** The invariant of the loop *)

Record Inv (n : nat) (errLoc oldLoc : list Z) : Prop := {
  inv_err_bytes : bytesL errLoc;
  inv_old_bytes : bytesL oldLoc;
  inv_cf0 : cf errLoc 0 = 1;
  inv_lengths : (length errLoc + length oldLoc = n + 2)%nat;
  inv_err_len : (1 <= length errLoc)%nat;
  inv_old_len : (1 <= length oldLoc)%nat;
  inv_bound : (length errLoc - 1 <= length Xs)%nat;
  inv_err_gen : forall k, (length errLoc - 1 <= k)%nat -> (k < n)%nat -> disc syn errLoc k = 0;
  inv_old_gen : forall k, (length oldLoc <= k)%nat -> (k < n)%nat ->
                          disc syn (oldLoc ++ [0]) k = 0;
  inv_old_one : (length oldLoc <= n)%nat -> disc syn (oldLoc ++ [0]) n = 1;
}.

Lemma Inv_init : Inv 0 [1] [1].
Proof.
  split; cbn [length]; try lia; auto with gf.
Qed.

Lemma bytesL_map_mul c p : byte c -> bytesL p -> bytesL (map (fun x => x ⊗ c) p).
Proof.
  intros Hc Hp. unfold bytesL. apply Forall_forall. intros y Hy.
  apply list_elem_of_In, in_map_iff in Hy. destruct Hy as (x & <- & Hx).
  apply gfMul_byte; [|exact Hc]. exact (bytesL_In p x Hp Hx).
Qed.

Lemma bytesL_snoc_0 p : bytesL p -> bytesL (p ++ [0]).
Proof. intros Hp. apply bytesL_app; auto with gf. Qed.

(** What the pushed old locator contributes at the next index. *)
Lemma old_next n errLoc oldLoc : Inv n errLoc oldLoc ->
  (forall k : nat, (length (oldLoc ++ [0%Z]) <= k)%nat -> (k < S n)%nat ->
             disc syn ((oldLoc ++ [0]) ++ [0]) k = 0) /\
  ((length (oldLoc ++ [0%Z]) <= S n)%nat -> disc syn ((oldLoc ++ [0]) ++ [0]) (S n) = 1).
Proof.
  intros HI. rewrite length_app. cbn [length]. split.
  - intros k Hk Hkn. destruct k as [|k]; [lia|].
    rewrite disc_snoc_0. apply (inv_old_gen _ _ _ HI); lia.
  - intros Hle. rewrite disc_snoc_0. apply (inv_old_one _ _ _ HI). lia.
Qed.

Lemma Inv_step n errLoc oldLoc : (n < N)%nat -> Inv n errLoc oldLoc ->
  let st := rsFindErrorLocator_step synd (errLoc, oldLoc) (Z.of_nat n) in
  Inv (S n) (fst st) (snd st).
Proof.
  intros HnN HI. cbv zeta. rewrite step_unfold. cbv zeta.
  pose proof HI as [Heb Hob Hc0 Hlen Hel Hol Hbound Hegen Hogen Hoone].
  destruct (old_next n errLoc oldLoc HI) as [Hnext_gen Hnext_one].
  rewrite deltaOf_disc by (assumption || lia).
  set (delta := disc syn errLoc n).
  assert (Hdb : byte delta) by (now apply disc_byte; [apply syn_byte|]).
  set (O' := oldLoc ++ [0]) in *.
  assert (HO'b : bytesL O') by (now apply bytesL_snoc_0).
  assert (HO'l : length O' = S (length oldLoc))
    by (unfold O'; rewrite length_app; simpl; lia).
  destruct (Z.eqb_spec delta 0) as [Hd0|Hdnz].
  - (* no discrepancy *)
    cbn [fst snd]. split; try assumption; try lia.
    + intros k Hk Hkn. destruct (Nat.eq_dec k n) as [->|Hne]; [exact Hd0|].
      apply Hegen; lia.
  - unfold len. rewrite HO'l.
    destruct (Z.gtb_spec (Z.of_nat (S (length oldLoc))) (Z.of_nat (length errLoc)))
      as [Hswap|Hkeep].
    + (* the locator grows *)
      cbv zeta. cbn [fst snd].
      set (inv := gfInverse delta).
      assert (Hib : byte inv) by (now apply gfInverse_byte).
      assert (Hdi : delta ⊗ inv = 1) by (now apply gfMul_inverse).
      set (newLoc := map (fun c => c ⊗ delta) O').
      set (old' := map (fun c => c ⊗ inv) errLoc).
      assert (Hnb : bytesL newLoc) by (now apply bytesL_map_mul).
      assert (Hob' : bytesL old') by (now apply bytesL_map_mul).
      assert (Hnl : length newLoc = S (length oldLoc))
        by (unfold newLoc; now rewrite length_map).
      assert (Hol' : length old' = length errLoc) by (unfold old'; now rewrite length_map).
      assert (Hcf : forall d, cf (addScaled delta old' newLoc) d
                              = cf errLoc d ⊕ delta ⊗ cf O' d).
      { intros d. rewrite addScaled_cf by lia. unfold newLoc, old'.
        rewrite !(cf_map (fun c => c ⊗ _)) by apply gfMul_0_l.
        assert (byte (cf errLoc d)) by auto with gf.
        assert (byte (cf O' d)) by auto with gf.
        transitivity (cf errLoc d ⊗ (delta ⊗ inv) ⊕ delta ⊗ cf O' d); [gf_ring|].
        now rewrite Hdi, gfMul_1_r. }
      assert (Hdisc : forall k, disc syn (addScaled delta old' newLoc) k
                                = disc syn errLoc k ⊕ delta ⊗ disc syn O' k).
      { intros k. apply disc_lin; try assumption; rewrite addScaled_length; lia. }
      assert (Hmassey : (length oldLoc <= length Xs)%nat).
      { destruct (Nat.le_gt_cases (length oldLoc) (length Xs)) as [|Hgt]; [assumption|].
        exfalso. apply Hdnz.
        apply (massey Xs eps N syn Xs_bytes eps_byte syn_byte syn_sum);
          try assumption; try lia.
        - intros ->. simpl in Hel. lia.
        - now apply lamOf_cf0. }
      split; rewrite ?addScaled_length; try assumption; try lia.
      * now apply addScaled_bytes.
      * rewrite Hcf, Hc0. unfold O'. rewrite cf_snoc_0, gfMul_0_r. reflexivity.
      * intros k Hk Hkn. rewrite Hdisc. rewrite Hnl in Hk.
        destruct (Nat.eq_dec k n) as [->|Hne].
        -- fold delta. rewrite Hoone by lia. rewrite gfMul_1_r by exact Hdb.
           apply Z.lxor_nilpotent.
        -- rewrite Hegen, Hogen by lia. now rewrite gfMul_0_r.
      * intros k Hk Hkn. rewrite Hol' in Hk. destruct k as [|k]; [lia|].
        rewrite disc_snoc_0. unfold old'. rewrite disc_scale by assumption.
        rewrite Hegen by lia. apply gfMul_0_l.
      * intros _. rewrite disc_snoc_0. unfold old'. rewrite disc_scale by assumption.
        fold delta. exact Hdi.
    + (* the locator keeps its length *)
      cbn [fst snd].
      assert (Hcf : forall d, cf (addScaled delta O' errLoc) d
                              = cf errLoc d ⊕ delta ⊗ cf O' d)
        by (intros d; apply addScaled_cf; lia).
      assert (Hdisc : forall k, disc syn (addScaled delta O' errLoc) k
                                = disc syn errLoc k ⊕ delta ⊗ disc syn O' k).
      { intros k. apply disc_lin; try assumption; rewrite addScaled_length; lia. }
      split; rewrite ?addScaled_length; try assumption; try lia.
      * now apply addScaled_bytes.
      * rewrite Hcf, Hc0. unfold O'. rewrite cf_snoc_0, gfMul_0_r. reflexivity.
      * intros k Hk Hkn. rewrite Hdisc.
        destruct (Nat.eq_dec k n) as [->|Hne].
        -- fold delta. rewrite Hoone by lia. rewrite gfMul_1_r by exact Hdb.
           apply Z.lxor_nilpotent.
        -- rewrite Hegen, Hogen by lia. now rewrite gfMul_0_r.
Qed.

Lemma Inv_loop n : (n <= N)%nat ->
  let st := fold_left (rsFindErrorLocator_step synd) (indices n) ([1], [1]) in
  Inv n (fst st) (snd st).
Proof.
  induction n as [|n IH]; intros Hn; [apply Inv_init|].
  cbv zeta. rewrite indices_S, fold_left_app. cbn [fold_left].
  specialize (IH ltac:(lia)). cbv zeta in IH.
  destruct (fold_left _ (indices n) _) as [e o]. cbn [fst snd] in IH.
  apply (Inv_step n e o); [lia|exact IH].
Qed.

Lemma stripLeadingZeros_id p : nth 0 p 0 <> 0 -> stripLeadingZeros p = p.
Proof.
  destruct p as [|c p]; [reflexivity|]. cbn [nth stripLeadingZeros].
  intros Hc. destruct (Z.eqb_spec c 0); [contradiction|reflexivity].
Qed.

(** The loop returns the locator of the error locations. *)
Theorem berlekampMassey_locator : berlekampMassey synd N = lamOf Xs.
Proof.
  unfold berlekampMassey.
  pose proof (Inv_loop N (Nat.le_refl N)) as HI. cbv zeta in HI.
  destruct (fold_left _ (indices N) _) as [e o]. cbn [fst snd] in HI.
  assert (He : e = lamOf Xs).
  { apply (locator_unique Xs eps N syn Xs_bytes Xs_NoDup eps_byte eps_nonzero syn_sum).
    - apply (inv_err_bytes _ _ _ HI).
    - apply (inv_cf0 _ _ _ HI).
    - apply (inv_bound _ _ _ HI).
    - exact capacity.
    - apply (inv_err_gen _ _ _ HI). }
  rewrite He. apply stripLeadingZeros_id.
  rewrite lamOf_lead by exact Xs_bytes.
  apply prodL_nonzero.
  - intros X HX. exact (bytesL_In Xs X Xs_bytes HX).
  - exact Xs_nonzero.
Qed.

End Loop.

End RSBerlekamp.

(** * Forney's formula *)
Module RSForney.
Import GF GFFacts GFField GFRing RS GFSums RSLoops RSEncoder RSChannel RSLocator
       RSRecurrence RSBerlekamp.

(** The locators other than [X]. *)
Definition others (X : Z) (l : list Z) : list Z := List.filter (fun Y => negb (Y =? X)) l.

Lemma others_In X l Y : In Y (others X l) <-> In Y l /\ Y <> X.
Proof.
  unfold others. rewrite filter_In, negb_true_iff, Z.eqb_neq. reflexivity.
Qed.

Lemma others_absent X l : ~ In X l -> others X l = l.
Proof.
  induction l as [|Y l IH]; intros Hn; [reflexivity|].
  unfold others. cbn [List.filter]. fold (others X l).
  destruct (Z.eqb_spec Y X) as [->|Hne]; [exfalso; apply Hn; now left|].
  cbn [negb]. rewrite IH; [reflexivity|]. intros H. apply Hn. now right.
Qed.

Lemma others_bytes X l : bytesL l -> bytesL (others X l).
Proof.
  intros Hl. unfold bytesL. apply Forall_forall. intros Y HY.
  apply list_elem_of_In, others_In in HY. exact (bytesL_In l Y Hl (proj1 HY)).
Qed.

Lemma others_length X l : List.NoDup l -> In X l -> S (length (others X l)) = length l.
Proof.
  induction l as [|Y l IH]; intros Hnd HX; [destruct HX|].
  apply List.NoDup_cons_iff in Hnd. destruct Hnd as [HY Hnd].
  unfold others. cbn [List.filter]. fold (others X l).
  destruct (Z.eqb_spec Y X) as [->|Hne]; cbn [negb length].
  - now rewrite others_absent.
  - destruct HX as [HX|HX]; [contradiction|]. now rewrite IH.
Qed.

(** The locator polynomial splits off the factor of any of its locators. *)
Lemma lamOf_split X l : bytesL l -> List.NoDup l -> In X l ->
  lamOf l = polyMul (lamOf (others X l)) [X; 1].
Proof.
  induction l as [|Y l IH]; intros Hb Hnd HX; [destruct HX|].
  apply List.NoDup_cons_iff in Hnd. destruct Hnd as [HY Hnd].
  apply Forall_cons in Hb. destruct Hb as [HYb Hb].
  unfold others. cbn [List.filter]. fold (others X l).
  destruct (Z.eqb_spec Y X) as [->|Hne]; cbn [negb].
  - now rewrite others_absent.
  - destruct HX as [HX|HX]; [contradiction|].
    cbn [lamOf]. rewrite (IH Hb Hnd HX).
    apply polyMul_linear_comm.
    + apply lamOf_nonempty.
    + apply lamOf_bytes, others_bytes, Hb.
    + exact (bytesL_In l X Hb HX).
    + exact HYb.
Qed.

(** The coefficients of the quotient by the factor of [X]. *)
Lemma quotient_cf X l d : bytesL l -> List.NoDup l -> In X l ->
  cf (lamOf (others X l)) d = xsum (fun j => cf (lamOf l) j ⊗ gpow X (d - j)) (S d).
Proof.
  intros Hb Hnd HX.
  assert (HXb : byte X) by exact (bytesL_In l X Hb HX).
  assert (HQb : bytesL (lamOf (others X l))) by (apply lamOf_bytes, others_bytes, Hb).
  assert (HLb : bytesL (lamOf l)) by (apply lamOf_bytes, Hb).
  assert (Hstep : forall e, cf (lamOf l) e
                            = cf (lamOf (others X l)) e
                              ⊕ match e with
                                | O => 0
                                | S e' => cf (lamOf (others X l)) e' ⊗ X
                                end).
  { intros e. rewrite (lamOf_split X l Hb Hnd HX) at 1.
    rewrite polyMul_linear_cf by (auto using lamOf_nonempty with gf).
    now rewrite gfMul_1_r by auto with gf. }
  induction d as [|d IH].
  - rewrite xsum_S, xsum_0, Z.lxor_0_l. cbn [Nat.sub gpow].
    rewrite gfMul_1_r by auto with gf. rewrite (Hstep 0%nat). now rewrite Z.lxor_0_r.
  - rewrite xsum_S, Nat.sub_diag. cbn [gpow]. rewrite gfMul_1_r by auto with gf.
    rewrite (Hstep (S d)), IH.
    rewrite xsum_mul_r by (intros; auto with gf).
    rewrite (xsum_ext (fun j => cf (lamOf l) j ⊗ gpow X (S d - j))
                      (fun j => cf (lamOf l) j ⊗ gpow X (d - j) ⊗ X)).
    + set (A := xsum _ (S d)). set (Q := cf (lamOf (others X l)) (S d)).
      rewrite (Z.lxor_comm Q A), <- Z.lxor_assoc, Z.lxor_nilpotent. now rewrite Z.lxor_0_l.
    + intros j Hj. replace (S d - j)%nat with (S (d - j)) by lia.
      rewrite gpow_S_r by exact HXb.
      assert (byte (cf (lamOf l) j)) by auto with gf.
      assert (byte (gpow X (d - j))) by auto with gf. gf_ring.
Qed.

Lemma xsum_cut (F : nat -> Z) d m : (forall b, (m <= b)%nat -> F b = 0) ->
  xsum (fun b => if (b <=? d)%nat then F b else 0) m = xsum F (S d).
Proof.
  intros Hz. destruct (Nat.le_gt_cases m (S d)) as [Hle|Hgt].
  - replace (S d) with (m + (S d - m))%nat by lia.
    rewrite xsum_add, (xsum_zero _ (S d - m)) by (intros; apply Hz; lia).
    rewrite Z.lxor_0_r. apply xsum_ext. intros b Hb.
    destruct (Nat.leb_spec b d); [reflexivity|lia].
  - replace m with (S d + (m - S d))%nat by lia.
    rewrite xsum_add, (xsum_zero _ (m - S d)).
    + rewrite Z.lxor_0_r. apply xsum_ext. intros b Hb.
      destruct (Nat.leb_spec b d); [reflexivity|lia].
    + intros i Hi. destruct (Nat.leb_spec (S d + i) d); [lia|reflexivity].
Qed.

Lemma polyEval_sum_upto p x m : bytesL p -> byte x -> (length p <= m)%nat ->
  polyEval p x = xsum (fun j => cf p j ⊗ gpow x j) m.
Proof.
  intros Hp Hx Hm. rewrite polyEval_sum by assumption.
  replace m with (length p + (m - length p))%nat by lia.
  rewrite xsum_add, (xsum_zero _ (m - length p)); [now rewrite Z.lxor_0_r|].
  intros i Hi. rewrite cf_ge by lia. apply gfMul_0_l.
Qed.

Lemma cf_drop p k d : (d < length p - k)%nat -> cf (drop k p) d = cf p d.
Proof.
  intros Hd. rewrite !cf_nth by (rewrite ?length_drop; lia).
  rewrite length_drop, PolarFacts.nth_drop_add. f_equal. lia.
Qed.

(** A product accumulated by a loop that skips one factor. *)
Lemma fold_left_others (G : Z -> Z) X l a :
  bytesL l -> (forall Y, byte Y -> byte (G Y)) -> byte a ->
  fold_left (fun acc Y => if negb (Y =? X) then acc ⊗ G Y else acc) l a
  = a ⊗ prodL G (others X l).
Proof.
  intros Hl HG. revert a. induction l as [|Y l IH]; intros a Ha.
  - cbn. now rewrite gfMul_1_r.
  - apply Forall_cons in Hl. destruct Hl as [HY Hl].
    cbn [fold_left]. unfold others. cbn [List.filter]. fold (others X l).
    destruct (Z.eqb_spec Y X) as [->|Hne]; cbn [negb].
    + now apply IH.
    + rewrite IH by (auto with gf). cbn [prodL foldr]. fold (prodL G (others X l)).
      assert (byte (G Y)) by auto.
      assert (byte (prodL G (others X l))).
      { apply prodL_byte. intros Z0 HZ. apply HG.
        apply others_In in HZ. exact (bytesL_In l Z0 Hl (proj1 HZ)). }
      gf_ring.
Qed.

Lemma fold_left_map_arg {A B C : Type} (f : A -> C -> A) (h : B -> C) (l : list B) (a : A) :
  fold_left f (map h l) a = fold_left (fun a x => f a (h x)) l a.
Proof. revert a. induction l as [|x l IH]; intros a; [reflexivity|]. cbn. apply IH. Qed.

Lemma fold_left_ext_in {A B : Type} (f g : A -> B -> A) (l : list B) (a : A) :
  (forall a x, In x l -> f a x = g a x) -> fold_left f l a = fold_left g l a.
Proof.
  revert a. induction l as [|x l IH]; intros a H; [reflexivity|]. cbn [fold_left].
  rewrite (H a x) by now left. apply IH. intros a' y Hy. apply H. now right.
Qed.

Lemma map_nth_seq (l : list Z) : map (fun j => nth j l 0) (seq 0 (length l)) = l.
Proof.
  apply (nth_ext _ _ 0 0); [now rewrite length_map, length_seq|].
  intros k Hk. rewrite length_map, length_seq in Hk. now rewrite nth_map_seq.
Qed.

Lemma prodL_ext f g l : (forall Y, In Y l -> f Y = g Y) -> prodL f l = prodL g l.
Proof.
  induction l as [|Y l IH]; intros H; [reflexivity|]. cbn [prodL foldr].
  fold (prodL f l) (prodL g l). rewrite IH, (H Y); [reflexivity|now left|].
  intros Z0 HZ. apply H. now right.
Qed.

Lemma fold_left_inr {E A B : Type} (step : E + A -> B -> E + A) (g : A -> B -> A)
      (l : list B) (a : A) :
  (forall a x, In x l -> step (inr a) x = inr (g a x)) ->
  fold_left step l (inr a) = inr (fold_left g l a).
Proof.
  revert a. induction l as [|x l IH]; intros a H; [reflexivity|]. cbn [fold_left].
  rewrite (H a x) by now left. apply IH. intros a' y Hy. apply H. now right.
Qed.

(** Marking positions in an array. *)
Lemma marks_nth (ps : list Z) (em : list Z) (k : nat) : (k < length em)%nat ->
  nth k (fold_left (fun em p => wr em p 255) ps em) 0
  = if bool_decide (Z.of_nat k ∈ ps) then 255 else nth k em 0.
Proof.
  revert em. induction ps as [|p ps IH]; intros em Hk.
  - cbn [fold_left]. now rewrite bool_decide_eq_false_2 by apply not_elem_of_nil.
  - cbn [fold_left]. rewrite IH by (now rewrite wr_length). rewrite nth_wr.
    destruct (bool_decide (Z.of_nat k ∈ ps)) eqn:Hin.
    + apply bool_decide_eq_true in Hin.
      now rewrite bool_decide_eq_true_2 by (now apply list_elem_of_further).
    + apply bool_decide_eq_false in Hin.
      destruct (Z.eqb_spec p (Z.of_nat k)) as [->|Hne].
      * rewrite bool_decide_eq_true_2 by apply list_elem_of_here.
        destruct (Z.ltb_spec (Z.of_nat k) (len em)) as [_|Hge]; [reflexivity|].
        unfold len in Hge. lia.
      * cbn [andb]. rewrite bool_decide_eq_false_2; [reflexivity|].
        intros H. apply elem_of_cons in H. destruct H as [H|H]; [congruence|contradiction].
Qed.

End RSForney.

(** * Decoding a corrupted codeword *)
Module RSDecoder.
Import GF GFFacts GFField GFRing RS GFSums RSLoops RSEncoder RSChannel RSLocator
       RSRecurrence RSBerlekamp RSForney.

(** A loop that appends under a condition is a filter. *)
Lemma fold_left_push {A : Type} (P : A -> bool) (h : A -> Z) (l : list A) (acc : list Z) :
  fold_left (fun errPos i => if P i then errPos ++ [h i] else errPos) l acc
  = acc ++ map h (List.filter P l).
Proof.
  revert acc. induction l as [|i l IH]; intros acc.
  - cbn. now rewrite app_nil_r.
  - cbn [fold_left List.filter]. rewrite IH. destruct (P i); [|reflexivity].
    cbn [map]. now rewrite <- app_assoc.
Qed.

Lemma filter_map_comm {A B : Type} (h : A -> B) (P : B -> bool) (l : list A) :
  List.filter P (map h l) = map h (List.filter (fun x => P (h x)) l).
Proof.
  induction l as [|x l IH]; [reflexivity|]. cbn [map List.filter].
  destruct (P (h x)); cbn [map]; now rewrite IH.
Qed.

Lemma filter_ext_in {A : Type} (P Q : A -> bool) (l : list A) :
  (forall x, In x l -> P x = Q x) -> List.filter P l = List.filter Q l.
Proof.
  induction l as [|x l IH]; intros H; [reflexivity|]. cbn [List.filter].
  rewrite (H x) by now left. rewrite IH; [reflexivity|]. intros y Hy. apply H. now right.
Qed.

Lemma prodL_eq_0 f l : (forall Y, In Y l -> byte (f Y)) ->
  prodL f l = 0 -> exists Y, In Y l /\ f Y = 0.
Proof.
  induction l as [|X l IH]; intros Hb H0; [discriminate|].
  cbn [prodL foldr] in H0. fold (prodL f l) in H0.
  apply gfMul_eq_0 in H0.
  - destruct H0 as [H0|H0].
    + destruct IH as (Y & HY & HfY); [intros; apply Hb; now right|exact H0|].
      exists Y. split; [now right|exact HfY].
    + exists X. split; [now left|exact H0].
  - apply prodL_byte. intros; apply Hb; now right.
  - apply Hb. now left.
Qed.

(** [X * Y^-1 + 1] vanishes exactly when [X = Y]. *)
Lemma locator_factor_zero X Y : byte X -> byte Y -> Y <> 0 ->
  X ⊗ gfInverse Y ⊕ 1 = 0 <-> X = Y.
Proof.
  intros HX HY HY0. split.
  - intros H. apply Z.lxor_eq in H.
    assert (Hi : byte (gfInverse Y)) by (now apply gfInverse_byte).
    assert (H1 : (X ⊗ gfInverse Y) ⊗ Y = 1 ⊗ Y) by now rewrite H.
    rewrite gfMul_1_l in H1 by exact HY. rewrite <- H1.
    transitivity (X ⊗ (Y ⊗ gfInverse Y)); [|gf_ring].
    now rewrite gfMul_inverse, gfMul_1_r.
  - intros ->. rewrite gfMul_inverse by assumption. reflexivity.
Qed.

(** With data present, the result is decided by the syndromes. *)
Lemma correctionResult_nonempty recv nsym : recv <> [] ->
  correctionResult recv nsym =
  if rsCheckSyndromes (rsCalcSyndromes recv nsym) then
    {| success := true; corrected := recv; errorPositions := [];
       errorMagnitudes := []; message := NoErrorsDetected |}
  else
    match correct recv (rsCalcSyndromes recv nsym) nsym with
    | inr res => res
    | inl e =>
        {| success := false; corrected := recv; errorPositions := [];
           errorMagnitudes := []; message := Failure e |}
    end.
Proof. destruct recv; [contradiction|reflexivity]. Qed.

Section Decode.
Variable msg : list Z.
Variable nsym : nat.
Variable errors : list Z.
Hypothesis msg_bytes : bytesL msg.
Hypothesis block_length : (length msg + nsym <= 255)%nat.
Hypothesis errors_NoDup : NoDup errors.
Hypothesis errors_capacity : (2 * length errors <= nsym)%nat.

Definition n : nat := (length msg + nsym)%nat.
Definition enc : list Z := rsEncode msg nsym.
Definition recv : list Z := received enc errors.
Definition synd : list Z := rsCalcSyndromes recv nsym.
Definition Xs : list Z := errXs errors n.
Definition exps : list nat := errExps errors n.

(** The position of the symbol with exponent [i]. *)
Definition posOf (i : nat) : Z := Z.of_nat n - 1 - Z.of_nat i.

Lemma n_le : (n <= 255)%nat.
Proof. exact block_length. Qed.

Lemma enc_length : length enc = n.
Proof. apply rsEncode_length. Qed.

Lemma enc_bytes : bytesL enc.
Proof. apply rsEncode_bytes; [exact msg_bytes|lia]. Qed.

Lemma recv_length : length recv = n.
Proof. unfold recv. now rewrite received_length, enc_length. Qed.

Lemma recv_bytes : bytesL recv.
Proof. apply received_bytes, enc_bytes. Qed.

Lemma recv_nth k : (k < n)%nat -> nth k recv 0 = nth k enc 0 ⊕ errAt errors k.
Proof.
  intros Hk. apply received_nth; [apply enc_bytes|exact errors_NoDup|].
  now rewrite enc_length.
Qed.

Lemma Xs_bytes : bytesL Xs.
Proof. apply errXs_bytes. Qed.

Lemma Xs_nonzero X : In X Xs -> X <> 0.
Proof. apply errXs_nonzero. Qed.

Lemma Xs_NoDup : List.NoDup Xs.
Proof. apply errXs_NoDup. exact block_length. Qed.

Lemma Xs_length : length Xs = length exps.
Proof. unfold Xs, errXs. apply length_map. Qed.

Lemma Xs_capacity : (2 * length Xs <= nsym)%nat.
Proof. pose proof (errXs_length errors n errors_NoDup). fold Xs in H. lia. Qed.

Lemma synd_length : length synd = S nsym.
Proof. unfold synd, rsCalcSyndromes, indices. cbn [length]. now rewrite !length_map, length_seq. Qed.

Lemma synd_bytes : bytesL synd.
Proof.
  unfold synd, rsCalcSyndromes. apply bytesL_cons; [auto with gf|].
  unfold bytesL. apply Forall_forall. intros x Hx.
  apply list_elem_of_In, in_map_iff in Hx. destruct Hx as (i & <- & Hi).
  apply in_map_iff in Hi. destruct Hi as (k & <- & Hk). apply in_seq in Hk.
  apply polyEval_byte; [apply recv_bytes|apply gfExp_byte; lia].
Qed.

(** Each syndrome is a power sum over the error locators. *)
Lemma synd_power_sum k : (k < nsym)%nat ->
  syn synd k = 255 ⊗ xsumL (fun X => gpow X k) Xs.
Proof.
  intros Hk. unfold syn, synd, rsCalcSyndromes. cbn [nth]. unfold indices.
  rewrite map_map, nth_map_seq by exact Hk. cbn [Nat.add].
  rewrite alpha_table by lia. unfold recv.
  rewrite received_eval by (auto using enc_bytes, alpha_byte).
  unfold enc at 1. rewrite rsEncode_root by (assumption || lia).
  rewrite Z.lxor_0_l, enc_length. apply errWord_eval.
Qed.

(** ** Zero syndromes: nothing was corrupted *)

Lemma rsCheckSyndromes_zero :
  rsCheckSyndromes synd = true -> forall k, (k < nsym)%nat -> syn synd k = 0.
Proof.
  unfold rsCheckSyndromes, syn. intros H k Hk.
  rewrite forallb_forall in H.
  destruct synd as [|s0 rest] eqn:Hs; [destruct k; reflexivity|].
  cbn [drop] in H. cbn [nth].
  assert (Hl : length (s0 :: rest) = S nsym) by (rewrite <- Hs; apply synd_length).
  cbn [length] in Hl.
  rewrite drop_0 in H. apply Z.eqb_eq, H, nth_In. lia.
Qed.

Lemma zero_syndromes_no_locators : rsCheckSyndromes synd = true -> Xs = [].
Proof.
  intros Hz. pose proof (rsCheckSyndromes_zero Hz) as Hs.
  destruct Xs as [|X rest] eqn:HXs; [reflexivity|exfalso].
  assert (H1 : 1 = 0).
  { refine (vandermonde Xs Xs_bytes Xs_NoDup (fun _ => 1) _ _ X _).
    - intros; auto with gf.
    - intros t Ht.
      assert (Hpow : 255 ⊗ xsumL (fun X => gpow X t) Xs = 0).
      { rewrite <- synd_power_sum; [apply Hs|]; pose proof Xs_capacity; lia. }
      assert (Hb : byte (xsumL (fun X => gpow X t) Xs)).
      { apply xsumL_byte. intros Y HY. apply gpow_byte. exact (bytesL_In Xs Y Xs_bytes HY). }
      apply gfMul_eq_0 in Hpow; [|auto with gf|exact Hb].
      destruct Hpow as [Hpow|Hpow]; [discriminate|].
      rewrite <- Hpow. apply xsumL_ext. intros Y HY. apply gfMul_1_l.
      apply gpow_byte. exact (bytesL_In Xs Y Xs_bytes HY).
    - rewrite HXs. now left. }
  discriminate.
Qed.

Lemma zero_syndromes_recv : rsCheckSyndromes synd = true -> recv = enc.
Proof.
  intros Hz. pose proof (zero_syndromes_no_locators Hz) as HXs.
  apply (nth_ext _ _ 0 0); [now rewrite recv_length, enc_length|].
  intros k Hk. rewrite recv_length in Hk. rewrite recv_nth by exact Hk.
  rewrite (errAt_no_locators errors n k HXs Hk). apply Z.lxor_0_r.
Qed.

(** ** The locator *)

Lemma rsFindErrorLocator_locator : rsFindErrorLocator synd nsym = inr (lamOf Xs).
Proof.
  unfold rsFindErrorLocator. cbv zeta.
  assert (Hbm : berlekampMassey synd nsym = lamOf Xs).
  { apply (berlekampMassey_locator Xs 255 nsym synd Xs_bytes Xs_NoDup Xs_nonzero).
    - auto with gf.
    - discriminate.
    - apply synd_bytes.
    - apply Xs_capacity.
    - apply synd_power_sum. }
  rewrite Hbm.
  unfold len. rewrite lamOf_length. pose proof Xs_capacity.
  destruct (Z.gtb_spec ((Z.of_nat (S (length Xs)) - 1) * 2) (Z.of_nat nsym)); [lia|reflexivity].
Qed.

(** ** Chien search *)

Lemma exps_lt i : In i exps -> (i < n)%nat.
Proof. intros Hi. apply errExps_spec in Hi. tauto. Qed.

Lemma alpha_in_Xs i : (i < n)%nat -> In (alpha i) Xs <-> In i exps.
Proof.
  intros Hi. unfold Xs, errXs. fold exps. rewrite in_map_iff. split.
  - intros (j & Hj & Hin). pose proof (exps_lt j Hin). pose proof n_le.
    apply alpha_inj in Hj; [now subst|lia|lia].
  - intros Hin. now exists i.
Qed.

Lemma chien_root i : (i < n)%nat ->
  (polyEval (lamOf Xs) (rd gfExp (255 - Z.of_nat i)) =? 0)
  = bool_decide (Z.of_nat (n - 1 - i) ∈ errors).
Proof.
  intros Hi. pose proof n_le as Hn.
  replace (255 - Z.of_nat i) with (Z.of_nat (255 - i)) by lia.
  rewrite alpha_table by lia. rewrite <- gfInverse_alpha by lia.
  assert (Hinv : byte (gfInverse (alpha i)))
    by (apply gfInverse_byte; [apply alpha_byte|apply alpha_nonzero]).
  rewrite lamOf_eval by (auto using Xs_bytes).
  assert (Hfb : forall Y, In Y Xs -> byte (Y ⊗ gfInverse (alpha i) ⊕ 1)).
  { intros Y HY. pose proof (bytesL_In Xs Y Xs_bytes HY). auto with gf. }
  destruct (bool_decide (Z.of_nat (n - 1 - i) ∈ errors)) eqn:Hin.
  - apply bool_decide_eq_true in Hin. apply Z.eqb_eq.
    apply (prodL_zero _ _ (alpha i)); [exact Hfb| |].
    + apply alpha_in_Xs; [exact Hi|]. apply errExps_spec. now split.
    + apply locator_factor_zero; auto using alpha_byte, alpha_nonzero.
  - apply bool_decide_eq_false in Hin. apply Z.eqb_neq. intros H0.
    apply prodL_eq_0 in H0; [|exact Hfb]. destruct H0 as (Y & HY & HfY).
    apply (proj1 (locator_factor_zero Y (alpha i) (bytesL_In Xs Y Xs_bytes HY)
                    (alpha_byte i) (alpha_nonzero i))) in HfY.
    subst Y. apply alpha_in_Xs in HY; [|exact Hi].
    apply errExps_spec in HY. tauto.
Qed.

Definition errPos : list Z := map posOf exps.

Lemma chienSearch_positions : chienSearch (lamOf Xs) n = errPos.
Proof.
  unfold chienSearch.
  rewrite (fold_left_push (fun i => polyEval (lamOf Xs) (rd gfExp (255 - i)) =? 0)
             (fun i => Z.of_nat n - 1 - i)).
  cbn [app]. unfold indices. rewrite filter_map_comm, map_map.
  unfold errPos, exps, errExps, posOf. f_equal.
  apply filter_ext_in. intros i Hi. apply in_seq in Hi. apply chien_root. lia.
Qed.

Lemma errPos_length : length errPos = length Xs.
Proof. unfold errPos. now rewrite length_map, Xs_length. Qed.

Lemma rsFindErrors_positions : rsFindErrors (lamOf Xs) n = inr errPos.
Proof.
  unfold rsFindErrors. cbv zeta. rewrite chienSearch_positions.
  unfold len. rewrite lamOf_length, errPos_length.
  destruct (Z.eqb_spec (Z.of_nat (length Xs)) (Z.of_nat (S (length Xs)) - 1)); [reflexivity|lia].
Qed.

(** ** Forney's formula *)

Definition syndPoly : list Z :=
  map (fun i => rd synd i) (map (fun k => Z.of_nat nsym - Z.of_nat k) (seq 0 nsym)).

Lemma syndPoly_length : length syndPoly = nsym.
Proof. unfold syndPoly. now rewrite !length_map, length_seq. Qed.

Lemma syndPoly_bytes : bytesL syndPoly.
Proof.
  unfold syndPoly, bytesL. apply Forall_forall. intros x Hx.
  apply list_elem_of_In, in_map_iff in Hx. destruct Hx as (i & <- & _).
  apply bytesL_rd, synd_bytes.
Qed.

Lemma syndPoly_cf j : (j < nsym)%nat -> cf syndPoly j = syn synd j.
Proof.
  intros Hj. rewrite cf_nth by (now rewrite syndPoly_length).
  rewrite syndPoly_length. unfold syndPoly. rewrite map_map, nth_map_seq by lia.
  unfold syn. replace (Z.of_nat nsym - Z.of_nat (nsym - 1 - j)) with (Z.of_nat (S j)) by lia.
  apply rd_nat.
Qed.

Definition omega : list Z :=
  drop (length (polyMul syndPoly (lamOf Xs)) - nsym) (polyMul syndPoly (lamOf Xs)).

Lemma omega_code :
  (if len (polyMul syndPoly (lamOf Xs)) >? Z.of_nat nsym
   then drop (length (polyMul syndPoly (lamOf Xs)) - nsym) (polyMul syndPoly (lamOf Xs))
   else polyMul syndPoly (lamOf Xs)) = omega.
Proof.
  unfold omega, len.
  destruct (Z.gtb_spec (Z.of_nat (length (polyMul syndPoly (lamOf Xs)))) (Z.of_nat nsym))
    as [Hgt|Hle]; [reflexivity|].
  replace (length (polyMul syndPoly (lamOf Xs)) - nsym)%nat with 0%nat by lia.
  reflexivity.
Qed.

Lemma omega_length : length omega = nsym.
Proof.
  unfold omega. rewrite length_drop, polyMul_length, syndPoly_length, lamOf_length. lia.
Qed.

Lemma omega_bytes : bytesL omega.
Proof.
  apply bytesL_drop, polyMul_bytes; [apply syndPoly_bytes|apply lamOf_bytes, Xs_bytes].
Qed.

Lemma omega_cf d : (d < nsym)%nat ->
  cf omega d = 255 ⊗ xsumL (fun X => cf (lamOf (others X Xs)) d) Xs.
Proof.
  intros Hd. pose proof Xs_bytes as HXb.
  assert (HLb : bytesL (lamOf Xs)) by (apply lamOf_bytes, HXb).
  unfold omega. rewrite cf_drop
    by (rewrite polyMul_length, syndPoly_length, lamOf_length; lia).
  rewrite polyMul_cf; [| |apply lamOf_nonempty].
  2:{ intros H. apply (f_equal (@length Z)) in H. rewrite syndPoly_length in H.
      cbn in H. lia. }
  rewrite xsum_swap, syndPoly_length, lamOf_length.
  rewrite (xsum_ext _ (fun b => if (b <=? d)%nat
                                then cf syndPoly (d - b) ⊗ cf (lamOf Xs) b else 0)).
  2:{ intros b Hb. destruct (Nat.leb_spec b d) as [Hle|Hgt].
      - rewrite (xsum_single _ _ (d - b)%nat).
        + destruct (Nat.eqb_spec (d - b + b) d); [reflexivity|lia].
        + lia.
        + intros a Ha Hne. destruct (Nat.eqb_spec (a + b) d); [lia|reflexivity].
      - apply xsum_zero. intros a Ha.
        destruct (Nat.eqb_spec (a + b) d); [lia|reflexivity]. }
  rewrite (xsum_cut (fun b => cf syndPoly (d - b) ⊗ cf (lamOf Xs) b))
    by (intros b Hb; rewrite (cf_ge (lamOf Xs)) by (rewrite lamOf_length; lia);
        apply gfMul_0_r).
  rewrite (xsum_ext _ (fun b => 255 ⊗ xsumL (fun X => cf (lamOf Xs) b ⊗ gpow X (d - b)) Xs)).
  2:{ intros b Hb. rewrite syndPoly_cf, synd_power_sum by lia.
      assert (Hc : byte (cf (lamOf Xs) b)) by auto with gf.
      assert (Hs : byte (xsumL (fun X => gpow X (d - b)) Xs)).
      { apply xsumL_byte. intros Y HY. apply gpow_byte. exact (bytesL_In Xs Y HXb HY). }
      rewrite <- xsumL_mul_l.
      - gf_ring.
      - exact Hc.
      - intros Y HY. apply gpow_byte. exact (bytesL_In Xs Y HXb HY). }
  rewrite <- xsum_mul_l.
  2:{ auto with gf. }
  2:{ intros b Hb. apply xsumL_byte. intros Y HY.
      pose proof (bytesL_In Xs Y HXb HY). auto with gf. }
  f_equal. unfold xsum.
  rewrite (xsumL_swap (fun b X => cf (lamOf Xs) b ⊗ gpow X (d - b))).
  apply xsumL_ext. intros X HX. symmetry.
  apply (quotient_cf X Xs d HXb Xs_NoDup HX).
Qed.

Lemma omega_eval x : byte x ->
  polyEval omega x = 255 ⊗ xsumL (fun X => polyEval (lamOf (others X Xs)) x) Xs.
Proof.
  intros Hx. pose proof Xs_bytes as HXb.
  assert (HQb : forall X, bytesL (lamOf (others X Xs)))
    by (intros X; apply lamOf_bytes, others_bytes, HXb).
  rewrite polyEval_sum by (auto using omega_bytes). rewrite omega_length.
  rewrite (xsum_ext _ (fun d => 255 ⊗ xsumL (fun X => cf (lamOf (others X Xs)) d ⊗ gpow x d) Xs)).
  2:{ intros d Hd. rewrite omega_cf by exact Hd.
      assert (Hs : byte (xsumL (fun X => cf (lamOf (others X Xs)) d) Xs)).
      { apply xsumL_byte. intros Y HY. apply cf_byte, HQb. }
      rewrite <- xsumL_mul_r.
      - assert (byte (gpow x d)) by auto with gf. gf_ring.
      - auto with gf.
      - intros Y HY. apply cf_byte, HQb. }
  rewrite <- xsum_mul_l.
  2:{ auto with gf. }
  2:{ intros d Hd. apply xsumL_byte. intros Y HY.
      pose proof (cf_byte _ d (HQb Y)). auto with gf. }
  f_equal. unfold xsum.
  rewrite (xsumL_swap (fun d X => cf (lamOf (others X Xs)) d ⊗ gpow x d)).
  apply xsumL_ext. intros X HX. symmetry.
  apply polyEval_sum_upto; [apply HQb|exact Hx|].
  rewrite lamOf_length, (others_length X Xs Xs_NoDup HX).
  pose proof Xs_capacity. lia.
Qed.

(** The evaluator at the inverse of a locator. *)
Lemma forney_value X : In X Xs ->
  polyEval omega (gfInverse X) = 255 ⊗ prodL (fun Y => 1 ⊕ gfInverse X ⊗ Y) (others X Xs).
Proof.
  intros HX. pose proof Xs_bytes as HXb.
  assert (HXbyte : byte X) by exact (bytesL_In Xs X HXb HX).
  assert (HX0 : X <> 0) by (now apply Xs_nonzero).
  assert (Hinv : byte (gfInverse X)) by (now apply gfInverse_byte).
  rewrite omega_eval by exact Hinv. f_equal.
  rewrite (xsumL_single _ Xs X Xs_NoDup HX).
  - rewrite lamOf_eval by (auto using others_bytes).
    apply prodL_ext. intros Y HY. apply others_In in HY.
    pose proof (bytesL_In Xs Y HXb (proj1 HY)). gf_ring.
  - intros Z0 HZ Hne. rewrite lamOf_eval by (auto using others_bytes).
    apply (prodL_zero _ _ X).
    + intros Y HY. apply others_In in HY.
      pose proof (bytesL_In Xs Y HXb (proj1 HY)). auto with gf.
    + apply others_In. split; [exact HX|congruence].
    + now apply locator_factor_zero.
Qed.

Lemma forney_denominator X : In X Xs ->
  prodL (fun Y => 1 ⊕ gfInverse X ⊗ Y) (others X Xs) <> 0.
Proof.
  intros HX. pose proof Xs_bytes as HXb.
  assert (HXbyte : byte X) by exact (bytesL_In Xs X HXb HX).
  assert (HX0 : X <> 0) by (now apply Xs_nonzero).
  assert (Hinv : byte (gfInverse X)) by (now apply gfInverse_byte).
  apply prodL_nonzero.
  - intros Y HY. apply others_In in HY.
    pose proof (bytesL_In Xs Y HXb (proj1 HY)). auto with gf.
  - intros Y HY H0. apply others_In in HY. destruct HY as [HY Hne]. apply Hne.
    pose proof (bytesL_In Xs Y HXb HY) as HYb.
    apply (proj1 (locator_factor_zero Y X HYb HXbyte HX0)).
    rewrite <- H0. gf_ring.
Qed.

(** The locator the code recomputes from a position found. *)
Lemma locator_at j : (j < length Xs)%nat ->
  rd gfExp (Z.of_nat n - 1 - rd errPos (Z.of_nat j)) = nth j Xs 0.
Proof.
  intros Hj. rewrite Xs_length in Hj.
  rewrite rd_nat. unfold errPos. rewrite (nth_map_lt _ _ _ _ 0%nat) by exact Hj.
  assert (He : (nth j exps 0 < n)%nat) by (apply exps_lt, nth_In, Hj).
  unfold posOf. replace (Z.of_nat n - 1 - (Z.of_nat n - 1 - Z.of_nat (nth j exps 0%nat)))
    with (Z.of_nat (nth j exps 0%nat)) by lia.
  pose proof n_le. rewrite alpha_table by lia.
  unfold Xs, errXs. fold exps. now rewrite (nth_map_lt _ _ _ _ 0%nat) by exact Hj.
Qed.

Lemma errLocPrimeOf_product i : (i < length Xs)%nat ->
  errLocPrimeOf errPos n (Z.of_nat i) (gfInverse (nth i Xs 0))
  = prodL (fun Y => 1 ⊕ gfInverse (nth i Xs 0) ⊗ Y) (others (nth i Xs 0) Xs).
Proof.
  intros Hi. pose proof Xs_bytes as HXb.
  set (X := nth i Xs 0).
  assert (HX : In X Xs) by (apply nth_In, Hi).
  assert (HXbyte : byte X) by exact (bytesL_In Xs X HXb HX).
  assert (Hinv : byte (gfInverse X)) by (apply gfInverse_byte; [|apply Xs_nonzero]; assumption).
  unfold errLocPrimeOf, indices. rewrite errPos_length, fold_left_map_arg.
  rewrite (fold_left_ext_in _
             (fun acc j => (fun acc Y => if negb (Y =? X)
                                         then acc ⊗ (fun Y => 1 ⊕ gfInverse X ⊗ Y) Y else acc)
                             acc (nth j Xs 0))).
  - rewrite <- (fold_left_map_arg
                  (fun acc Y => if negb (Y =? X)
                                then acc ⊗ (fun Y => 1 ⊕ gfInverse X ⊗ Y) Y else acc)
                  (fun j => nth j Xs 0)).
    rewrite map_nth_seq, fold_left_others.
    + apply gfMul_1_l, prodL_byte. intros Y HY. apply others_In in HY.
      pose proof (bytesL_In Xs Y HXb (proj1 HY)). auto with gf.
    + exact HXb.
    + intros Y HY. auto with gf.
    + auto with gf.
  - intros acc j Hj. apply in_seq in Hj. cbv beta.
    rewrite locator_at by lia.
    assert (Heq : (Z.of_nat j =? Z.of_nat i) = (nth j Xs 0 =? X)).
    { destruct (Z.eqb_spec (Z.of_nat j) (Z.of_nat i)) as [He|Hne];
        destruct (Z.eqb_spec (nth j Xs 0) X) as [He'|Hne']; try reflexivity.
      - exfalso. apply Hne'. unfold X. f_equal. lia.
      - exfalso. apply Hne. f_equal.
        apply (proj1 (List.NoDup_nth Xs 0) Xs_NoDup); [lia|exact Hi|exact He']. }
    now rewrite Heq.
Qed.

(** The magnitudes Forney's loop writes. *)
Definition magnitudes : list Z :=
  fold_left (fun errMag i => wr errMag (rd errPos i) 255)
            (indices (length errPos)) (replicate n 0).

Lemma rsFindErrorMagnitudes_magnitudes :
  rsFindErrorMagnitudes synd (lamOf Xs) errPos n = inr magnitudes.
Proof.
  unfold rsFindErrorMagnitudes. cbv zeta. rewrite synd_length.
  replace (S nsym - 1)%nat with nsym by lia. fold syndPoly. rewrite omega_code.
  unfold magnitudes. apply fold_left_inr.
  intros errMag i Hi. unfold indices in Hi. apply in_map_iff in Hi.
  destruct Hi as (j & <- & Hj). apply in_seq in Hj. rewrite errPos_length in Hj.
  rewrite locator_at by lia.
  assert (HX : In (nth j Xs 0) Xs) by (apply nth_In; lia).
  rewrite errLocPrimeOf_product by lia.
  rewrite (forney_value _ HX).
  pose proof (forney_denominator _ HX) as Hden.
  destruct (Z.eqb_spec (prodL (fun Y => 1 ⊕ gfInverse (nth j Xs 0) ⊗ Y)
                              (others (nth j Xs 0) Xs)) 0) as [H0|_]; [contradiction|].
  rewrite gfDiv_mul; [reflexivity|auto with gf| |exact Hden].
  pose proof Xs_bytes as HXb.
  assert (HXbyte : byte (nth j Xs 0)) by exact (bytesL_In Xs _ HXb HX).
  assert (Hinv : byte (gfInverse (nth j Xs 0)))
    by (apply gfInverse_byte; [|apply Xs_nonzero]; assumption).
  apply prodL_byte. intros Y HY. apply others_In in HY.
  pose proof (bytesL_In Xs Y HXb (proj1 HY)). auto with gf.
Qed.

Lemma errPos_spec k : (k < n)%nat -> Z.of_nat k ∈ errPos <-> Z.of_nat k ∈ errors.
Proof.
  intros Hk. rewrite list_elem_of_In. unfold errPos. rewrite in_map_iff. split.
  - intros (e & He & Hin). apply errExps_spec in Hin. destruct Hin as [Hlt Hin].
    unfold posOf in He. now replace k with (n - 1 - e)%nat by lia.
  - intros Hin. exists (n - 1 - k)%nat. split; [unfold posOf; lia|].
    apply errExps_spec. split; [lia|]. now replace (n - 1 - (n - 1 - k))%nat with k by lia.
Qed.

Lemma errPos_NoDup : List.NoDup errPos.
Proof.
  unfold errPos. apply NoDup_map_inj; [|apply errExps_NoDup].
  intros i j Hi Hj. apply exps_lt in Hi, Hj. unfold posOf. lia.
Qed.

Lemma magnitudes_length : length magnitudes = n.
Proof.
  unfold magnitudes. generalize (indices (length errPos)).
  assert (H : length (replicate n 0) = n) by apply length_replicate.
  revert H. generalize (replicate n 0).
  intros em Hem l. revert em Hem. induction l as [|i l IH]; intros em Hem; [exact Hem|].
  cbn [fold_left]. apply IH. now rewrite wr_length.
Qed.

Lemma magnitudes_nth k : (k < n)%nat -> nth k magnitudes 0 = errAt errors k.
Proof.
  intros Hk. unfold magnitudes.
  assert (Hfold : forall em,
             fold_left (fun errMag i => wr errMag (rd errPos i) 255)
                       (indices (length errPos)) em
             = fold_left (fun em p => wr em p 255) errPos em).
  { intros em.
    transitivity (fold_left (fun em p => wr em p 255)
                            (map (fun j => nth j errPos 0) (seq 0 (length errPos))) em);
      [|now rewrite map_nth_seq].
    unfold indices. rewrite !fold_left_map_arg.
    apply fold_left_ext_in. intros a j _. now rewrite rd_nat. }
  rewrite Hfold, marks_nth by (now rewrite length_replicate).
  rewrite nth_replicate by exact Hk. unfold errAt.
  destruct (bool_decide (Z.of_nat k ∈ errPos)) eqn:Hin.
  - apply bool_decide_eq_true, errPos_spec in Hin; [|exact Hk].
    now rewrite bool_decide_eq_true_2.
  - apply bool_decide_eq_false in Hin. rewrite bool_decide_eq_false_2; [reflexivity|].
    intros H. apply Hin. now apply errPos_spec.
Qed.

(** ** The corrected word *)

Definition correctedWord : list Z :=
  fold_left (fun corrected pos => wr corrected pos (rd corrected pos ⊕ rd magnitudes pos))
            errPos recv.

Lemma correctedWord_codeword : correctedWord = enc.
Proof.
  change correctedWord with (xorInto (fun _ j => j) (rd magnitudes) errPos recv).
  apply (nth_ext _ _ 0 0); [now rewrite xorInto_length, recv_length, enc_length|].
  intros k Hk. rewrite xorInto_length, recv_length in Hk.
  rewrite xorInto_nth by (now rewrite recv_length).
  rewrite recv_nth by exact Hk.
  assert (Hsum : xsumL (fun j => if j =? Z.of_nat k then rd magnitudes j else 0) errPos
                 = errAt errors k).
  { destruct (bool_decide (Z.of_nat k ∈ errPos)) eqn:Hin.
    - apply bool_decide_eq_true in Hin.
      rewrite (xsumL_single _ errPos (Z.of_nat k) errPos_NoDup).
      + rewrite Z.eqb_refl, rd_nat. now apply magnitudes_nth.
      + now apply list_elem_of_In.
      + intros j Hj Hne. destruct (Z.eqb_spec j (Z.of_nat k)); [contradiction|reflexivity].
    - apply bool_decide_eq_false in Hin.
      rewrite xsumL_zero.
      + unfold errAt. rewrite bool_decide_eq_false_2; [reflexivity|].
        intros H. apply Hin. now apply errPos_spec.
      + intros j Hj. destruct (Z.eqb_spec j (Z.of_nat k)) as [->|Hne]; [|reflexivity].
        exfalso. apply Hin. now apply list_elem_of_In. }
  rewrite Hsum, Z.lxor_assoc, Z.lxor_nilpotent. apply Z.lxor_0_r.
Qed.

Lemma correct_codeword :
  correct recv synd nsym =
  inr {| success := true;
         corrected := enc;
         errorPositions := errPos;
         errorMagnitudes := magnitudes;
         message := CorrectedErrors (len errPos) |}.
Proof.
  unfold correct. rewrite rsFindErrorLocator_locator, recv_length.
  rewrite rsFindErrors_positions, rsFindErrorMagnitudes_magnitudes.
  fold correctedWord. now rewrite correctedWord_codeword.
Qed.

(** Decoding a word with at most [nsym / 2] symbols in error gives the
    codeword back. *)
Lemma correctionResult_codeword : msg <> [] ->
  let res := correctionResult recv nsym in
  success res = true /\ corrected res = enc.
Proof.
  intros Hne. cbv zeta. rewrite correctionResult_nonempty.
  - fold synd. destruct (rsCheckSyndromes synd) eqn:Hz.
    + cbn [success corrected]. split; [reflexivity|]. now apply zero_syndromes_recv.
    + rewrite correct_codeword. cbn [success corrected]. now split.
  - intros Hnil. pose proof recv_length as Hl. rewrite Hnil in Hl. cbn in Hl.
    unfold n in Hl. destruct msg; [contradiction|cbn in Hl; lia].
Qed.

End Decode.

End RSDecoder.

Module RSFacts.
Import GF RS.

(** The Forney loop never divides by zero. *)
Lemma rsFindErrorMagnitudes_total synd errLoc errPos msgLen :
  exists errMag, rsFindErrorMagnitudes synd errLoc errPos msgLen = inr errMag.
Proof.
  unfold rsFindErrorMagnitudes. cbv zeta.
  generalize (replicate msgLen 0) as errMag0.
  induction (indices (length errPos)) as [|i js IH]; intros errMag0.
  - now exists errMag0.
  - cbn [fold_left].
    destruct (Z.eqb_spec (errLocPrimeOf errPos msgLen i
                (gfInverse (rd gfExp (Z.of_nat msgLen - 1 - rd errPos i)))) 0) as [Hz|Hnz].
    + apply IH.
    + unfold gfDiv. destruct (Z.eqb_spec (errLocPrimeOf errPos msgLen i
                (gfInverse (rd gfExp (Z.of_nat msgLen - 1 - rd errPos i)))) 0); [contradiction|].
      destruct (_ =? 0); apply IH.
Qed.

(** C5. Once the syndromes of a non-empty received word are not all zero:
    if the Berlekamp-Massey locator has degree errs with 2*errs > nsym the
    result is a failure carrying TooManyErrors; otherwise, if the Chien
    search finds a number of positions other than errs, it is a failure
    carrying LocatorMismatch; a failure always carries one of these two
    errors, and a failed result returns the received word unmodified with
    no positions and no magnitudes. *)
Theorem rs_uncorrectable_failure (recv : list Z) (nsym : nat) :
  recv <> [] ->
  rsCheckSyndromes (syndromes recv nsym) = false ->
  let synd := syndromes recv nsym in
  let errLoc := berlekampMassey synd nsym in
  let errs := len errLoc - 1 in
  let res := correctionResult recv nsym in
  (2 * errs > Z.of_nat nsym ->
     success res = false /\ message res = Failure TooManyErrors /\ corrected res = recv) /\
  (2 * errs <= Z.of_nat nsym -> len (chienSearch errLoc (length recv)) <> errs ->
     success res = false /\ message res = Failure LocatorMismatch /\ corrected res = recv) /\
  (success res = false ->
     (message res = Failure TooManyErrors \/ message res = Failure LocatorMismatch) /\
     corrected res = recv /\ errorPositions res = [] /\ errorMagnitudes res = []).
Proof.
  intros Hne Hsyn synd errLoc errs res.
  subst res. unfold correctionResult. fold synd.
  destruct recv as [|r0 recv']; [contradiction|].
  set (recv := r0 :: recv') in *. fold synd in Hsyn. rewrite Hsyn.
  unfold correct, rsFindErrorLocator. fold errLoc. fold errs.
  destruct (Z.gtb_spec (errs * 2) (Z.of_nat nsym)) as [Hbig|Hsmall].
  - cbn. split; [auto|]. split; [intros; lia|auto].
  - unfold rsFindErrors. fold errs.
    destruct (Z.eqb_spec (len (chienSearch errLoc (length recv))) errs) as [Heq|Hneq]; cbn [negb].
    + destruct (rsFindErrorMagnitudes_total synd errLoc
                  (chienSearch errLoc (length recv)) (length recv)) as [errMag ->].
      cbn. split; [intros; lia|]. split; [intros _ Hc; now elim Hc|].
      intros Hf. discriminate Hf.
    + cbn. split; [intros; lia|]. split; auto.
Qed.

Lemma rs_uncorrectable_failure_witness :
  let recv := received (encoded [72; 101; 108; 108; 111; 33] 4) [1; 7; 3] in
  let synd := syndromes recv 4 in
  let errLoc := berlekampMassey synd 4 in
  let errs := len errLoc - 1 in
  let res := correctionResult recv 4 in
  (2 * errs > 4 ->
     success res = false /\ message res = Failure TooManyErrors /\ corrected res = recv) /\
  (2 * errs <= 4 -> len (chienSearch errLoc (length recv)) <> errs ->
     success res = false /\ message res = Failure LocatorMismatch /\ corrected res = recv) /\
  (success res = false ->
     (message res = Failure TooManyErrors \/ message res = Failure LocatorMismatch) /\
     corrected res = recv /\ errorPositions res = [] /\ errorMagnitudes res = []).
Proof.
  apply (rs_uncorrectable_failure
           (received (encoded [72; 101; 108; 108; 111; 33] 4) [1; 7; 3]) 4).
  - vm_compute. discriminate.
  - vm_compute. reflexivity.
Defined.

(** A 254-byte message, [0, 1, ..., 253]. *)
Definition longMessage : list Z := map (fun i => Z.of_nat i mod 256) (seq 0 254).

(** C1 as stated fails in two ways.  With the empty message the result is
    'Нет данных' with success false.  With a 254-byte message and
    nsym = 2 the codeword has 256 symbols; one corrupted symbol, at
    position 0, is within the capacity of one error, yet the Chien search
    meets the root of the locator twice, at i = 0 and at i = 255, and the
    result is the failure 'Could not find error positions': the received
    word is returned as it came, its first symbol still corrupted. *)
Lemma rs_round_trip_long_block_fails :
  (let res := correctionResult (received (encoded [] 2) []) 2 in
   success res = false /\ message res = NoData) /\
  (let res := correctionResult (received (encoded longMessage 2) [0]) 2 in
   Forall byte longMessage /\
   (length [0] <= maxErrors 2)%nat /\
   0 < len (encoded longMessage 2) /\
   success res = false /\
   message res = Failure LocatorMismatch /\
   take (length longMessage) (corrected res) <> longMessage).
Proof.
  split.
  - vm_compute. split; reflexivity.
  - cbv zeta. split.
    + apply Forall_forall. intros x Hx. apply list_elem_of_In, in_map_iff in Hx.
      destruct Hx as (i & <- & _). unfold byte. pose proof (Z.mod_pos_bound (Z.of_nat i) 256).
      lia.
    + split; [vm_compute; lia|]. split; [vm_compute; reflexivity|].
      split; [vm_compute; reflexivity|]. split; [vm_compute; reflexivity|].
      vm_compute. discriminate.
Qed.

(** C1 (amended). For every non-empty message of K bytes with
    K + nsym <= 255 and every set of at most floor(nsym/2) positions,
    flipping all bits of the codeword rsEncode(msg, nsym) at those positions
    and decoding succeeds, the corrected word is the codeword, and its first
    K symbols are the message. *)
Theorem rs_round_trip (msg : list Z) (nsym : nat) (errors : list Z) :
  msg <> [] -> Forall byte msg -> (length msg + nsym <= 255)%nat ->
  NoDup errors -> (length errors <= maxErrors nsym)%nat ->
  let res := correctionResult (received (encoded msg nsym) errors) nsym in
  success res = true /\
  corrected res = rsEncode msg nsym /\
  take (length msg) (corrected res) = msg.
Proof.
  intros Hne Hb Hlen Hnd Hcap. cbv zeta.
  assert (Hcap' : (2 * length errors <= nsym)%nat).
  { unfold maxErrors in Hcap. pose proof (Nat.Div0.mul_div_le nsym 2). lia. }
  assert (Henc : encoded msg nsym = rsEncode msg nsym)
    by (destruct msg; [contradiction|reflexivity]).
  rewrite Henc.
  destruct (RSDecoder.correctionResult_codeword msg nsym errors Hb Hlen Hnd Hcap' Hne)
    as [Hs Hc].
  unfold RSDecoder.recv, RSDecoder.enc in Hs, Hc. rewrite Hs, Hc.
  split; [reflexivity|]. split; [reflexivity|]. apply RSEncoder.rsEncode_systematic.
Qed.

Lemma rs_round_trip_witness :
  let msg := [72; 101; 108; 108; 111; 33] in
  let res := correctionResult (received (encoded msg 4) [1; 7]) 4 in
  success res = true /\
  corrected res = rsEncode msg 4 /\
  take (length msg) (corrected res) = msg.
Proof.
  apply (rs_round_trip [72; 101; 108; 108; 111; 33] 4 [1; 7]).
  - discriminate.
  - repeat (apply List.Forall_cons; [unfold byte; lia|]). apply List.Forall_nil.
  - vm_compute. lia.
  - refine (bool_decide_unpack _ _). vm_compute. exact I.
  - vm_compute. lia.
Defined.

End RSFacts.

(** * 32-bit integers *)
Module Int32Facts.

(** ToInt32 leaves a 32-bit integer as it is. *)
Lemma toInt32_id n : - 2 ^ 31 <= n < 2 ^ 31 -> toInt32 n = n.
Proof. intros Hn. unfold toInt32. rewrite Z.mod_small; lia. Qed.

End Int32Facts.

(** * Properties of the field arithmetic *)
Module GFProperties.
Import GF GFFacts GFField GFSums.

(** X1. On bytes [gfMul] is commutative and associative, has 1 as its
    identity and 0 as its absorbing element, distributes over XOR, and
    has no zero divisors. *)
Theorem gfMul_field_laws (a b c : Z) :
  byte a -> byte b -> byte c ->
  gfMul a b = gfMul b a /\
  gfMul a (gfMul b c) = gfMul (gfMul a b) c /\
  gfMul 1 a = a /\
  gfMul 0 a = 0 /\
  gfMul a (Z.lxor b c) = Z.lxor (gfMul a b) (gfMul a c) /\
  (gfMul a b = 0 -> a = 0 \/ b = 0).
Proof.
  intros Ha Hb Hc.
  split; [apply gfMul_comm|]. split; [now apply gfMul_assoc|].
  split; [now apply gfMul_1_l|]. split; [apply gfMul_0_l|].
  split; [now apply gfMul_lxor_r|]. now apply gfMul_eq_0.
Qed.

Lemma gfMul_field_laws_witness :
  gfMul 3 7 = gfMul 7 3 /\
  gfMul 3 (gfMul 7 200) = gfMul (gfMul 3 7) 200 /\
  gfMul 1 3 = 3 /\
  gfMul 0 3 = 0 /\
  gfMul 3 (Z.lxor 7 200) = Z.lxor (gfMul 3 7) (gfMul 3 200) /\
  (gfMul 3 7 = 0 -> 3 = 0 \/ 7 = 0).
Proof. apply (gfMul_field_laws 3 7 200); unfold byte; lia. Defined.

(** X2. The tables [initGF] builds are inverse to each other: [gfExp]
    maps every exponent [i] in 0..254 to a non-zero byte whose [gfLog] is
    [i], [gfLog] maps every non-zero byte [a] to an exponent in 0..254
    whose [gfExp] is [a], the upper part of [gfExp] repeats the lower one
    with period 255, and the logarithm of 0 is the marker -1. *)
Theorem initGF_tables_inverse (i a : Z) :
  0 <= i < 255 -> 1 <= a <= 255 ->
  (1 <= rd gfExp i <= 255 /\ rd gfLog (rd gfExp i) = i) /\
  (0 <= rd gfLog a <= 254 /\ rd gfExp (rd gfLog a) = a) /\
  (forall k, 0 <= k < 257 -> rd gfExp (k + 255) = rd gfExp k) /\
  rd gfLog 0 = -1 /\
  length gfExp = 512%nat /\ length gfLog = 256%nat.
Proof.
  intros Hi Ha.
  split; [split; [apply gfExp_range; lia|now apply gfLog_exp]|].
  split; [split; [now apply gfLog_range|now apply gfExp_log]|].
  split; [apply gfExp_dup|]. split; [reflexivity|].
  split; [apply gfExp_length|apply gfLog_length].
Qed.

Lemma initGF_tables_inverse_witness :
  (1 <= rd gfExp 8 <= 255 /\ rd gfLog (rd gfExp 8) = 8) /\
  (0 <= rd gfLog 29 <= 254 /\ rd gfExp (rd gfLog 29) = 29) /\
  (forall k, 0 <= k < 257 -> rd gfExp (k + 255) = rd gfExp k) /\
  rd gfLog 0 = -1 /\
  length gfExp = 512%nat /\ length gfLog = 256%nat.
Proof. apply (initGF_tables_inverse 8 29); lia. Defined.

(** X3. For a non-zero byte [x] and a power [k >= 0], [gfPow] is [x]
    multiplied [k] times with [gfMul]; the product [gfLog[x] * k] must stay
    an exact double, which [k < 2^44] ensures. *)
Theorem gfPow_repeated_gfMul (x : Z) (k : nat) :
  1 <= x <= 255 -> Z.of_nat k < 2 ^ 44 ->
  gfPow x (Z.of_nat k) = gpow x k.
Proof.
  intros Hx _. unfold gfPow.
  pose proof (gfLog_range x Hx) as Hl.
  assert (Hxa : x = alpha (Z.to_nat (rd gfLog x))).
  { unfold alpha. rewrite Z2Nat.id by lia. rewrite Z.mod_small by lia.
    symmetry. now apply gfExp_log. }
  rewrite Hxa at 2. rewrite gpow_alpha. unfold alpha.
  rewrite Z.rem_mod_nonneg by lia. f_equal. f_equal. lia.
Qed.

Lemma gfPow_repeated_gfMul_witness : gfPow 2 8 = gpow 2 8.
Proof. apply (gfPow_repeated_gfMul 2 8); lia. Defined.

(** X4. With base 0, [gfPow] returns 1 for a power that is a multiple of
    255 (it reads [gfExp[0]]), and for any other positive power it reads
    [gfExp] at a negative index. *)
Theorem gfPow_zero_base (power : Z) :
  0 <= power < 2 ^ 53 ->
  (power mod 255 = 0 -> gfPow 0 power = 1) /\
  (power mod 255 <> 0 -> Z.rem (rd gfLog 0 * power) 255 < 0).
Proof.
  intros Hp. unfold gfPow. change (rd gfLog 0) with (-1).
  replace (-1 * power) with (- power) by lia. rewrite Z.rem_opp_l by lia.
  rewrite Z.rem_mod_nonneg by lia. split.
  - intros ->. reflexivity.
  - intros Hne. pose proof (Z.mod_pos_bound power 255). lia.
Qed.

Lemma gfPow_zero_base_witness :
  (510 mod 255 = 0 -> gfPow 0 510 = 1) /\
  (510 mod 255 <> 0 -> Z.rem (rd gfLog 0 * 510) 255 < 0).
Proof. apply (gfPow_zero_base 510). lia. Defined.

(** X5. [gfDiv] throws exactly on a zero divisor; otherwise it is
    multiplication by [gfInverse] of the divisor, and it undoes [gfMul]. *)
Theorem gfDiv_by_inverse (a b : Z) :
  byte a -> byte b ->
  (gfDiv a b = None <-> b = 0) /\
  (b <> 0 -> gfDiv a b = Some (gfMul a (gfInverse b)) /\
             exists q, gfDiv a b = Some q /\ gfMul q b = a).
Proof.
  intros Ha Hb. split.
  - unfold gfDiv. destruct (Z.eqb_spec b 0) as [->|Hne].
    + tauto.
    + split; [|contradiction]. destruct (a =? 0); discriminate.
  - intros Hne.
    assert (Htab : (if b =? 0 then true
                    else match gfDiv a b with
                         | Some q => (q =? gfMul a (gfInverse b)) && (gfMul q b =? a)
                         | None => false
                         end) = true).
    { apply (byte_cases2
               (fun a b => if b =? 0 then true
                           else match gfDiv a b with
                                | Some q => (q =? gfMul a (gfInverse b)) && (gfMul q b =? a)
                                | None => false
                                end)); [vm_compute; reflexivity|exact Ha|exact Hb]. }
    destruct (Z.eqb_spec b 0); [contradiction|].
    destruct (gfDiv a b) as [q|]; [|discriminate].
    apply andb_true_iff in Htab. destruct Htab as [H1 H2].
    apply Z.eqb_eq in H1, H2. subst q. split; [reflexivity|].
    eexists. split; [reflexivity|exact H2].
Qed.

Lemma gfDiv_by_inverse_witness :
  (gfDiv 200 7 = None <-> 7 = 0) /\
  (7 <> 0 -> gfDiv 200 7 = Some (gfMul 200 (gfInverse 7)) /\
             exists q, gfDiv 200 7 = Some q /\ gfMul q 7 = 200).
Proof. apply (gfDiv_by_inverse 200 7); unfold byte; lia. Defined.

End GFProperties.

(** * Properties of the Reed-Solomon codec *)
Module RSProperties.
Import GF GFFacts GFField GFRing RS GFSums RSLoops RSEncoder RSChannel RSLocator
       RSRecurrence RSBerlekamp RSForney.

(** X6. [polyMul] of two non-empty byte polynomials has
    [p.length + q.length - 1] byte coefficients and evaluates, with
    [polyEval], to the product of the evaluations. *)
Theorem polyMul_evaluates_to_product (p q : list Z) (x : Z) :
  Forall byte p -> Forall byte q -> byte x -> p <> [] -> q <> [] ->
  length (polyMul p q) = (length p + length q - 1)%nat /\
  Forall byte (polyMul p q) /\
  polyEval (polyMul p q) x = gfMul (polyEval p x) (polyEval q x).
Proof.
  intros Hp Hq Hx Hpn Hqn. split; [apply polyMul_length|].
  split; [now apply polyMul_bytes|]. now apply polyEval_polyMul.
Qed.

Lemma polyMul_evaluates_to_product_witness :
  length (polyMul [1; 2] [3; 4; 5]) = (2 + 3 - 1)%nat /\
  Forall byte (polyMul [1; 2] [3; 4; 5]) /\
  polyEval (polyMul [1; 2] [3; 4; 5]) 7 = gfMul (polyEval [1; 2] 7) (polyEval [3; 4; 5] 7).
Proof.
  apply (polyMul_evaluates_to_product [1; 2] [3; 4; 5] 7);
    try discriminate; try (unfold byte; lia);
    repeat (apply List.Forall_cons; [unfold byte; lia|]); apply List.Forall_nil.
Defined.

(** X7. For [nsym <= 512] the generator polynomial has [nsym + 1] byte
    coefficients, leading coefficient 1, and vanishes at
    [gfExp[0], ..., gfExp[nsym - 1]]. *)
Theorem rsGeneratorPoly_roots (nsym : nat) :
  (nsym <= 512)%nat ->
  length (rsGeneratorPoly nsym) = S nsym /\
  Forall byte (rsGeneratorPoly nsym) /\
  rd (rsGeneratorPoly nsym) 0 = 1 /\
  forall i, (i < nsym)%nat -> polyEval (rsGeneratorPoly nsym) (rd gfExp (Z.of_nat i)) = 0.
Proof.
  intros Hn. split; [apply rsGeneratorPoly_length|].
  split; [now apply rsGeneratorPoly_bytes|].
  split; [now apply rsGeneratorPoly_monic|].
  intros i Hi. rewrite alpha_table by lia. now apply rsGeneratorPoly_root.
Qed.

Lemma rsGeneratorPoly_roots_witness :
  length (rsGeneratorPoly 4) = 5%nat /\
  Forall byte (rsGeneratorPoly 4) /\
  rd (rsGeneratorPoly 4) 0 = 1 /\
  forall i, (i < 4)%nat -> polyEval (rsGeneratorPoly 4) (rd gfExp (Z.of_nat i)) = 0.
Proof. apply (rsGeneratorPoly_roots 4). lia. Defined.

(** X8. [rsEncode] is systematic: for a byte message and [nsym <= 512]
    the codeword has [K + nsym] byte symbols and starts with the message
    unchanged. *)
Theorem rsEncode_is_systematic (msg : list Z) (nsym : nat) :
  Forall byte msg -> (nsym <= 512)%nat ->
  length (rsEncode msg nsym) = (length msg + nsym)%nat /\
  take (length msg) (rsEncode msg nsym) = msg /\
  Forall byte (rsEncode msg nsym).
Proof.
  intros Hb Hn. split; [apply rsEncode_length|].
  split; [apply rsEncode_systematic|]. now apply rsEncode_bytes.
Qed.

Lemma rsEncode_is_systematic_witness :
  length (rsEncode [72; 105] 4) = (2 + 4)%nat /\
  take 2 (rsEncode [72; 105] 4) = [72; 105] /\
  Forall byte (rsEncode [72; 105] 4).
Proof.
  apply (rsEncode_is_systematic [72; 105] 4); [|lia].
  repeat (apply List.Forall_cons; [unfold byte; lia|]). apply List.Forall_nil.
Defined.

(** All syndromes zero, read off [rsCheckSyndromes]. *)
Lemma rsCheckSyndromes_spec (synd : list Z) :
  rsCheckSyndromes synd = true <->
  forall k, (S k < length synd)%nat -> nth (S k) synd 0 = 0.
Proof.
  unfold rsCheckSyndromes. rewrite forallb_forall. destruct synd as [|s0 rest].
  - cbn. split; [intros _ k Hk; lia|intros _ x []].
  - cbn [drop length nth]. rewrite drop_0. split.
    + intros H k Hk. apply Z.eqb_eq, H, nth_In. lia.
    + intros H x Hx. apply (In_nth _ _ 0) in Hx. destruct Hx as (k & Hk & <-).
      apply Z.eqb_eq, H. lia.
Qed.

Lemma rsCalcSyndromes_nth (word : list Z) (nsym k : nat) : (k < nsym)%nat ->
  nth (S k) (rsCalcSyndromes word nsym) 0 = polyEval word (rd gfExp (Z.of_nat k)).
Proof.
  intros Hk. unfold rsCalcSyndromes, indices. cbn [nth].
  now rewrite map_map, nth_map_seq.
Qed.

Lemma rsCalcSyndromes_length (word : list Z) (nsym : nat) :
  length (rsCalcSyndromes word nsym) = S nsym.
Proof. unfold rsCalcSyndromes, indices. cbn [length]. now rewrite !length_map, length_seq. Qed.

(** X9. A codeword has all syndromes zero: for a non-empty byte message
    of any length and [nsym <= 512], [hasErrors] is false on the encoded
    word and [correctionResult] returns it unchanged with
    'Ошибок не обнаружено'. *)
Theorem codeword_has_zero_syndromes (msg : list Z) (nsym : nat) :
  msg <> [] -> Forall byte msg -> (nsym <= 512)%nat ->
  let word := received (encoded msg nsym) clearErrors in
  rsCheckSyndromes (syndromes word nsym) = true /\
  hasErrors (syndromes word nsym) = false /\
  correctionResult word nsym =
    {| success := true; corrected := rsEncode msg nsym; errorPositions := [];
       errorMagnitudes := []; message := NoErrorsDetected |}.
Proof.
  intros Hne Hb Hn. cbv zeta.
  assert (Henc : encoded msg nsym = rsEncode msg nsym)
    by (destruct msg; [contradiction|reflexivity]).
  unfold clearErrors. cbn [received fold_left]. rewrite Henc.
  assert (Hwne : rsEncode msg nsym <> []).
  { intros H. apply (f_equal (@length Z)) in H. rewrite rsEncode_length in H.
    destruct msg; [contradiction|cbn in H; lia]. }
  assert (Hsyn : syndromes (rsEncode msg nsym) nsym = rsCalcSyndromes (rsEncode msg nsym) nsym)
    by (unfold syndromes; destruct (rsEncode msg nsym); [contradiction|reflexivity]).
  assert (Hz : rsCheckSyndromes (rsCalcSyndromes (rsEncode msg nsym) nsym) = true).
  { apply rsCheckSyndromes_spec. intros k Hk. rewrite rsCalcSyndromes_length in Hk.
    rewrite rsCalcSyndromes_nth by lia. rewrite alpha_table by lia.
    apply rsEncode_root; [exact Hb|exact Hn|lia]. }
  rewrite Hsyn. split; [exact Hz|]. split.
  - unfold hasErrors. rewrite Hz. apply andb_false_r.
  - rewrite RSDecoder.correctionResult_nonempty by exact Hwne. now rewrite Hz.
Qed.

Lemma codeword_has_zero_syndromes_witness :
  let word := received (encoded [72; 105] 4) clearErrors in
  rsCheckSyndromes (syndromes word 4) = true /\
  hasErrors (syndromes word 4) = false /\
  correctionResult word 4 =
    {| success := true; corrected := rsEncode [72; 105] 4; errorPositions := [];
       errorMagnitudes := []; message := NoErrorsDetected |}.
Proof.
  apply (codeword_has_zero_syndromes [72; 105] 4); [discriminate| |lia].
  repeat (apply List.Forall_cons; [unfold byte; lia|]). apply List.Forall_nil.
Defined.

Lemma errAt_twice errors k : errAt errors k ⊕ errAt errors k = 0.
Proof. apply Z.lxor_nilpotent. Qed.

(** X10. [received] keeps the length of the word and changes it exactly
    at the positions of the set that lie inside it, where it flips all
    eight bits; applying the same set of positions again restores the
    word. *)
Theorem received_flips_listed_positions (enc errors : list Z) :
  Forall byte enc -> NoDup errors ->
  length (received enc errors) = length enc /\
  Forall byte (received enc errors) /\
  (forall k, (k < length enc)%nat ->
     nth k (received enc errors) 0 =
     if bool_decide (Z.of_nat k ∈ errors) then Z.lxor (nth k enc 0) 255 else nth k enc 0) /\
  received (received enc errors) errors = enc.
Proof.
  intros Hb Hnd. split; [apply received_length|]. split; [now apply received_bytes|].
  assert (Hnth : forall k, (k < length enc)%nat ->
     nth k (received enc errors) 0 =
     if bool_decide (Z.of_nat k ∈ errors) then Z.lxor (nth k enc 0) 255 else nth k enc 0).
  { intros k Hk. rewrite received_nth by assumption. unfold errAt.
    destruct (bool_decide _); [reflexivity|apply Z.lxor_0_r]. }
  split; [exact Hnth|].
  apply (nth_ext _ _ 0 0); [now rewrite !received_length|].
  intros k Hk. rewrite !received_length in Hk.
  rewrite received_nth; [|now apply received_bytes|exact Hnd|now rewrite received_length].
  rewrite received_nth by assumption.
  rewrite Z.lxor_assoc, errAt_twice. apply Z.lxor_0_r.
Qed.

Lemma received_flips_listed_positions_witness :
  length (received [1; 2; 3] [1; 9]) = length [1; 2; 3] /\
  Forall byte (received [1; 2; 3] [1; 9]) /\
  (forall k, (k < length [1; 2; 3])%nat ->
     nth k (received [1; 2; 3] [1; 9]) 0 =
     if bool_decide (Z.of_nat k ∈ [1; 9]) then Z.lxor (nth k [1; 2; 3] 0) 255
     else nth k [1; 2; 3] 0) /\
  received (received [1; 2; 3] [1; 9]) [1; 9] = [1; 2; 3].
Proof.
  apply (received_flips_listed_positions [1; 2; 3] [1; 9]).
  - repeat (apply List.Forall_cons; [unfold byte; lia|]). apply List.Forall_nil.
  - refine (bool_decide_unpack _ _). vm_compute. exact I.
Defined.

(** The syndromes of a corrupted codeword are power sums over the
    locators of the corrupted positions. *)
Lemma corrupted_syndrome (msg : list Z) (nsym : nat) (errors : list Z) (k : nat) :
  Forall byte msg -> (nsym <= 512)%nat -> NoDup errors -> (k < nsym)%nat ->
  nth (S k) (rsCalcSyndromes (received (rsEncode msg nsym) errors) nsym) 0
  = 255 ⊗ xsumL (fun X => gpow X k) (errXs errors (length msg + nsym)).
Proof.
  intros Hb Hn Hnd Hk. rewrite rsCalcSyndromes_nth by exact Hk.
  rewrite alpha_table by lia.
  rewrite received_eval by (auto using rsEncode_bytes, alpha_byte).
  rewrite rsEncode_root by (assumption || lia).
  rewrite Z.lxor_0_l, rsEncode_length. apply errWord_eval.
Qed.

(** X11. Error detection: when a non-empty message with
    [K + nsym <= 255] is encoded and at least one and at most [nsym]
    symbols of the codeword are corrupted, the syndromes are not all zero
    and [hasErrors] is true. *)
Theorem corruption_is_detected (msg : list Z) (nsym : nat) (errors : list Z) (p : Z) :
  msg <> [] -> Forall byte msg -> (length msg + nsym <= 255)%nat ->
  NoDup errors -> (length errors <= nsym)%nat ->
  p ∈ errors -> 0 <= p < Z.of_nat (length msg + nsym) ->
  let synd := syndromes (received (encoded msg nsym) errors) nsym in
  rsCheckSyndromes synd = false /\ hasErrors synd = true.
Proof.
  intros Hne Hb Hlen Hnd Hcap Hp Hrange. cbv zeta.
  assert (Henc : encoded msg nsym = rsEncode msg nsym)
    by (destruct msg; [contradiction|reflexivity]).
  rewrite Henc.
  set (n := (length msg + nsym)%nat) in *.
  set (recv := received (rsEncode msg nsym) errors).
  assert (Hrl : length recv = n) by (unfold recv; now rewrite received_length, rsEncode_length).
  assert (Hsyn : syndromes recv nsym = rsCalcSyndromes recv nsym).
  { unfold syndromes. destruct recv; [|reflexivity]. cbn in Hrl.
    destruct msg; [contradiction|]. unfold n in Hrl. cbn in Hrl. lia. }
  rewrite Hsyn.
  set (Xs := errXs errors n).
  assert (HXb : bytesL Xs) by apply errXs_bytes.
  assert (HXnd : List.NoDup Xs) by (apply errXs_NoDup; exact Hlen).
  assert (HXlen : (length Xs <= nsym)%nat)
    by (pose proof (errXs_length errors n Hnd); fold Xs in H; lia).
  assert (HXin : In (alpha (n - 1 - Z.to_nat p)) Xs).
  { unfold Xs, errXs. apply in_map, errExps_spec. split; [lia|].
    replace (n - 1 - (n - 1 - Z.to_nat p))%nat with (Z.to_nat p) by lia.
    now rewrite Z2Nat.id by lia. }
  assert (Hfalse : rsCheckSyndromes (rsCalcSyndromes recv nsym) = false).
  { destruct (rsCheckSyndromes (rsCalcSyndromes recv nsym)) eqn:Hz; [exfalso|reflexivity].
    assert (Hs : forall k, (S k < length (rsCalcSyndromes recv nsym))%nat ->
                           nth (S k) (rsCalcSyndromes recv nsym) 0 = 0)
      by (now apply rsCheckSyndromes_spec).
    rewrite rsCalcSyndromes_length in Hs.
    assert (H1 : 1 = 0).
    { refine (vandermonde Xs HXb HXnd (fun _ => 1) _ _ _ HXin).
      - intros; auto with gf.
      - intros t Ht.
        assert (Hpow : 255 ⊗ xsumL (fun X => gpow X t) Xs = 0).
        { unfold Xs, n. rewrite <- (corrupted_syndrome msg nsym errors t) by (assumption || lia).
          apply Hs. lia. }
        assert (Hsb : byte (xsumL (fun X => gpow X t) Xs)).
        { apply xsumL_byte. intros Y HY. apply gpow_byte. exact (bytesL_In Xs Y HXb HY). }
        apply gfMul_eq_0 in Hpow; [|auto with gf|exact Hsb].
        destruct Hpow as [Hpow|Hpow]; [discriminate|].
        rewrite <- Hpow. apply xsumL_ext. intros Y HY. apply gfMul_1_l.
        apply gpow_byte. exact (bytesL_In Xs Y HXb HY). }
    discriminate. }
  split; [exact Hfalse|].
  unfold hasErrors. rewrite Hfalse. unfold len. rewrite rsCalcSyndromes_length.
  cbn [negb]. rewrite andb_true_r.
  assert (1 <= nsym)%nat by (apply list_elem_of_In in Hp; destruct errors; [destruct Hp|cbn in Hcap; lia]).
  destruct (Z.gtb_spec (Z.of_nat (S nsym)) 1); [reflexivity|lia].
Qed.

Lemma corruption_is_detected_witness :
  let synd := syndromes (received (encoded [72; 105] 3) [0; 4; 5]) 3 in
  rsCheckSyndromes synd = false /\ hasErrors synd = true.
Proof.
  apply (corruption_is_detected [72; 105] 3 [0; 4; 5] 4).
  - discriminate.
  - repeat (apply List.Forall_cons; [unfold byte; lia|]). apply List.Forall_nil.
  - vm_compute. lia.
  - refine (bool_decide_unpack _ _). vm_compute. exact I.
  - vm_compute. lia.
  - refine (bool_decide_unpack _ _). vm_compute. exact I.
  - vm_compute. split; [discriminate|reflexivity].
Defined.

End RSProperties.

(** * Properties of the Reed-Solomon page: what the decoder reports *)
Module RSPageProperties.
Import GF GFFacts GFField GFRing RS GFSums RSLoops RSEncoder RSChannel RSLocator
       RSRecurrence RSBerlekamp RSForney.

(** X12. What a successful correction reports: when a non-empty message
    with [K + nsym <= 255] is encoded and at least one and at most
    [floor(nsym / 2)] symbols of the codeword are corrupted, the positions
    reported are exactly the corrupted positions inside the word, each
    once; the message counts them; and the magnitudes are 0xFF at those
    positions and 0 elsewhere. *)
Theorem correction_reports_error_positions
    (msg : list Z) (nsym : nat) (errors : list Z) (p0 : Z) :
  msg <> [] -> Forall byte msg -> (length msg + nsym <= 255)%nat ->
  NoDup errors -> (length errors <= maxErrors nsym)%nat ->
  p0 ∈ errors -> 0 <= p0 < Z.of_nat (length msg + nsym) ->
  let res := correctionResult (received (encoded msg nsym) errors) nsym in
  (forall p, p ∈ errorPositions res <-> p ∈ errors /\ 0 <= p < Z.of_nat (length msg + nsym)) /\
  NoDup (errorPositions res) /\
  message res = CorrectedErrors (len (errorPositions res)) /\
  length (errorMagnitudes res) = (length msg + nsym)%nat /\
  (forall k, (k < length msg + nsym)%nat ->
     nth k (errorMagnitudes res) 0 = if bool_decide (Z.of_nat k ∈ errors) then 255 else 0).
Proof.
  intros Hne Hb Hlen Hnd Hcap Hp0 Hrange. cbv zeta.
  assert (Hcap' : (2 * length errors <= nsym)%nat).
  { unfold maxErrors in Hcap. pose proof (Nat.Div0.mul_div_le nsym 2). lia. }
  assert (Henc : encoded msg nsym = rsEncode msg nsym)
    by (destruct msg; [contradiction|reflexivity]).
  rewrite Henc. fold (RSDecoder.enc msg nsym). fold (RSDecoder.recv msg nsym errors).
  assert (Hrne : RSDecoder.recv msg nsym errors <> []).
  { intros H. apply (f_equal (@length Z)) in H.
    rewrite (RSDecoder.recv_length msg nsym errors) in H. unfold RSDecoder.n in H.
    destruct msg; [contradiction|cbn in H; lia]. }
  rewrite RSDecoder.correctionResult_nonempty by exact Hrne.
  fold (RSDecoder.synd msg nsym errors).
  destruct (rsCheckSyndromes (RSDecoder.synd msg nsym errors)) eqn:Hz.
  - exfalso.
    pose proof (RSDecoder.zero_syndromes_no_locators msg nsym errors Hb Hlen Hnd Hcap' Hz) as HX.
    assert (Hin : In (alpha (length msg + nsym - 1 - Z.to_nat p0))
                     (RSDecoder.Xs msg nsym errors)).
    { unfold RSDecoder.Xs, errXs. apply in_map, errExps_spec. unfold RSDecoder.n.
      split; [lia|].
      replace (length msg + nsym - 1 - (length msg + nsym - 1 - Z.to_nat p0))%nat
        with (Z.to_nat p0) by lia.
      now rewrite Z2Nat.id by lia. }
    rewrite HX in Hin. destruct Hin.
  - rewrite (RSDecoder.correct_codeword msg nsym errors Hb Hlen Hnd Hcap').
    cbn [errorPositions errorMagnitudes message].
    split; [|split; [|split; [reflexivity|split]]].
    + intros p. split.
      * intros Hin. apply list_elem_of_In in Hin.
        unfold RSDecoder.errPos in Hin. apply in_map_iff in Hin.
        destruct Hin as (e & <- & He). apply errExps_spec in He.
        destruct He as [Hlt He]. unfold RSDecoder.posOf, RSDecoder.n in *.
        split; [|lia].
        now replace (Z.of_nat (length msg + nsym) - 1 - Z.of_nat e)
          with (Z.of_nat (length msg + nsym - 1 - e)) by lia.
      * intros [Hin Hr]. rewrite <- (Z2Nat.id p) by lia.
        apply (RSDecoder.errPos_spec msg nsym errors Hlen Hcap').
        -- unfold RSDecoder.n. lia.
        -- now rewrite Z2Nat.id by lia.
    + apply NoDup_ListNoDup, (RSDecoder.errPos_NoDup msg nsym errors Hlen Hcap').
    + apply RSDecoder.magnitudes_length.
    + intros k Hk.
      now rewrite (RSDecoder.magnitudes_nth msg nsym errors Hlen Hcap') by exact Hk.
Qed.

Lemma correction_reports_error_positions_witness :
  let msg := [72; 101; 108; 108; 111; 33] in
  let errors := [1; 7; 40] in
  let res := correctionResult (received (encoded msg 6) errors) 6 in
  (forall p, p ∈ errorPositions res <-> p ∈ errors /\ 0 <= p < Z.of_nat (length msg + 6)) /\
  NoDup (errorPositions res) /\
  message res = CorrectedErrors (len (errorPositions res)) /\
  length (errorMagnitudes res) = (length msg + 6)%nat /\
  (forall k, (k < length msg + 6)%nat ->
     nth k (errorMagnitudes res) 0 = if bool_decide (Z.of_nat k ∈ errors) then 255 else 0).
Proof.
  apply (correction_reports_error_positions [72; 101; 108; 108; 111; 33] 6 [1; 7; 40] 7).
  - discriminate.
  - repeat (apply List.Forall_cons; [unfold byte; lia|]). apply List.Forall_nil.
  - vm_compute. lia.
  - refine (bool_decide_unpack _ _). vm_compute. exact I.
  - vm_compute. lia.
  - refine (bool_decide_unpack _ _). vm_compute. exact I.
  - vm_compute. split; [discriminate|reflexivity].
Defined.

Lemma filter_NoDup_Z (P : Z -> bool) (l : list Z) : NoDup l -> NoDup (List.filter P l).
Proof.
  intros H. apply NoDup_ListNoDup. apply List.NoDup_filter. now apply NoDup_ListNoDup.
Qed.

Lemma filter_length_le (P : Z -> bool) (l : list Z) :
  (length (List.filter P l) <= length l)%nat.
Proof. induction l as [|x l IH]; cbn; [lia|]. destruct (P x); cbn; lia. Qed.

Lemma toggleError_effect (nSymbols : nat) (errors : list Z) (pos : Z) :
  NoDup errors -> (length errors <= maxErrors nSymbols)%nat ->
  let errors' := toggleError nSymbols errors pos in
  NoDup errors' /\
  (length errors' <= maxErrors nSymbols)%nat /\
  (pos ∈ errors' <-> (pos ∉ errors) /\ (length errors < maxErrors nSymbols)%nat) /\
  (forall q, q <> pos -> (q ∈ errors' <-> q ∈ errors)).
Proof.
  intros Hnd Hcap. cbv zeta. unfold toggleError.
  destruct (bool_decide (pos ∈ errors)) eqn:Hin.
  - apply bool_decide_eq_true in Hin.
    split; [now apply filter_NoDup_Z|].
    split; [etransitivity; [apply filter_length_le|exact Hcap]|].
    split.
    + rewrite list_elem_of_In, filter_In, negb_true_iff, Z.eqb_neq. tauto.
    + intros q Hq. rewrite !list_elem_of_In, filter_In, negb_true_iff, Z.eqb_neq. tauto.
  - apply bool_decide_eq_false in Hin. unfold len.
    destruct (Z.ltb_spec (Z.of_nat (length errors)) (Z.of_nat (maxErrors nSymbols)))
      as [Hlt|Hge].
    + split.
      { apply NoDup_app. split; [exact Hnd|]. split.
        - intros x Hx Hx'. apply list_elem_of_singleton in Hx'. now subst.
        - apply NoDup_singleton. }
      split; [rewrite length_app; cbn [length]; lia|]. split.
      * rewrite elem_of_app, list_elem_of_singleton. split; [intros _; split; [exact Hin|lia]|tauto].
      * intros q Hq. rewrite elem_of_app, list_elem_of_singleton. tauto.
    + split; [exact Hnd|]. split; [exact Hcap|]. split; [|tauto].
      split; [contradiction|]. intros [_ Hl]. lia.
Qed.

(** X13. [toggleError] keeps the set of error positions within the
    capacity [maxErrors]: it removes a position that is in the set, adds
    one that is not only while fewer than [maxErrors] positions are set,
    and leaves every other position as it was. *)
Theorem toggleError_respects_capacity (nSymbols : nat) (errors : list Z) (pos : Z) :
  NoDup errors -> (length errors <= maxErrors nSymbols)%nat ->
  let errors' := toggleError nSymbols errors pos in
  NoDup errors' /\
  (length errors' <= maxErrors nSymbols)%nat /\
  (pos ∈ errors' <-> (pos ∉ errors) /\ (length errors < maxErrors nSymbols)%nat) /\
  (forall q, q <> pos -> (q ∈ errors' <-> q ∈ errors)).
Proof. apply toggleError_effect. Qed.

Lemma toggleError_respects_capacity_witness :
  let errors' := toggleError 4 [3; 5] 9 in
  NoDup errors' /\
  (length errors' <= maxErrors 4)%nat /\
  (9 ∈ errors' <-> (9 ∉ [3; 5]) /\ (length [3; 5] < maxErrors 4)%nat) /\
  (forall q, q <> 9 -> (q ∈ errors' <-> q ∈ [3; 5])).
Proof.
  apply (toggleError_respects_capacity 4 [3; 5] 9).
  - refine (bool_decide_unpack _ _). vm_compute. exact I.
  - vm_compute. lia.
Defined.

Lemma toggles_within_capacity (nsym : nat) (clicks errors : list Z) :
  NoDup errors -> (length errors <= maxErrors nsym)%nat ->
  NoDup (fold_left (toggleError nsym) clicks errors) /\
  (length (fold_left (toggleError nsym) clicks errors) <= maxErrors nsym)%nat.
Proof.
  revert errors. induction clicks as [|c clicks IH]; intros errors Hnd Hcap; [now split|].
  cbn [fold_left].
  destruct (toggleError_effect nsym errors c Hnd Hcap) as (Hnd' & Hcap' & _).
  now apply IH.
Qed.

Lemma messageBytes_bytes (charCodes : list Z) : Forall byte (messageBytes charCodes).
Proof.
  unfold messageBytes. apply Forall_forall. intros b Hb.
  apply list_elem_of_In, in_map_iff in Hb. destruct Hb as (c & <- & _).
  unfold byte. change (Z.land c 255) with (Z.land c (Z.ones 8)).
  rewrite Z.land_ones by lia. change (2 ^ 8) with 256.
  pose proof (Z.mod_pos_bound c 256 ltac:(lia)). lia.
Qed.

Lemma messageBytes_latin1 (charCodes : list Z) :
  Forall byte charCodes -> messageBytes charCodes = charCodes.
Proof.
  intros H. unfold messageBytes. induction H as [|c l Hc Hl IH]; [reflexivity|].
  cbn [map]. rewrite IH. f_equal. now apply land_255_byte.
Qed.

(** X14. Round trip of the page: for a non-empty input string with
    [K + nsym <= 255], whatever sequence of positions is toggled after a
    [clearErrors], [decodedMessage] is the string of the low bytes of the
    input characters, which is the input itself when every character code
    is at most 255. *)
Theorem page_round_trip (charCodes : list Z) (nsym : nat) (clicks : list Z) :
  charCodes <> [] -> (length charCodes + nsym <= 255)%nat ->
  let msg := messageBytes charCodes in
  let errors := fold_left (toggleError nsym) clicks clearErrors in
  let res := correctionResult (received (encoded msg nsym) errors) nsym in
  decodedMessage res (length msg) = Some msg /\
  (Forall byte charCodes -> decodedMessage res (length msg) = Some charCodes).
Proof.
  intros Hne Hlen. cbv zeta.
  set (msg := messageBytes charCodes).
  set (errors := fold_left (toggleError nsym) clicks clearErrors).
  assert (Hb : Forall byte msg) by apply messageBytes_bytes.
  assert (Hml : length msg = length charCodes) by (unfold msg, messageBytes; apply length_map).
  assert (Hmne : msg <> []).
  { intros H. apply (f_equal (@length Z)) in H. rewrite Hml in H.
    destruct charCodes; [contradiction|discriminate]. }
  destruct (toggles_within_capacity nsym clicks clearErrors) as [Hnd Hcap];
    [apply NoDup_nil_2|unfold clearErrors; cbn; lia|]. fold errors in Hnd, Hcap.
  assert (Hcap' : (2 * length errors <= nsym)%nat).
  { unfold maxErrors in Hcap. pose proof (Nat.Div0.mul_div_le nsym 2). lia. }
  assert (Henc : encoded msg nsym = rsEncode msg nsym)
    by (destruct msg; [contradiction|reflexivity]).
  rewrite Henc.
  destruct (RSDecoder.correctionResult_codeword msg nsym errors Hb
              ltac:(rewrite Hml; exact Hlen) Hnd Hcap' Hmne) as [Hs Hc].
  unfold RSDecoder.recv, RSDecoder.enc in Hs, Hc.
  assert (Hdec : decodedMessage
                   (correctionResult (received (rsEncode msg nsym) errors) nsym)
                   (length msg) = Some msg).
  { unfold decodedMessage. rewrite Hs, Hc. cbn [negb]. rewrite rsEncode_systematic.
    f_equal. rewrite <- (map_id msg) at 2. apply map_ext_in. intros b Hin.
    pose proof (bytesL_In msg b Hb Hin) as Hbb. unfold byte in Hbb.
    apply Z.mod_small. lia. }
  split; [exact Hdec|]. intros Hlatin. rewrite Hdec. f_equal.
  now apply messageBytes_latin1.
Qed.

Lemma page_round_trip_witness :
  let msg := messageBytes [72; 105; 1055] in
  let errors := fold_left (toggleError 4) [1; 3; 1; 0; 6] clearErrors in
  let res := correctionResult (received (encoded msg 4) errors) 4 in
  decodedMessage res (length msg) = Some msg /\
  (Forall byte [72; 105; 1055] -> decodedMessage res (length msg) = Some [72; 105; 1055]).
Proof.
  apply (page_round_trip [72; 105; 1055] 4 [1; 3; 1; 0; 6]).
  - discriminate.
  - vm_compute. lia.
Defined.

End RSPageProperties.

(** * Properties of the Hamming codec *)
Module HammingProperties.
Import Hamming HammingFacts.

(** Number of positions at which two words differ. *)
Definition distance (u v : list Z) : nat :=
  length (List.filter (fun i => negb (nth i u 0 =? nth i v 0)) (seq 0 (length u))).

(** The data bits of a word: array indices 2, 4, 5, 6, one further in the
    extended word. *)
Definition dataOf (w : list Z) (ext : bool) : list Z :=
  let off := if ext then 1 else 0 in
  [rd w (2 + off); rd w (4 + off); rd w (5 + off); rd w (6 + off)].

Definition corrected_eqb (c1 c2 : Corrected) : bool :=
  word_eqb (word c1) (word c2) && (errorAt c1 =? errorAt c2)
  && message_eqb (message c1) (message c2).

Lemma message_eqb_eq m1 m2 : message_eqb m1 m2 = true -> m1 = m2.
Proof.
  destruct m1, m2; cbn; try discriminate; try reflexivity.
  intros H. apply Z.eqb_eq in H. now subst.
Qed.

Lemma corrected_eqb_eq c1 c2 : corrected_eqb c1 c2 = true -> c1 = c2.
Proof.
  unfold corrected_eqb, word_eqb. rewrite !andb_true_iff, bool_decide_eq_true, Z.eqb_eq.
  intros [[Hw He] Hm]. apply message_eqb_eq in Hm.
  destruct c1, c2; cbn in *. now subst.
Qed.

Lemma no_error_table ext :
  forallb (fun d =>
             (value (syndrome (encoded d ext) ext) =? 0) &&
             corrected_eqb (corrected (encoded d ext) ext)
               {| word := encoded d ext; errorAt := -1; message := NoErrorsDetected |})
          (all_words 4) = true.
Proof. destruct ext; vm_compute; reflexivity. Qed.

(** X15. Without an error, and with an error position that is [null],
    negative or past the end of the word, the received word is the
    codeword, its syndrome is 0 and [corrected] returns it with
    errorAt = -1 and 'Ошибок не обнаружено', in both configurations. *)
Theorem hamming_no_error_path (d : list Z) (ext : bool) (errPos : option Z) :
  bits 4 d ->
  (forall e, errPos = Some e -> e < 0 \/ wordLength ext <= e) ->
  let r := received (encoded d ext) errPos in
  r = encoded d ext /\
  value (syndrome r ext) = 0 /\
  corrected r ext = {| word := encoded d ext; errorAt := -1; message := NoErrorsDetected |}.
Proof.
  intros Hd He. cbv zeta.
  assert (Hr : received (encoded d ext) errPos = encoded d ext).
  { destruct errPos as [e|]; [|reflexivity]. unfold received.
    specialize (He e eq_refl). rewrite encoded_length.
    destruct (Z.geb_spec e 0); destruct (Z.ltb_spec e (wordLength ext)); cbn [andb];
      try reflexivity; lia. }
  rewrite Hr. split; [reflexivity|].
  assert (H := word_cases 4 _ (no_error_table ext) d Hd). cbv beta in H.
  apply andb_true_iff in H. destruct H as [H1 H2].
  split; [now apply Z.eqb_eq|now apply corrected_eqb_eq].
Qed.

Lemma hamming_no_error_path_witness :
  let r := received (encoded [1; 0; 1; 1] true) (Some 8) in
  r = encoded [1; 0; 1; 1] true /\
  value (syndrome r true) = 0 /\
  corrected r true =
    {| word := encoded [1; 0; 1; 1] true; errorAt := -1; message := NoErrorsDetected |}.
Proof.
  apply (hamming_no_error_path [1; 0; 1; 1] true (Some 8)).
  - literal_bits.
  - intros e He. injection He as <-. unfold wordLength. lia.
Defined.

Definition min_distance_b (ext : bool) (d d' : list Z) : bool :=
  word_eqb d d' ||
  ((if ext then 4 else 3) <=? distance (encoded d ext) (encoded d' ext))%nat.

Lemma min_distance_table ext :
  forallb (fun d => forallb (min_distance_b ext d) (all_words 4)) (all_words 4) = true.
Proof. destruct ext; vm_compute; reflexivity. Qed.

(** X16. Minimum distance: the codewords of two different 4-bit data
    words differ in at least 3 positions, and in at least 4 in the
    extended configuration. *)
Theorem hamming_minimum_distance (d d' : list Z) (ext : bool) :
  bits 4 d -> bits 4 d' -> d <> d' ->
  ((if ext then 4 else 3) <= distance (encoded d ext) (encoded d' ext))%nat.
Proof.
  intros Hd Hd' Hne.
  assert (H := word_cases 4 _ (min_distance_table ext) d Hd). cbv beta in H.
  assert (H' := word_cases 4 _ H d' Hd'). unfold min_distance_b, word_eqb in H'.
  apply orb_true_iff in H'. destruct H' as [H'|H'].
  - apply bool_decide_eq_true in H'. contradiction.
  - now apply Nat.leb_le.
Qed.

Lemma hamming_minimum_distance_witness :
  (3 <= distance (encoded [1; 0; 1; 1]%Z false) (encoded [1; 0; 1; 0]%Z false))%nat.
Proof.
  apply (hamming_minimum_distance [1; 0; 1; 1] [1; 0; 1; 0] false).
  - literal_bits.
  - literal_bits.
  - discriminate.
Defined.

Definition data_recovered_b (ext : bool) (d : list Z) (p : Z) : bool :=
  word_eqb (dataOf (word (corrected (received (encoded d ext) (Some p)) ext)) ext) d.

Lemma data_recovered_table ext :
  forallb (fun d => forallb (data_recovered_b ext d) (positions ext)) (all_words 4) = true.
Proof. destruct ext; vm_compute; reflexivity. Qed.

(** X17. The data survive any single flip: for every 4-bit data word
    and every position of the codeword, position 0 of the extended
    codeword included, the data bits of the corrected word are the
    original data bits. *)
Theorem hamming_data_recovered (d : list Z) (ext : bool) (p : Z) :
  bits 4 d -> 0 <= p < wordLength ext ->
  dataOf (word (corrected (received (encoded d ext) (Some p)) ext)) ext = d.
Proof.
  intros Hd Hp.
  assert (H := word_cases 4 _ (data_recovered_table ext) d Hd). cbv beta in H.
  rewrite forallb_forall in H. specialize (H p (positions_spec ext p Hp)).
  unfold data_recovered_b, word_eqb in H. now apply bool_decide_eq_true in H.
Qed.

Lemma hamming_data_recovered_witness :
  dataOf (word (corrected (received (encoded [1; 0; 0; 1] true) (Some 0)) true)) true
  = [1; 0; 0; 1].
Proof.
  apply (hamming_data_recovered [1; 0; 0; 1] true 0).
  - literal_bits.
  - unfold wordLength. lia.
Defined.

(** Row [row] of the matrix times the word, modulo 2. *)
Definition rowProduct (row r : list Z) : Z :=
  fold_left (fun s j => s + rd row j * rd r j) (map Z.of_nat (seq 0 (length row))) 0 mod 2.

Definition parity_check_b (r : list Z) : bool :=
  let syn := syndrome r false in
  word_eqb [s1 syn; s2 syn; s4 syn] (map (fun row => rowProduct row r) parityCheckMatrix).

Lemma parity_check_table : forallb parity_check_b (all_words 7) = true.
Proof. vm_compute. reflexivity. Qed.

(** X18. [parityCheckMatrix] is the matrix of [syndrome]: for every
    7-bit word the syndrome bits s1, s2, s4 are the products of its three
    rows with the word modulo 2, and on the (7,4) codeword of every 4-bit
    data word the three products are 0. *)
Theorem hamming_parity_check_matrix (r d : list Z) :
  bits 7 r -> bits 4 d ->
  (let syn := syndrome r false in
   [s1 syn; s2 syn; s4 syn] = map (fun row => rowProduct row r) parityCheckMatrix) /\
  map (fun row => rowProduct row (encoded d false)) parityCheckMatrix = [0; 0; 0].
Proof.
  intros Hr Hd. split.
  - cbv zeta.
    assert (H := word_cases 7 _ parity_check_table r Hr).
    unfold parity_check_b, word_eqb in H. now apply bool_decide_eq_true in H.
  - assert (H := word_cases 4
                   (fun d => word_eqb (map (fun row => rowProduct row (encoded d false))
                                           parityCheckMatrix) [0; 0; 0])
                   ltac:(vm_compute; reflexivity) d Hd).
    unfold word_eqb in H. now apply bool_decide_eq_true in H.
Qed.

Lemma hamming_parity_check_matrix_witness :
  (let syn := syndrome [1; 1; 0; 1; 0; 0; 1] false in
   [s1 syn; s2 syn; s4 syn]
   = map (fun row => rowProduct row [1; 1; 0; 1; 0; 0; 1]) parityCheckMatrix) /\
  map (fun row => rowProduct row (encoded [1; 0; 1; 1] false)) parityCheckMatrix = [0; 0; 0].
Proof.
  apply (hamming_parity_check_matrix [1; 1; 0; 1; 0; 0; 1] [1; 0; 1; 1]); literal_bits.
Defined.

Definition corrected_codeword_b (ext : bool) (r : list Z) : bool :=
  let c := corrected r ext in
  (value (syndrome (word c) ext) =? 0) && (distance r (word c) <=? 1)%nat
  && (length (word c) =? length r)%nat.

Lemma corrected_codeword_table ext :
  forallb (corrected_codeword_b ext) (all_words (Z.to_nat (wordLength ext))) = true.
Proof. destruct ext; vm_compute; reflexivity. Qed.

(** X19. Whatever word of 7 bits (8 bits extended) is received,
    [corrected] returns a word of the same length with syndrome 0 that
    differs from the received one in at most one position. *)
Theorem hamming_corrected_has_zero_syndrome (r : list Z) (ext : bool) :
  bits (Z.to_nat (wordLength ext)) r ->
  let c := corrected r ext in
  value (syndrome (word c) ext) = 0 /\
  (distance r (word c) <= 1)%nat /\
  length (word c) = length r.
Proof.
  intros Hr. cbv zeta.
  assert (H := word_cases _ _ (corrected_codeword_table ext) r Hr).
  unfold corrected_codeword_b in H. rewrite !andb_true_iff in H.
  destruct H as [[H1 H2] H3].
  split; [now apply Z.eqb_eq|]. split; [now apply Nat.leb_le|now apply Nat.eqb_eq].
Qed.

Lemma hamming_corrected_has_zero_syndrome_witness :
  let c := corrected [1; 1; 0; 1; 0; 0; 1] false in
  value (syndrome (word c) false) = 0 /\
  (distance [1; 1; 0; 1; 0; 0; 1]%Z (word c) <= 1)%nat /\
  length (word c) = length [1; 1; 0; 1; 0; 0; 1].
Proof.
  apply (hamming_corrected_has_zero_syndrome [1; 1; 0; 1; 0; 0; 1] false).
  literal_bits.
Defined.

(** ** The bit tests of the page *)

Lemma land_pred_pow2 k : 0 <= k -> Z.land (2 ^ k) (2 ^ k - 1) = 0.
Proof.
  intros Hk. replace (2 ^ k - 1) with (Z.ones k) by (rewrite Z.ones_equiv; lia).
  rewrite Z.land_ones by lia. apply Z.mod_same. pose proof (Z.pow_pos_nonneg 2 k). lia.
Qed.

Lemma land_pred_zero n : 0 < n -> Z.land n (n - 1) = 0 -> n = 2 ^ Z.log2 n.
Proof.
  intros Hn Hl. pose proof (Z.log2_spec n Hn) as [Hlo Hhi].
  pose proof (Z.log2_nonneg n) as Hk.
  destruct (Z.eq_dec n (2 ^ Z.log2 n)) as [|Hne]; [assumption|exfalso].
  assert (Hpos : 0 < 2 ^ Z.log2 n) by (apply Z.pow_pos_nonneg; lia).
  assert (Hlog : Z.log2 (n - 1) = Z.log2 n).
  { apply Z.log2_unique; [exact Hk|]. rewrite <- Z.add_1_r in Hhi. lia. }
  assert (Hb1 : Z.testbit n (Z.log2 n) = true) by (apply Z.bit_log2; lia).
  assert (Hb2 : Z.testbit (n - 1) (Z.log2 n) = true).
  { rewrite <- Hlog. apply Z.bit_log2. lia. }
  assert (Hb : Z.testbit (Z.land n (n - 1)) (Z.log2 n) = true)
    by (rewrite Z.land_spec, Hb1, Hb2; reflexivity).
  rewrite Hl, Z.bits_0 in Hb. discriminate.
Qed.

(** X20. On 32-bit integers [isPowerOfTwo] holds exactly of the powers
    of two 1, 2, 4, ..., 2^30. *)
Theorem isPowerOfTwo_correct (n : Z) :
  - 2 ^ 31 <= n < 2 ^ 31 ->
  (isPowerOfTwo n = true <-> exists k, 0 <= k /\ n = 2 ^ k).
Proof.
  intros Hn. unfold isPowerOfTwo. split.
  - intros H. apply andb_true_iff in H. destruct H as [Hpos Hl].
    assert (Hp : 0 < n) by lia.
    rewrite !Int32Facts.toInt32_id in Hl by lia. apply Z.eqb_eq in Hl.
    exists (Z.log2 n). split; [apply Z.log2_nonneg|now apply land_pred_zero].
  - intros (k & Hk & ->).
    assert (Hpos : 0 < 2 ^ k) by (apply Z.pow_pos_nonneg; lia).
    rewrite !Int32Facts.toInt32_id by lia. rewrite land_pred_pow2 by exact Hk.
    apply andb_true_iff. split; [lia|reflexivity].
Qed.

Lemma isPowerOfTwo_correct_witness :
  isPowerOfTwo 64 = true <-> exists k, 0 <= k /\ 64 = 2 ^ k.
Proof. apply (isPowerOfTwo_correct 64). lia. Defined.

(** X21. [isInParityGroup(position, 2^b)] tells whether bit [b] of the
    position is set, for positions that are non-negative 32-bit
    integers and [b] up to 30. *)
Theorem isInParityGroup_tests_bit (position b : Z) :
  0 <= position < 2 ^ 31 -> 0 <= b <= 30 ->
  isInParityGroup position (2 ^ b) = Z.testbit position b.
Proof.
  intros Hp Hb. unfold isInParityGroup.
  assert (Hpow : 0 < 2 ^ b < 2 ^ 31).
  { split; [apply Z.pow_pos_nonneg; lia|apply Z.pow_lt_mono_r; lia]. }
  rewrite !Int32Facts.toInt32_id by lia.
  destruct (Z.testbit position b) eqn:Hbit.
  - apply negb_true_iff, Z.eqb_neq. intros H0.
    assert (Ht : Z.testbit (Z.land position (2 ^ b)) b = true).
    { rewrite Z.land_spec, Hbit, Z.pow2_bits_true by lia. reflexivity. }
    rewrite H0, Z.bits_0 in Ht. discriminate.
  - apply negb_false_iff, Z.eqb_eq. apply Z.bits_inj'. intros i Hi.
    rewrite Z.land_spec, Z.bits_0.
    destruct (Z.eq_dec i b) as [->|Hne].
    + rewrite Hbit. reflexivity.
    + rewrite (Z.pow2_bits_false b i) by lia. apply andb_false_r.
Qed.

Lemma isInParityGroup_tests_bit_witness :
  isInParityGroup 6 (2 ^ 1) = Z.testbit 6 1.
Proof. apply (isInParityGroup_tests_bit 6 1); lia. Defined.

End HammingProperties.

(** * Properties of the LDPC page *)
Module LDPCProperties.
Import LDPC LDPCFacts.

Section Shapes.
Context {F : Type} `{Number F}.
Variable damping : F.
Variable h : list (list Z).

(** The shape of one recorded iteration. *)
Definition wellShaped (it : BPIteration F) : Prop :=
  length (decoded it) = numVarNodes h /\
  Forall bit (decoded it) /\
  length (beliefs it) = numVarNodes h /\
  length (checkToVar it) = numCheckNodes h /\
  Forall (fun row => length row = numVarNodes h) (checkToVar it) /\
  length (varToCheck it) = numCheckNodes h /\
  Forall (fun row => length row = numVarNodes h) (varToCheck it).

Lemma matrix_shape (fn : nat -> nat -> F) :
  let a := map (fun i => map (fun j => fn i j) (seq 0 (numVarNodes h)))
               (seq 0 (numCheckNodes h)) in
  length a = numCheckNodes h /\ Forall (fun row => length row = numVarNodes h) a.
Proof.
  cbv zeta. split; [now rewrite length_map, length_seq|].
  apply Forall_forall. intros row Hrow.
  apply list_elem_of_In, in_map_iff in Hrow. destruct Hrow as (i & <- & _).
  now rewrite length_map, length_seq.
Qed.

Lemma hardDecision_bits (bel : list F) :
  length (hardDecision bel) = length bel /\ Forall bit (hardDecision bel).
Proof.
  unfold hardDecision. split; [apply length_map|].
  apply Forall_forall. intros b Hb. apply list_elem_of_In, in_map_iff in Hb.
  destruct Hb as (x & <- & _). unfold bit. destruct (num_ltb x num_zero); lia.
Qed.

Lemma bpStep_wellShaped channelLlr v2c iter :
  wellShaped (bpStep damping h channelLlr v2c iter).
Proof.
  unfold wellShaped, bpStep. cbn [decoded beliefs checkToVar varToCheck].
  set (c2v := checkToVarOf damping h v2c).
  set (bel := beliefsOf h channelLlr c2v).
  assert (Hbel : length bel = numVarNodes h)
    by (unfold bel, beliefsOf; now rewrite length_map, length_seq).
  destruct (hardDecision_bits bel) as [Hl Hb].
  split; [now rewrite Hl|]. split; [exact Hb|]. split; [exact Hbel|].
  split; [apply (matrix_shape (fun i j => _))|].
  split; [apply (matrix_shape (fun i j => _))|].
  split; [apply (matrix_shape (fun i j => _))|apply (matrix_shape (fun i j => _))].
Qed.

Lemma bpLoop_shapes channelLlr left iter v2c :
  let its := bpLoop damping h channelLlr left iter v2c [] in
  Forall wellShaped its /\
  map iteration its = map (fun k => iter + Z.of_nat k + 1) (seq 0 (length its)).
Proof.
  revert iter v2c. induction left as [|left IH]; intros iter v2c.
  - cbn. split; [constructor|reflexivity].
  - cbv zeta. rewrite bpLoop_unfold. cbv zeta.
    destruct (syndromeOk (bpStep damping h channelLlr v2c iter)).
    + split; [repeat constructor; apply bpStep_wellShaped|].
      cbn. f_equal. lia.
    + destruct (IH (iter + 1) (varToCheck (bpStep damping h channelLlr v2c iter)))
        as [IH1 IH2].
      split; [constructor; [apply bpStep_wellShaped|exact IH1]|].
      cbn [map length seq]. f_equal; [cbn; lia|].
      rewrite IH2, <- seq_shift, map_map. apply map_ext. intros k. lia.
Qed.

(** X22. Every iteration that [bpIterations] records has a hard decision
    of [n] bits, [n] beliefs and two [m] by [n] message matrices, where
    [m] and [n] are the numbers of rows and of columns of the first row of
    the matrix, whatever the length of the received word; the iterations
    are numbered 1, 2, 3, ...; and the final result of a run with a cap of
    at least 1 has [n] bits. *)
Theorem ldpc_iterations_well_shaped (r : list Z) (llr0 : F) (maxIterations : nat) :
  let its := bpIterations damping h r llr0 maxIterations in
  let res := finalResult damping h r llr0 maxIterations in
  Forall wellShaped its /\
  map iteration its = map (fun k => Z.of_nat k + 1) (seq 0 (length its)) /\
  ((1 <= maxIterations)%nat ->
     length (fr_decoded res) = numVarNodes h /\ Forall bit (fr_decoded res)).
Proof.
  cbv zeta. unfold finalResult, bpIterations.
  destruct (bpLoop_shapes (channelLLR r llr0) maxIterations 0
              (initVarToCheck h (channelLLR r llr0))) as [Hs Hn].
  cbv zeta in Hs, Hn.
  split; [exact Hs|]. split; [rewrite Hn; apply map_ext; intros k; lia|].
  intros Hmax.
  pose proof (bpLoop_nonempty damping h (channelLLR r llr0) maxIterations 0
                (initVarToCheck h (channelLLR r llr0)) Hmax) as Hne.
  destruct (last _) as [lastIt|] eqn:Hlast.
  - cbn [fr_decoded]. apply last_Some_elem_of in Hlast.
    rewrite Forall_forall in Hs. destruct (Hs lastIt Hlast) as (H1 & H2 & _).
    now split.
  - apply last_None in Hlast. contradiction.
Qed.

Lemma bpLoop_prefix channelLlr left left' iter v2c :
  (left <= left')%nat ->
  bpLoop damping h channelLlr left iter v2c []
    `prefix_of` bpLoop damping h channelLlr left' iter v2c [].
Proof.
  revert left' iter v2c. induction left as [|left IH]; intros left' iter v2c Hle.
  - apply prefix_nil.
  - destruct left' as [|left']; [lia|]. rewrite !bpLoop_unfold. cbv zeta.
    destruct (syndromeOk (bpStep damping h channelLlr v2c iter)).
    + reflexivity.
    + apply prefix_cons, IH. lia.
Qed.

Lemma bpLoop_converged_stable channelLlr left left' iter v2c it :
  (left <= left')%nat ->
  last (bpLoop damping h channelLlr left iter v2c []) = Some it ->
  syndromeOk it = true ->
  bpLoop damping h channelLlr left' iter v2c [] = bpLoop damping h channelLlr left iter v2c [].
Proof.
  revert left' iter v2c. induction left as [|left IH]; intros left' iter v2c Hle Hlast Hok.
  - discriminate.
  - destruct left' as [|left']; [lia|]. rewrite !bpLoop_unfold in *. cbv zeta in *.
    destruct (syndromeOk (bpStep damping h channelLlr v2c iter)) eqn:Hfirst.
    + reflexivity.
    + f_equal.
      destruct (bpLoop damping h channelLlr left (iter + 1)
                  (varToCheck (bpStep damping h channelLlr v2c iter)) []) as [|it' rest] eqn:Hrest.
      * cbn in Hlast. injection Hlast as <-. congruence.
      * rewrite last_cons_cons in Hlast. rewrite <- Hrest in *.
        apply (IH left' _ _ ltac:(lia) Hlast Hok).
Qed.

(** X23. Raising the iteration cap only extends the run: the iterations
    recorded under a cap are a prefix of those recorded under a larger
    one, and once a run has converged a larger cap gives the same
    iterations, the same decoded word and the same iteration count. *)
Theorem ldpc_cap_is_monotone (r : list Z) (llr0 : F) (maxIterations maxIterations' : nat) :
  (maxIterations <= maxIterations')%nat ->
  let its := bpIterations damping h r llr0 maxIterations in
  let its' := bpIterations damping h r llr0 maxIterations' in
  let res := finalResult damping h r llr0 maxIterations in
  let res' := finalResult damping h r llr0 maxIterations' in
  its `prefix_of` its' /\
  (converged res = true ->
     its' = its /\ fr_decoded res' = fr_decoded res /\
     converged res' = true /\ iterations res' = iterations res).
Proof.
  intros Hle. cbv zeta. split; [now apply bpLoop_prefix|].
  unfold finalResult, bpIterations.
  destruct (last (bpLoop damping h (channelLLR r llr0) maxIterations 0
                    (initVarToCheck h (channelLLR r llr0)) [])) as [it|] eqn:Hlast.
  - cbn [converged]. intros Hok.
    rewrite (bpLoop_converged_stable _ _ _ _ _ it Hle Hlast Hok), Hlast.
    cbn [fr_decoded converged iterations]. auto.
  - cbn [converged]. discriminate.
Qed.

End Shapes.

Lemma ldpc_cap_is_monotone_witness :
  let r := [0; 0; 1; 0; 0; 0; 0; 0] in
  let its := bpIterations damping_09 DEFAULT_H r llr0_015 3 in
  let its' := bpIterations damping_09 DEFAULT_H r llr0_015 50 in
  let res := finalResult damping_09 DEFAULT_H r llr0_015 3 in
  let res' := finalResult damping_09 DEFAULT_H r llr0_015 50 in
  its `prefix_of` its' /\
  (converged res = true ->
     its' = its /\ fr_decoded res' = fr_decoded res /\
     converged res' = true /\ iterations res' = iterations res).
Proof.
  apply (ldpc_cap_is_monotone damping_09 DEFAULT_H [0; 0; 1; 0; 0; 0; 0; 0] llr0_015 3 50).
  lia.
Defined.

(** ** Weights of the matrix *)

Definition sumZ (l : list Z) : Z := fold_left (fun s v => s + v) l 0.

Lemma fold_left_add_acc {A : Type} (fn : A -> Z) (l : list A) (a : Z) :
  fold_left (fun s x => s + fn x) l a = a + fold_left (fun s x => s + fn x) l 0.
Proof.
  revert a. induction l as [|x l IH]; intros a; cbn [fold_left]; [lia|].
  rewrite (IH (a + fn x)), (IH (0 + fn x)). lia.
Qed.

Lemma sumZ_cons x l : sumZ (x :: l) = x + sumZ l.
Proof.
  unfold sumZ. cbn [fold_left].
  rewrite (fold_left_add_acc (fun v => v) l (0 + x)). lia.
Qed.

Lemma sumZ_map_add {A : Type} (fn gn : A -> Z) (l : list A) :
  sumZ (map (fun x => fn x + gn x) l) = sumZ (map fn l) + sumZ (map gn l).
Proof.
  induction l as [|x l IH]; [reflexivity|]. cbn [map]. rewrite !sumZ_cons, IH. lia.
Qed.

Lemma sumZ_reads (row : list Z) : sumZ (map (fun j => rd row (Z.of_nat j)) (seq 0 (length row))) = sumZ row.
Proof.
  f_equal. apply (nth_ext _ _ 0 0); [now rewrite length_map, length_seq|].
  intros k Hk. rewrite length_map, length_seq in Hk.
  rewrite nth_map_seq by exact Hk. unfold rd.
  destruct (Z.ltb_spec (Z.of_nat k) 0); [lia|]. now rewrite Nat2Z.id.
Qed.

Lemma colSum_cons (row : list Z) (rows : list (list Z)) (j : nat) :
  fold_left (fun s row => s + rd row (Z.of_nat j)) (row :: rows) 0
  = rd row (Z.of_nat j) + fold_left (fun s row => s + rd row (Z.of_nat j)) rows 0.
Proof.
  cbn [fold_left]. rewrite (fold_left_add_acc (fun row => rd row (Z.of_nat j)) rows _). lia.
Qed.

Lemma column_sums (rows : list (list Z)) (n : nat) :
  Forall (fun row => length row = n) rows ->
  sumZ (map (fun j => fold_left (fun s row => s + rd row (Z.of_nat j)) rows 0) (seq 0 n))
  = sumZ (map sumZ rows).
Proof.
  induction 1 as [|row rows Hrow Hrows IH].
  - cbn [fold_left map]. induction (seq 0 n) as [|j js IHj]; [reflexivity|].
    cbn [map]. rewrite sumZ_cons, IHj. reflexivity.
  - cbn [map]. rewrite sumZ_cons, <- IH.
    rewrite (map_ext _ (fun j => rd row (Z.of_nat j)
                                 + fold_left (fun s row => s + rd row (Z.of_nat j)) rows 0))
      by (intros j; apply colSum_cons).
    rewrite (sumZ_map_add (fun j => rd row (Z.of_nat j))). f_equal.
    rewrite <- Hrow. apply sumZ_reads.
Qed.

(** X24. On a rectangular matrix the column weights are as many as the
    columns, the row weights as many as the rows, and both add up to the
    same total. *)
Theorem ldpc_weights_agree (h : list (list Z)) :
  Forall (fun row => length row = numVarNodes h) h ->
  length (rowWeights h) = numCheckNodes h /\
  length (colWeights h) = numVarNodes h /\
  sumZ (colWeights h) = sumZ (rowWeights h).
Proof.
  intros Hrect. split; [apply length_map|].
  unfold colWeights, rowWeights. destruct h as [|row0 rows]; [now split|].
  cbn [numVarNodes] in *. split; [now rewrite length_map, length_seq|].
  apply (column_sums (row0 :: rows) (length row0) Hrect).
Qed.

Lemma ldpc_weights_agree_witness :
  length (rowWeights DEFAULT_H) = numCheckNodes DEFAULT_H /\
  length (colWeights DEFAULT_H) = numVarNodes DEFAULT_H /\
  sumZ (colWeights DEFAULT_H) = sumZ (rowWeights DEFAULT_H).
Proof.
  apply (ldpc_weights_agree DEFAULT_H).
  repeat (apply List.Forall_cons; [reflexivity|]). apply List.Forall_nil.
Defined.

End LDPCProperties.

(** * Properties of the polar codec *)
Module PolarProperties.
Import Polar PolarFacts.

(** ** The transform is linear and its own inverse *)

Lemma zip_with_lxor_length (a b : list Z) :
  length a = length b -> length (zip_with Z.lxor a b) = length a.
Proof. intros H. rewrite length_zip_with. lia. Qed.

Lemma take_zip_with_lxor k (a b : list Z) :
  take k (zip_with Z.lxor a b) = zip_with Z.lxor (take k a) (take k b).
Proof.
  revert a b. induction k as [|k IH]; intros a b; [reflexivity|].
  destruct a as [|x a]; [reflexivity|]. destruct b as [|y b]; [reflexivity|].
  cbn. now rewrite IH.
Qed.

Lemma drop_zip_with_lxor k (a b : list Z) :
  drop k (zip_with Z.lxor a b) = zip_with Z.lxor (drop k a) (drop k b).
Proof.
  revert a b. induction k as [|k IH]; intros a b; [reflexivity|].
  destruct a as [|x a]; [reflexivity|].
  destruct b as [|y b]; [cbn; now rewrite zip_with_nil_r|].
  cbn. now rewrite IH.
Qed.

Lemma zip_with_lxor_app (a b c d : list Z) : length a = length c ->
  zip_with Z.lxor (a ++ b) (c ++ d) = zip_with Z.lxor a c ++ zip_with Z.lxor b d.
Proof.
  revert c. induction a as [|x a IH]; intros [|y c] Hl; try discriminate; [reflexivity|].
  cbn. f_equal. apply IH. now injection Hl.
Qed.

Lemma zip_with_lxor_swap (a b c d : list Z) :
  length a = length b -> length b = length c -> length c = length d ->
  zip_with Z.lxor (zip_with Z.lxor a b) (zip_with Z.lxor c d)
  = zip_with Z.lxor (zip_with Z.lxor a c) (zip_with Z.lxor b d).
Proof.
  revert b c d. induction a as [|x a IH]; intros [|y b] [|z c] [|w d] H1 H2 H3;
    try discriminate; [reflexivity|].
  cbn. f_equal.
  - rewrite !Z.lxor_assoc. f_equal. rewrite <- !Z.lxor_assoc. f_equal. apply Z.lxor_comm.
  - cbn [length] in *. apply IH; lia.
Qed.

Lemma zip_with_lxor_cancel (a b : list Z) : length a = length b ->
  zip_with Z.lxor (zip_with Z.lxor a b) b = a.
Proof.
  revert b. induction a as [|x a IH]; intros [|y b] Hl; try discriminate; [reflexivity|].
  cbn. f_equal.
  - rewrite Z.lxor_assoc, Z.lxor_nilpotent. apply Z.lxor_0_r.
  - cbn [length] in Hl. apply IH. lia.
Qed.

Lemma pow2_split n : (2 ^ S n = 2 ^ n + 2 ^ n)%nat.
Proof. rewrite Nat.pow_succ_r'. lia. Qed.

Lemma polar_lxor n (u v : list Z) :
  length u = (2 ^ n)%nat -> length v = (2 ^ n)%nat ->
  polar n (zip_with Z.lxor u v) = zip_with Z.lxor (polar n u) (polar n v).
Proof.
  revert u v. induction n as [|n IH]; intros u v Hu Hv; [reflexivity|].
  rewrite pow2_split in Hu, Hv. cbn [polar].
  rewrite take_zip_with_lxor, drop_zip_with_lxor.
  assert (Hta : length (take (2 ^ n) u) = (2 ^ n)%nat) by (rewrite length_take; lia).
  assert (Htb : length (take (2 ^ n) v) = (2 ^ n)%nat) by (rewrite length_take; lia).
  assert (Hda : length (drop (2 ^ n) u) = (2 ^ n)%nat) by (rewrite length_drop; lia).
  assert (Hdb : length (drop (2 ^ n) v) = (2 ^ n)%nat) by (rewrite length_drop; lia).
  rewrite !IH by assumption.
  pose proof (polar_length n _ Hta). pose proof (polar_length n _ Htb).
  pose proof (polar_length n _ Hda). pose proof (polar_length n _ Hdb).
  rewrite zip_with_lxor_app by (rewrite !zip_with_lxor_length; congruence).
  f_equal. apply zip_with_lxor_swap; congruence.
Qed.

Lemma polar_involutive n (u : list Z) :
  length u = (2 ^ n)%nat -> polar n (polar n u) = u.
Proof.
  revert u. induction n as [|n IH]; intros u Hu; [reflexivity|].
  rewrite pow2_split in Hu. cbn [polar].
  set (a := take (2 ^ n) u). set (b := drop (2 ^ n) u).
  assert (Ha : length a = (2 ^ n)%nat) by (unfold a; rewrite length_take; lia).
  assert (Hb : length b = (2 ^ n)%nat) by (unfold b; rewrite length_drop; lia).
  pose proof (polar_length n a Ha) as Hpa. pose proof (polar_length n b Hb) as Hpb.
  assert (Hz : length (zip_with Z.lxor (polar n a) (polar n b)) = (2 ^ n)%nat)
    by (rewrite zip_with_lxor_length; congruence).
  rewrite take_app_length' by (symmetry; exact Hz).
  rewrite drop_app_length' by (symmetry; exact Hz).
  rewrite polar_lxor by assumption. rewrite !IH by assumption.
  rewrite zip_with_lxor_cancel by congruence.
  unfold a, b. apply take_drop.
Qed.

(** X25. Encoding is linear over GF(2) and its own inverse: for bit
    vectors of length N = 2^n, the codeword of the XOR of two vectors is
    the XOR of their codewords, and encoding a codeword gives back the
    vector it came from. *)
Theorem polar_encoding_involutive (n : nat) (u v : list Z) :
  bits (2 ^ n) u -> bits (2 ^ n) v ->
  let N := (2 ^ n)%nat in
  let G := generateG n in
  bits N (encoded N G u) /\
  encoded N G (zip_with Z.lxor u v) = zip_with Z.lxor (encoded N G u) (encoded N G v) /\
  encoded N G (encoded N G u) = u.
Proof.
  intros [Hul Hub] [Hvl Hvb]. cbv zeta.
  rewrite !(encoded_polar n u), (encoded_polar n v) by assumption.
  rewrite (encoded_polar n (zip_with Z.lxor u v))
    by (auto using zip_with_lxor_bits; rewrite zip_with_lxor_length; congruence).
  rewrite (encoded_polar n (polar n u)) by (auto using polar_length, polar_bits).
  split; [split; [now apply polar_length|now apply polar_bits]|].
  split; [now apply polar_lxor|now apply polar_involutive].
Qed.

Lemma polar_encoding_involutive_witness :
  let u := [1; 0; 1; 1; 0; 0; 1; 0] in
  let v := [0; 1; 1; 0; 0; 0; 0; 1] in
  let N := (2 ^ 3)%nat in
  let G := generateG 3 in
  bits N (encoded N G u) /\
  encoded N G (zip_with Z.lxor u v) = zip_with Z.lxor (encoded N G u) (encoded N G v) /\
  encoded N G (encoded N G u) = u.
Proof.
  apply (polar_encoding_involutive 3 [1; 0; 1; 1; 0; 0; 1; 0] [0; 1; 1; 0; 0; 0; 0; 1]).
  - split; [reflexivity|].
    repeat (apply List.Forall_cons; [unfold bit; lia|]). apply List.Forall_nil.
  - split; [reflexivity|].
    repeat (apply List.Forall_cons; [unfold bit; lia|]). apply List.Forall_nil.
Defined.

(** ** The generator matrix *)

Lemma ent_diagonal m i : ent m i i = 1.
Proof.
  revert i. induction m as [|m IH]; intros i; [reflexivity|].
  cbn [ent]. rewrite IH, Fent_cases by (apply Nat.mod_upper_bound; lia).
  destruct (Nat.eqb_spec (i mod 2) 0) as [->|]; reflexivity.
Qed.

Lemma ent_upper m i j : (i < j)%nat -> (j < 2 ^ m)%nat -> ent m i j = 0.
Proof.
  revert i j. induction m as [|m IH]; intros i j Hij Hj; [cbn in Hj; lia|].
  cbn [ent]. rewrite Nat.pow_succ_r' in Hj.
  destruct (Nat.eq_dec (i / 2)%nat (j / 2)%nat) as [Heq|Hne].
  - rewrite Fent_cases by (apply Nat.mod_upper_bound; lia).
    assert (Hi0 : (i mod 2 = 0)%nat) by dlia.
    assert (Hj1 : (j mod 2 = 1)%nat) by dlia.
    rewrite Hi0, Hj1. cbn. lia.
  - rewrite (IH (i / 2)%nat (j / 2)%nat) by dlia. lia.
Qed.

Lemma kronecker_rows (a b : list (list Z)) :
  Forall (fun row => length row = (length (nth 0 a []) * length (nth 0 b []))%nat)
         (kronecker a b).
Proof.
  unfold kronecker. apply Forall_forall. intros row Hrow.
  apply list_elem_of_In, in_map_iff in Hrow. destruct Hrow as (i & <- & _).
  now rewrite length_map, length_seq.
Qed.

Lemma Ge_rows k : Forall (fun row => length row = (2 ^ S k)%nat) (Ge k).
Proof.
  destruct k as [|k].
  - change (Ge 0) with F2. repeat constructor.
  - change (Ge (S k)) with (kronecker (Ge k) F2).
    destruct (Ge_dims k) as [_ Hc].
    pose proof (kronecker_rows (Ge k) F2) as H. rewrite Hc in H.
    change (length (nth 0 F2 [])) with 2%nat in H.
    eapply Forall_impl; [exact H|]. intros row Hrow. cbv beta in Hrow.
    rewrite Hrow, (Nat.pow_succ_r' 2 (S k)). lia.
Qed.

(** X26. For [n >= 1], [generateG(n)] is a 2^n by 2^n matrix of bits
    with ones on the diagonal and zeros above it; for [n = 0] the loop
    does not run and the 2 by 2 kernel is returned. *)
Theorem generateG_lower_triangular (n : nat) :
  (1 <= n)%nat ->
  length (generateG n) = (2 ^ n)%nat /\
  Forall (fun row => length row = (2 ^ n)%nat) (generateG n) /\
  (forall i j, (i < 2 ^ n)%nat -> (j < 2 ^ n)%nat ->
     bit (rdM (generateG n) i j) /\
     (i = j -> rdM (generateG n) i j = 1) /\
     ((i < j)%nat -> rdM (generateG n) i j = 0)) /\
  generateG 0 = F2.
Proof.
  intros Hn. destruct n as [|n]; [lia|].
  assert (HG : generateG (S n) = map (map (fun v => Z.rem v 2)) (Ge n)).
  { unfold generateG. replace (S n - 1)%nat with n by lia. reflexivity. }
  destruct (Ge_dims n) as [Hr _].
  split; [rewrite HG, length_map; exact Hr|].
  split.
  - rewrite HG. apply Forall_forall. intros row Hrow.
    apply list_elem_of_In, in_map_iff in Hrow. destruct Hrow as (row' & <- & Hin).
    rewrite length_map. pose proof (Ge_rows n) as Hrows.
    rewrite Forall_forall in Hrows. apply Hrows, list_elem_of_In, Hin.
  - split; [|reflexivity]. intros i j Hi Hj. rewrite generateG_ent by assumption.
    split; [apply ent_bit|]. split.
    + intros ->. apply ent_diagonal.
    + intros Hij. now apply ent_upper.
Qed.

Lemma generateG_lower_triangular_witness :
  length (generateG 3) = (2 ^ 3)%nat /\
  Forall (fun row => length row = (2 ^ 3)%nat) (generateG 3) /\
  (forall i j, (i < 2 ^ 3)%nat -> (j < 2 ^ 3)%nat ->
     bit (rdM (generateG 3) i j) /\
     (i = j -> rdM (generateG 3) i j = 1) /\
     ((i < j)%nat -> rdM (generateG 3) i j = 0)) /\
  generateG 0 = F2.
Proof. apply (generateG_lower_triangular 3). lia. Defined.

End PolarProperties.

(** * Properties of the polar page *)
Module PolarPageProperties.
Import Polar PolarFacts.

Lemma fold_left_ext_in_nat {A : Type} (fn gn : A -> nat -> A) (l : list nat) (a : A) :
  (forall a x, In x l -> fn a x = gn a x) -> fold_left fn l a = fold_left gn l a.
Proof.
  revert a. induction l as [|x l IH]; intros a H; [reflexivity|]. cbn [fold_left].
  rewrite (H a x) by now left. apply IH. intros a' y Hy. apply H. now right.
Qed.

(** X27. With no channel errors the decoder returns the input vector,
    whatever the number of data bits: the success flag is set exactly when
    every data bit past the K-th is 0, so it is set whenever at most K
    bits are given, and data bits past the K-th are never transmitted. *)
Theorem polar_zero_error_success (n K : nat) (sorted : list nat) (info : list Z) :
  sorted ≡ₚ seq 0 (2 ^ n) -> (K <= 2 ^ n)%nat -> Forall bit info ->
  let N := (2 ^ n)%nat in
  let frozen := frozenBits N sorted K in
  let idx := infoBitIndices N sorted K in
  let u := inputVector N idx info in
  let recv := received (encoded N (generateG n) u) [] in
  scDecode recv frozen N = Some u /\
  (decodingSuccess info (decodedInfoBits idx u) = true <->
   forall i, (K <= i)%nat -> nth i info 0 = 0) /\
  ((length info <= K)%nat -> decodingSuccess info (decodedInfoBits idx u) = true) /\
  inputVector N idx (take K info) = u.
Proof.
  intros Hperm HK Hinfo N frozen idx u recv.
  assert (HN : N = (2 ^ n)%nat) by reflexivity. clearbody N. subst N.
  assert (Hidx_len : length idx = K) by (apply infoBitIndices_length; assumption).
  assert (Hidx_nd : NoDup idx) by apply infoBitIndices_NoDup.
  assert (Hidx_lt : forall i, i ∈ idx -> (i < 2 ^ n)%nat)
    by (intros i; apply infoBitIndices_lt; assumption).
  assert (Hfrozen : forall i, i ∈ frozen <-> (i < 2 ^ n)%nat /\ i ∉ idx)
    by (intros i; apply elem_of_frozenBits; assumption).
  assert (Hu_len : length u = (2 ^ n)%nat).
  { unfold u. rewrite inputVector_writes. apply writes_length. }
  assert (Hu_bits : Forall bit u).
  { unfold u. rewrite inputVector_writes. apply writes_bits, Hinfo. }
  assert (Hx : recv = polar n u) by (apply encoded_polar; assumption).
  assert (Hread : forall i, (i < Nat.min K (length info))%nat ->
                            nth i (decodedInfoBits idx u) 0 = nth i info 0).
  { intros i Hi. unfold decodedInfoBits.
    rewrite (nth_map_lt _ _ _ _ O) by lia.
    unfold u. rewrite inputVector_writes, Hidx_len.
    apply writes_hit; [exact Hidx_nd|exact Hidx_lt|lia|exact Hi]. }
  assert (Hpast : forall i, (K <= i)%nat -> nth i (decodedInfoBits idx u) 0 = 0).
  { intros i Hi. apply nth_overflow. unfold decodedInfoBits. rewrite length_map. lia. }
  assert (Hiff : decodingSuccess info (decodedInfoBits idx u) = true <->
                 forall i, (K <= i)%nat -> nth i info 0 = 0).
  { unfold decodingSuccess. rewrite forallb_forall. split.
    - intros H i Hi. destruct (Nat.lt_ge_cases i (length info)) as [Hlt|Hge].
      + specialize (H i ltac:(apply in_seq; lia)). apply Z.eqb_eq in H.
        now rewrite H, Hpast.
      + now apply nth_overflow.
    - intros H i Hi. apply in_seq in Hi. apply Z.eqb_eq.
      destruct (Nat.lt_ge_cases i K) as [Hlt|Hge].
      + symmetry. apply Hread. lia.
      + now rewrite H, Hpast. }
  split; [|split; [exact Hiff|split]].
  - unfold scDecode. rewrite Hx. fold (llrOf reliability (polar n u)).
    rewrite (decode_noiseless frozen n (2 ^ n) 0%nat (replicate (2 ^ n) 0) u reliability).
    + cbn [take app]. rewrite Nat.add_0_l.
      rewrite drop_ge by (rewrite length_replicate; lia). now rewrite app_nil_r.
    + apply Nat.pow_gt_lin_r. lia.
    + exact Hu_len.
    + exact Hu_bits.
    + intros i Hi Hin. rewrite Nat.add_0_l in Hin. apply Hfrozen in Hin.
      unfold u. rewrite inputVector_writes. apply writes_miss; [tauto|lia].
    + reflexivity.
    + rewrite length_replicate. lia.
  - intros Hle. apply Hiff. intros i Hi. apply nth_overflow. lia.
  - unfold u. rewrite !inputVector_writes, Hidx_len, length_take.
    replace (Nat.min K (Nat.min K (length info))) with (Nat.min K (length info)) by lia.
    unfold writes. apply fold_left_ext_in_nat. intros a i Hi. apply in_seq in Hi.
    f_equal. apply nth_take_lt. lia.
Qed.

Lemma polar_zero_error_success_witness :
  let info := [1; 0; 1; 1; 1] in
  let N := (2 ^ 3)%nat in
  let frozen := frozenBits N ranking8 4 in
  let idx := infoBitIndices N ranking8 4 in
  let u := inputVector N idx info in
  let recv := received (encoded N (generateG 3) u) [] in
  scDecode recv frozen N = Some u /\
  (decodingSuccess info (decodedInfoBits idx u) = true <->
   forall i, (4 <= i)%nat -> nth i info 0 = 0) /\
  ((length info <= 4)%nat -> decodingSuccess info (decodedInfoBits idx u) = true) /\
  inputVector N idx (take 4 info) = u.
Proof.
  apply (polar_zero_error_success 3 4 ranking8 [1; 0; 1; 1; 1]).
  - refine (bool_decide_unpack _ _). vm_compute. exact I.
  - simpl. lia.
  - repeat (apply List.Forall_cons; [unfold bit; lia|]). apply List.Forall_nil.
Defined.

(** ** Bhattacharyya parameters *)

Section BhattacharyyaLength.
Context {F : Type} `{Number F}.
Variable two : F.

(** The power of two 2^k as a rational. *)
Definition pow2Q (k : nat) : Q := inject_Z (2 ^ Z.of_nat k).

Lemma pow2Q_half k : (pow2Q (S k) / 2 == pow2Q k)%Q.
Proof.
  unfold pow2Q. rewrite Nat2Z.inj_succ, Z.pow_succ_r by lia.
  rewrite inject_Z_mult. field.
Qed.

Lemma pow2Q_double (q : Q) k : (q / 2 == pow2Q k)%Q -> (q == pow2Q (S k))%Q.
Proof.
  intros Hq. unfold pow2Q in *. rewrite Nat2Z.inj_succ, Z.pow_succ_r by lia.
  rewrite inject_Z_mult, <- Hq. field.
Qed.

Lemma pow2Q_one k : (pow2Q k == 1)%Q -> k = O.
Proof.
  unfold pow2Q. intros Hq. destruct k as [|k]; [reflexivity|exfalso].
  unfold Qeq in Hq. cbn [Qnum Qden inject_Z] in Hq.
  rewrite Nat2Z.inj_succ, Z.pow_succ_r in Hq by lia.
  pose proof (Z.pow_pos_nonneg 2 (Z.of_nat k)). lia.
Qed.

Lemma bhattacharyya_Qeq fuel (q q' : Q) (eps : F) :
  (q == q')%Q -> bhattacharyya two fuel q eps = bhattacharyya two fuel q' eps.
Proof.
  revert q q'. induction fuel as [|fuel IH]; intros q q' Hq; [reflexivity|].
  cbn [bhattacharyya].
  assert (Hb : Qeq_bool q 1 = Qeq_bool q' 1).
  { destruct (Qeq_bool q 1) eqn:H1; destruct (Qeq_bool q' 1) eqn:H2; try reflexivity.
    - apply Qeq_bool_iff in H1. apply Qeq_bool_neq in H2. rewrite <- Hq in H2. contradiction.
    - apply Qeq_bool_iff in H2. apply Qeq_bool_neq in H1. rewrite Hq in H1. contradiction. }
  rewrite Hb. destruct (Qeq_bool q' 1); [reflexivity|].
  rewrite (IH (q / 2)%Q (q' / 2)%Q); [reflexivity|]. now rewrite Hq.
Qed.

Lemma flat_map_pair_length {A B : Type} (fn gn : A -> B) (l : list A) :
  length (flat_map (fun x => [fn x; gn x]) l) = (2 * length l)%nat.
Proof. induction l as [|x l IH]; cbn [flat_map length app]; [reflexivity|]. rewrite IH. lia. Qed.

(** X28. For a block length N = 2^k, [bhattacharyya] returns, after
    k + 1 nested calls, exactly N parameters. *)
Theorem bhattacharyya_length (k fuel : nat) (eps : F) :
  (k < fuel)%nat ->
  exists params,
    bhattacharyya two fuel (pow2Q k) eps = Some params /\ length params = (2 ^ k)%nat.
Proof.
  revert fuel. induction k as [|k IH]; intros fuel Hk.
  - destruct fuel as [|fuel]; [lia|]. exists [eps]. split; reflexivity.
  - destruct fuel as [|fuel]; [lia|]. cbn [bhattacharyya].
    destruct (Qeq_bool (pow2Q (S k)) 1) eqn:H1.
    + apply Qeq_bool_iff, pow2Q_one in H1. discriminate.
    + rewrite (bhattacharyya_Qeq fuel _ _ eps (pow2Q_half k)).
      destruct (IH fuel ltac:(lia)) as (half & Hhalf & Hlen). rewrite Hhalf.
      eexists. split; [reflexivity|].
      rewrite flat_map_pair_length, Hlen, Nat.pow_succ_r'. reflexivity.
Qed.

(** X29. For a block length that is not a power of two, halving never
    reaches 1 and [bhattacharyya] does not return, however deep the
    recursion is allowed to go. *)
Theorem bhattacharyya_diverges (q : Q) (eps : F) (fuel : nat) :
  (forall k, ~ (q == pow2Q k)%Q) ->
  bhattacharyya two fuel q eps = None.
Proof.
  revert q. induction fuel as [|fuel IH]; intros q Hq; [reflexivity|].
  cbn [bhattacharyya]. destruct (Qeq_bool q 1) eqn:H1.
  - apply Qeq_bool_iff in H1. exfalso. apply (Hq O). exact H1.
  - rewrite IH; [reflexivity|]. intros k Hk. apply (Hq (S k)). now apply pow2Q_double.
Qed.

End BhattacharyyaLength.

Lemma bhattacharyya_length_witness :
  exists params,
    bhattacharyya (Exact.Fin 2) 4 (pow2Q 3) (Exact.Fin (1 # 2)) = Some params /\
    length params = (2 ^ 3)%nat.
Proof. apply (bhattacharyya_length (Exact.Fin 2) 3 4 (Exact.Fin (1 # 2))). lia. Defined.

Lemma bhattacharyya_diverges_witness :
  bhattacharyya (Exact.Fin 2) 100 (inject_Z 6) (Exact.Fin (1 # 2)) = None.
Proof.
  apply (bhattacharyya_diverges (Exact.Fin 2) (inject_Z 6) (Exact.Fin (1 # 2)) 100).
  intros k Hk. unfold pow2Q, Qeq in Hk. cbn [Qnum Qden inject_Z] in Hk.
  destruct k as [|[|[|k]]]; try (cbn in Hk; lia).
  rewrite !Nat2Z.inj_succ, !Z.pow_succ_r in Hk by lia.
  pose proof (Z.pow_pos_nonneg 2 (Z.of_nat k)). lia.
Defined.

End PolarPageProperties.

(** * Properties of [bitReverse] *)
Module BitReverseProperties.
Import Polar.

Lemma testbit_above x b j : 0 <= x < 2 ^ b -> 0 <= b <= j -> Z.testbit x j = false.
Proof.
  intros Hx Hj. rewrite <- (Z.mod_small x (2 ^ b)) by exact Hx.
  apply Z.mod_pow2_bits_high. lia.
Qed.

Lemma push_bit_value r x : 0 <= r ->
  Z.lor (Z.shiftl r 1) (Z.land x 1) = 2 * r + x mod 2.
Proof.
  intros Hr. rewrite Z.shiftl_mul_pow2 by lia. change (2 ^ 1) with 2.
  change (Z.land x 1) with (Z.land x (Z.ones 1)). rewrite Z.land_ones by lia.
  change (2 ^ 1) with 2.
  assert (Hland : Z.land (r * 2) (x mod 2) = 0).
  { pose proof (Z.mod_pos_bound x 2 ltac:(lia)) as Hb.
    assert (Hc : x mod 2 = 0 \/ x mod 2 = 1) by lia.
    destruct Hc as [-> | ->]; [apply Z.land_0_r|].
    change 1 with (Z.ones 1). rewrite Z.land_ones by lia. change (2 ^ 1) with 2.
    apply Z.mod_mul. lia. }
  rewrite <- Z.lxor_lor by exact Hland. rewrite <- Z.add_nocarry_lxor by exact Hland. lia.
Qed.

Lemma pow2_mono a b : 0 <= a <= b -> 2 ^ a <= 2 ^ b.
Proof. intros H. apply Z.pow_le_mono_r; lia. Qed.

Lemma bitReverse_loop_spec (k : nat) : forall (x r m : Z),
  0 <= x < 2 ^ 31 -> 0 <= m -> 0 <= r < 2 ^ m -> m + Z.of_nat k <= 31 ->
  0 <= bitReverse_loop k x r < 2 ^ (m + Z.of_nat k) /\
  forall j, 0 <= j ->
    Z.testbit (bitReverse_loop k x r) j =
    if j <? Z.of_nat k then Z.testbit x (Z.of_nat k - 1 - j) else Z.testbit r (j - Z.of_nat k).
Proof.
  induction k as [|k IH]; intros x r m Hx Hm Hr Hk.
  - cbn [bitReverse_loop]. rewrite Z.add_0_r. split; [exact Hr|].
    intros j Hj. destruct (Z.ltb_spec j (Z.of_nat 0)); [lia|]. f_equal. lia.
  - cbn [bitReverse_loop].
    assert (Hm30 : 2 ^ m <= 2 ^ 30) by (apply pow2_mono; lia).
    assert (H30 : 2 ^ 31 = 2 * 2 ^ 30) by reflexivity.
    rewrite (Int32Facts.toInt32_id r), (Int32Facts.toInt32_id x) by lia.
    assert (Hsh : Z.shiftl r 1 = 2 * r) by (rewrite Z.shiftl_mul_pow2 by lia; lia).
    rewrite (Int32Facts.toInt32_id (Z.shiftl r 1)) by lia.
    set (r' := Z.lor (Z.shiftl r 1) (Z.land x 1)).
    set (x' := Z.shiftr x 1).
    assert (Hr'v : r' = 2 * r + x mod 2) by (apply push_bit_value; lia).
    assert (Hx'v : x' = x / 2) by (unfold x'; rewrite Z.shiftr_div_pow2 by lia; reflexivity).
    assert (Hx' : 0 <= x' < 2 ^ 31).
    { rewrite Hx'v. split; [apply Z.div_pos; lia|]. apply Z.div_lt_upper_bound; lia. }
    assert (Hr' : 0 <= r' < 2 ^ (m + 1)).
    { rewrite Hr'v, Z.pow_add_r by lia. change (2 ^ 1) with 2.
      pose proof (Z.mod_pos_bound x 2 ltac:(lia)). lia. }
    destruct (IH x' r' (m + 1) Hx' ltac:(lia) Hr' ltac:(lia)) as [Hrange Hbits].
    split.
    + replace (m + Z.of_nat (S k)) with (m + 1 + Z.of_nat k) by lia. exact Hrange.
    + intros j Hj. rewrite Hbits by exact Hj.
      destruct (Z.ltb_spec j (Z.of_nat k)) as [Hlt|Hge];
        destruct (Z.ltb_spec j (Z.of_nat (S k))) as [Hlt'|Hge']; try lia.
      * unfold x'. rewrite Z.shiftr_spec by lia. f_equal. lia.
      * assert (j = Z.of_nat k) by lia. subst j.
        replace (Z.of_nat k - Z.of_nat k) with 0 by lia.
        replace (Z.of_nat (S k) - 1 - Z.of_nat k) with 0 by lia.
        unfold r'. rewrite Z.lor_spec, Z.shiftl_spec_low by lia.
        rewrite Z.land_spec. cbn [orb]. change (Z.testbit 1 0) with true.
        apply andb_true_r.
      * unfold r'. rewrite Z.lor_spec, Z.shiftl_spec by lia.
        rewrite Z.land_spec.
        assert (Hone : Z.testbit 1 (j - Z.of_nat k) = false)
          by (apply (Z.pow2_bits_false 0); lia).
        rewrite Hone, andb_false_r, orb_false_r. f_equal. lia.
Qed.

(** X30. For [bits <= 31] and [0 <= x < 2^bits], [bitReverse] returns a
    number below [2^bits] whose bit [j] is bit [bits - 1 - j] of [x], and
    reversing twice gives [x] back. *)
Theorem bitReverse_involutive (x : Z) (bits : nat) :
  (bits <= 31)%nat -> 0 <= x < 2 ^ Z.of_nat bits ->
  0 <= bitReverse x bits < 2 ^ Z.of_nat bits /\
  (forall j, 0 <= j < Z.of_nat bits ->
     Z.testbit (bitReverse x bits) j = Z.testbit x (Z.of_nat bits - 1 - j)) /\
  bitReverse (bitReverse x bits) bits = x.
Proof.
  intros Hb Hx.
  assert (Hx31 : 0 <= x < 2 ^ 31).
  { pose proof (pow2_mono (Z.of_nat bits) 31 ltac:(lia)). lia. }
  assert (Hspec : forall y, 0 <= y < 2 ^ Z.of_nat bits ->
            0 <= bitReverse y bits < 2 ^ Z.of_nat bits /\
            forall j, 0 <= j ->
              Z.testbit (bitReverse y bits) j =
              if j <? Z.of_nat bits then Z.testbit y (Z.of_nat bits - 1 - j) else false).
  { intros y Hy.
    assert (Hy31 : 0 <= y < 2 ^ 31).
    { pose proof (pow2_mono (Z.of_nat bits) 31 ltac:(lia)). lia. }
    destruct (bitReverse_loop_spec bits y 0 0 Hy31 ltac:(lia) ltac:(cbn; lia) ltac:(lia))
      as [Hr Ht].
    split; [exact Hr|]. intros j Hj. unfold bitReverse. rewrite Ht by exact Hj.
    destruct (j <? Z.of_nat bits); [reflexivity|apply Z.bits_0]. }
  destruct (Hspec x Hx) as [Hr Ht].
  split; [exact Hr|]. split.
  - intros j Hj. rewrite Ht by lia.
    destruct (Z.ltb_spec j (Z.of_nat bits)); [reflexivity|lia].
  - destruct (Hspec (bitReverse x bits) Hr) as [_ Ht2].
    apply Z.bits_inj'. intros j Hj. rewrite Ht2 by exact Hj.
    destruct (Z.ltb_spec j (Z.of_nat bits)) as [Hlt|Hge].
    + rewrite Ht by lia.
      destruct (Z.ltb_spec (Z.of_nat bits - 1 - j) (Z.of_nat bits)); [|lia].
      f_equal. lia.
    + symmetry. apply (testbit_above x (Z.of_nat bits)); [exact Hx|lia].
Qed.

Lemma bitReverse_involutive_witness :
  0 <= bitReverse 6 3 < 2 ^ Z.of_nat 3 /\
  (forall j, 0 <= j < Z.of_nat 3 ->
     Z.testbit (bitReverse 6 3) j = Z.testbit 6 (Z.of_nat 3 - 1 - j)) /\
  bitReverse (bitReverse 6 3) 3 = 6.
Proof. apply (bitReverse_involutive 6 3); [lia|cbn; lia]. Defined.

End BitReverseProperties.
